(** * In-memory event bus of protoc-gen-cloudevents-go

    A shallow embedding of [transport/memory/memory.go] (package [memory]):
    the subject matcher [matchSubject] and the operations of [MemoryBus]
    ([NewMemoryBus], [Publish], [Subscribe], [SubscribeWithHandlerGroup],
    [Close]), together with the part of the Go standard library that
    [matchSubject] calls ([strings.Contains], [strings.ReplaceAll],
    [path/filepath.Match] with its helpers and [utf8.DecodeRuneInString]).
    The [Publish] of the older variant of the file, which stops at the
    first handler error, is embedded next to it as [Publish_part002],
    with the registration functions of that variant; the mock connection
    of [transport/nats/mock_nats.go] follows in the module [mock_nats].

    Go strings are byte sequences and are modelled by [string] (a list of
    8-bit [ascii] characters); a Go [error] is [option string] with [None]
    for [nil]; Go's [int] is a 64-bit signed integer, kept in [Z] with its
    wrap-around written out; a Go map is a [gmap], and the order in which
    a [range] loop visits it is an argument of the run.  A run-time panic
    (an index out of range, an assignment into a nil map) is an outcome
    of its own.

    The bus is run by one caller at a time: the lock [mu] is left out,
    and a handler acts on a world of its own, not on the bus that calls
    it. *)

From Stdlib Require Import ZArith Ascii String List Lia Bool.
From stdpp Require Import base option list gmap strings fin_maps.

Local Open Scope string_scope.
Local Open Scope Z_scope.

#[local] Set Warnings "-clear-no-such-hyp".

(** ** Go values *)

(** A Go [error]: [nil] or a message. *)
Definition error : Type := option string.
Definition nil_error : error := None.

(** [fmt.Errorf(msg)] with a constant format string. *)
Definition Errorf (msg : string) : error := Some msg.

(** A rune is an [int32]; only non-negative values occur here. *)
Definition rune : Type := Z.

Definition byte_val (c : ascii) : Z := Z.of_N (N_of_ascii c).

Definition byte_eqb (a b : ascii) : bool := Ascii.eqb a b.

(** [len(s)] *)
Definition len (s : string) : nat := String.length s.

(** [len(s) > 0 && s[0] == c] *)
Definition head_is (s : string) (c : ascii) : bool :=
  match s with
  | String a _ => byte_eqb a c
  | EmptyString => false
  end.

(** [s[n:]], for [n <= len(s)] (Go panics beyond; never reached below). *)
Fixpoint slice_from (n : nat) (s : string) : string :=
  match n, s with
  | O, _ => s
  | S n', String _ s' => slice_from n' s'
  | S _, EmptyString => EmptyString
  end.

(** [s[:n]], for [n <= len(s)]. *)
Fixpoint slice_to (n : nat) (s : string) : string :=
  match n, s with
  | O, _ => EmptyString
  | S n', String c s' => String c (slice_to n' s')
  | S _, EmptyString => EmptyString
  end.

Module strings.

(** [strings.HasPrefix(s, prefix)] *)
Fixpoint HasPrefix (s prefix : string) : bool :=
  match prefix, s with
  | EmptyString, _ => true
  | String p prefix', String c s' => byte_eqb p c && HasPrefix s' prefix'
  | String _ _, EmptyString => false
  end.

(** [strings.Contains(s, substr)]: [substr] occurs somewhere in [s]. *)
Fixpoint Contains (s substr : string) : bool :=
  HasPrefix s substr ||
  match s with
  | EmptyString => false
  | String _ s' => Contains s' substr
  end.

(** [strings.ReplaceAll(s, old, new)] for a non-empty [old]: the
    non-overlapping occurrences of [old], taken from the left, are
    replaced by [new].  [skip] counts the bytes of an occurrence that
    is being dropped.  (With an empty [old] Go inserts [new] around
    every rune; the bus never calls it so, and that case is not
    modelled.) *)
Fixpoint ReplaceAll_from (skip : nat) (s old new : string) : string :=
  match s with
  | EmptyString => EmptyString
  | String c s' =>
      match skip with
      | S k => ReplaceAll_from k s' old new
      | O =>
          if HasPrefix s old
          then (new ++ ReplaceAll_from (len old - 1) s' old new)%string
          else String c (ReplaceAll_from O s' old new)
      end
  end.

Definition ReplaceAll (s old new : string) : string :=
  ReplaceAll_from O s old new.

End strings.

Module utf8.

Definition RuneError : rune := 65533. (* U+FFFD *)

(** Entries of the table [first]: [as_] marks ASCII, [xx] an invalid
    lead byte; otherwise the low three bits give the size and the high
    four the index into [acceptRanges]. *)
Definition xx : Z := 241.  (* 0xF1 *)
Definition as_ : Z := 240. (* 0xF0 *)

Definition first (b : Z) : Z :=
  if b <? 128 then as_         (* 0x00-0x7F *)
  else if b <? 194 then xx     (* 0x80-0xC1 *)
  else if b <? 224 then 2      (* 0xC2-0xDF: s1 *)
  else if b =? 224 then 19     (* 0xE0: s2 = 0x13 *)
  else if b <? 237 then 3      (* 0xE1-0xEC: s3 *)
  else if b =? 237 then 35     (* 0xED: s4 = 0x23 *)
  else if b <? 240 then 3      (* 0xEE-0xEF: s3 *)
  else if b =? 240 then 52     (* 0xF0: s5 = 0x34 *)
  else if b <? 244 then 4      (* 0xF1-0xF3: s6 *)
  else if b =? 244 then 68     (* 0xF4: s7 = 0x44 *)
  else xx.                     (* 0xF5-0xFF *)

Definition locb : Z := 128. (* 0x80 *)
Definition hicb : Z := 191. (* 0xBF *)

(** [acceptRanges[i]] as the pair (lo, hi). *)
Definition acceptRanges (i : Z) : Z * Z :=
  if i =? 0 then (locb, hicb)
  else if i =? 1 then (160, hicb)
  else if i =? 2 then (locb, 159)
  else if i =? 3 then (144, hicb)
  else if i =? 4 then (locb, 143)
  else (0, 0).

Definition maskx : Z := 63.
Definition mask2 : Z := 31.
Definition mask3 : Z := 15.
Definition mask4 : Z := 7.

(** [utf8.DecodeRuneInString(s)]: the first rune of [s] and its width
    in bytes; [(RuneError, 0)] on the empty string and [(RuneError, 1)]
    on an invalid encoding. *)
Definition DecodeRuneInString (s : string) : rune * nat :=
  match s with
  | EmptyString => (RuneError, 0%nat)
  | String c0 t0 =>
      let s0 := byte_val c0 in
      let x := first s0 in
      if as_ <=? x then
        (* the mask is 0 for [as_] and all ones for [xx] *)
        (if x =? as_ then s0 else RuneError, 1%nat)
      else
        let sz := Z.to_nat (Z.land x 7) in
        let accept := acceptRanges (Z.shiftr x 4) in
        if (len s <? sz)%nat then (RuneError, 1%nat) else
        match t0 with
        | EmptyString => (RuneError, 1%nat)
        | String c1 t1 =>
            let s1 := byte_val c1 in
            if (s1 <? fst accept) || (snd accept <? s1) then (RuneError, 1%nat)
            else if (sz <=? 2)%nat then
              (Z.lor (Z.shiftl (Z.land s0 mask2) 6) (Z.land s1 maskx), 2%nat)
            else
            match t1 with
            | EmptyString => (RuneError, 1%nat)
            | String c2 t2 =>
                let s2 := byte_val c2 in
                if (s2 <? locb) || (hicb <? s2) then (RuneError, 1%nat)
                else if (sz <=? 3)%nat then
                  (Z.lor (Z.lor (Z.shiftl (Z.land s0 mask3) 12)
                                (Z.shiftl (Z.land s1 maskx) 6))
                         (Z.land s2 maskx), 3%nat)
                else
                match t2 with
                | EmptyString => (RuneError, 1%nat)
                | String c3 _ =>
                    let s3 := byte_val c3 in
                    if (s3 <? locb) || (hicb <? s3) then (RuneError, 1%nat)
                    else
                      (Z.lor (Z.lor (Z.lor (Z.shiftl (Z.land s0 mask4) 18)
                                           (Z.shiftl (Z.land s1 maskx) 12))
                                    (Z.shiftl (Z.land s2 maskx) 6))
                             (Z.land s3 maskx), 4%nat)
                end
            end
        end
  end.

End utf8.

(** ** [path/filepath.Match] (Unix: [Separator] is '/')

    The matcher of the Go standard library, which is not part of the
    repository; it is written here after the library's [match.go]
    ([Match], [scanChunk], [matchChunk], [getEsc]).  Loops that consume a
    string from the front are run on a fuel counter bounded by the length
    of that string; [None] stands for an exhausted counter, and the
    lemmas further down show that it never shows. *)
Module filepath.

Definition Separator : ascii := "/"%char.

Definition ErrBadPattern : error := Some "syntax error in pattern".

(** [getEsc(chunk)]: a possibly escaped character of a character
    class, the rest of the chunk, and an error for a bad pattern. *)
Definition getEsc (chunk : string) : rune * string * error :=
  match chunk with
  | EmptyString => (0, "", ErrBadPattern)
  | String c chunk1 =>
      if byte_eqb c "-" || byte_eqb c "]" then (0, "", ErrBadPattern)
      else
        let chunk' := if byte_eqb c "\" then chunk1 else chunk in
        if byte_eqb c "\" && (len chunk' =? 0)%nat then (0, "", ErrBadPattern)
        else
          let '(r, n) := utf8.DecodeRuneInString chunk' in
          let err := if (r =? utf8.RuneError) && (n =? 1)%nat
                     then ErrBadPattern else nil_error in
          let nchunk := slice_from n chunk' in
          let err := if (len nchunk =? 0)%nat then ErrBadPattern else err in
          (r, nchunk, err)
  end.

(** The loop "parse all ranges" of [matchChunk], entered after the
    opening bracket and the optional '^': it returns the chunk after
    the closing bracket and whether [r] lies in one of the ranges
    ([inl]), or the error of a bad class ([inr]). *)
Fixpoint parseRanges (fuel : nat) (chunk : string) (r : rune)
    (matched : bool) (nrange : nat) : option (string * bool + error) :=
  match fuel with
  | O => None
  | S fuel' =>
      if head_is chunk "]" && (0 <? nrange)%nat
      then Some (inl (slice_from 1 chunk, matched))
      else
        match getEsc chunk with
        | (_, _, Some e) => Some (inr (Some e))
        | (lo, chunk, None) =>
            let after_hi :=
              if head_is chunk "-" then
                match getEsc (slice_from 1 chunk) with
                | (_, _, Some e) => inr (Some e)
                | (hi, chunk, None) => inl (hi, chunk)
                end
              else inl (lo, chunk) in
            match after_hi with
            | inr e => Some (inr e)
            | inl (hi, chunk) =>
                let matched :=
                  if (lo <=? r) && (r <=? hi) then true else matched in
                parseRanges fuel' chunk r matched (S nrange)
            end
        end
  end.

(** The loop of [matchChunk(chunk, s)], with its local [failed]: the
    rest of [s] after the match, whether the chunk matched, and the
    error of a malformed chunk. *)
Fixpoint matchChunk_loop (fuel : nat) (chunk s : string) (failed : bool)
    : option (string * bool * error) :=
  match fuel with
  | O => None
  | S fuel' =>
      match chunk with
      | EmptyString =>
          Some (if failed then ("", false, nil_error) else (s, true, nil_error))
      | String c chunk1 =>
          let failed := if negb failed && (len s =? 0)%nat then true else failed in
          if byte_eqb c "[" then
            (* character class *)
            let '(r, s) :=
              if negb failed
              then let '(r, n) := utf8.DecodeRuneInString s in (r, slice_from n s)
              else (0, s) in
            let chunk := chunk1 in
            (* possibly negated *)
            let '(negated, chunk) :=
              if head_is chunk "^"
              then (true, slice_from 1 chunk) else (false, chunk) in
            match parseRanges fuel' chunk r false 0 with
            | None => None
            | Some (inr e) => Some ("", false, e)
            | Some (inl (chunk, matched)) =>
                let failed := if Bool.eqb matched negated then true else failed in
                matchChunk_loop fuel' chunk s failed
            end
          else if byte_eqb c "?" then
            let '(failed, s) :=
              if negb failed then
                let failed := if head_is s Separator then true else failed in
                let '(_, n) := utf8.DecodeRuneInString s in
                (failed, slice_from n s)
              else (failed, s) in
            matchChunk_loop fuel' chunk1 s failed
          else if byte_eqb c "\" then
            match chunk1 with
            | EmptyString => Some ("", false, ErrBadPattern)
            | String c' chunk2 =>
                (* fallthrough to the default case *)
                let '(failed, s) :=
                  if negb failed then
                    (if negb (head_is s c') then true else failed,
                     slice_from 1 s)
                  else (failed, s) in
                matchChunk_loop fuel' chunk2 s failed
            end
          else
            let '(failed, s) :=
              if negb failed then
                (if negb (head_is s c) then true else failed,
                 slice_from 1 s)
              else (failed, s) in
            matchChunk_loop fuel' chunk1 s failed
      end
  end.

(** [matchChunk(chunk, s)]: does [chunk] match a prefix of [s]? *)
Definition matchChunk (chunk s : string) : string * bool * error :=
  match matchChunk_loop (S (len chunk)) chunk s false with
  | Some res => res
  | None => ("", false, nil_error)
  end.

(** The leading stars of a pattern: the pattern without them, and
    whether there was one. *)
Fixpoint skipStars (pattern : string) (star : bool) : string * bool :=
  match pattern with
  | String c pattern' =>
      if byte_eqb c "*" then skipStars pattern' true else (pattern, star)
  | EmptyString => (pattern, star)
  end.

(** The loop [Scan] of [scanChunk]: the index at which it stops. *)
Fixpoint scanIndex (pattern : string) (inrange : bool) : nat :=
  match pattern with
  | EmptyString => 0
  | String c pattern' =>
      if byte_eqb c "\" then
        match pattern' with
        | EmptyString => 1
        | String _ pattern'' => 2 + scanIndex pattern'' inrange
        end
      else if byte_eqb c "[" then 1 + scanIndex pattern' true
      else if byte_eqb c "]" then 1 + scanIndex pattern' false
      else if byte_eqb c "*" then
        if inrange then 1 + scanIndex pattern' inrange else 0
      else 1 + scanIndex pattern' inrange
  end%nat.

(** [scanChunk(pattern)]: the next chunk of the pattern, a string
    without a star outside brackets, possibly preceded by stars. *)
Definition scanChunk (pattern : string) : bool * string * string :=
  let '(pattern, star) := skipStars pattern false in
  let i := scanIndex pattern false in
  (star, slice_to i pattern, slice_from i pattern).

(** What the loop over [i] of [Match] leaves: a place where the chunk
    matches ([StarFound], with the rest of the name), an error, or
    nothing. *)
Inductive starResult : Type :=
| StarFound (t : string)
| StarError (e : error)
| StarNone.

(** [for i := 0; i < len(name) && name[i] != Separator; i++]: look for
    a match of [chunk] after skipping [i+1] bytes; [last] is
    [len(pattern) == 0]. *)
Fixpoint starLoop (chunk : string) (last : bool) (name : string) : starResult :=
  match name with
  | EmptyString => StarNone
  | String c name' =>
      if byte_eqb c Separator then StarNone
      else
        match matchChunk chunk name' with
        | (t, true, _) =>
            if last && (0 <? len t)%nat
            then starLoop chunk last name'
            else StarFound t
        | (_, false, Some e) => StarError (Some e)
        | (_, false, None) => starLoop chunk last name'
        end
  end.

(** The closing loop of [Match]: the rest of the pattern is checked
    for its syntax before a mismatch is reported. *)
Fixpoint checkRest (fuel : nat) (pattern : string) : option error :=
  match fuel with
  | O => None
  | S fuel' =>
      if (0 <? len pattern)%nat then
        let '(_, chunk, pattern) := scanChunk pattern in
        match matchChunk chunk "" with
        | (_, _, Some e) => Some (Some e)
        | (_, _, None) => checkRest fuel' pattern
        end
      else Some nil_error
  end.

(** The loop [Pattern] of [Match]. *)
Fixpoint Match_loop (fuel : nat) (pattern name : string) : option (bool * error) :=
  match fuel with
  | O => None
  | S fuel' =>
      if (0 <? len pattern)%nat then
        let '(star, chunk, pattern) := scanChunk pattern in
        if star && (len chunk =? 0)%nat then
          (* Trailing * matches rest of string unless it has a /. *)
          Some (negb (strings.Contains name (String Separator "")), nil_error)
        else
          (* Look for match at current position. *)
          let '(t, ok, err) := matchChunk chunk name in
          if ok && ((len t =? 0)%nat || (0 <? len pattern)%nat) then
            Match_loop fuel' pattern t
          else
            match err with
            | Some e => Some (false, Some e)
            | None =>
                let mismatch :=
                  match checkRest fuel' pattern with
                  | Some None => Some (false, nil_error)
                  | Some (Some e) => Some (false, Some e)
                  | None => None
                  end in
                if star then
                  match starLoop chunk (len pattern =? 0)%nat name with
                  | StarFound t => Match_loop fuel' pattern t
                  | StarError e => Some (false, e)
                  | StarNone => mismatch
                  end
                else mismatch
            end
      else Some ((len name =? 0)%nat, nil_error)
  end.

(** [filepath.Match(pattern, name)] *)
Definition Match (pattern name : string) : bool * error :=
  match Match_loop (S (len pattern)) pattern name with
  | Some res => res
  | None => (false, nil_error)
  end.

End filepath.

(** ** The subject matcher *)

(** [matchSubject] checks if a subject matches a pattern with wildcards. *)
Definition matchSubject (pattern subject : string) : bool :=
  (* If pattern doesn't contain wildcards, use exact match *)
  if negb (strings.Contains pattern "*") then String.eqb pattern subject
  else
    let filePattern := strings.ReplaceAll pattern "*" "*" in
    match filepath.Match filePattern subject with
    | (_, Some _) => false
    | (matched, None) => matched
    end.

(** The syntax check that [filepath.Match] runs over the rest of a
    pattern, here run over a whole pattern: no chunk of it is malformed. *)
Definition well_formed (pattern : string) : bool :=
  match filepath.checkRest (S (len pattern)) pattern with
  | Some None => true
  | _ => false
  end.

(** The error, if any, in a result of [matchChunk_loop]. *)
Definition err_of (x : option (string * bool * error)) : option error :=
  snd <$> x.

(** Two results of [parseRanges] that differ at most in whether the
    character was found in the class. *)
Definition same_class (x y : option (string * bool + error)) : Prop :=
  match x, y with
  | None, None => True
  | Some (inr e), Some (inr e') => e = e'
  | Some (inl (chunk, _)), Some (inl (chunk', _)) => chunk = chunk'
  | _, _ => False
  end.

(** *** The matching rule in the words of the specification

    "Pattern matches subject iff (a) pattern contains no wildcard token
    and is exactly equal to subject, or (b) pattern contains wildcard
    token(s) and single-segment wildcard matching against dot-delimited
    segments succeeds: each [*] matches exactly one non-empty segment,
    non-wildcard segments must match literally, segment counts must be
    equal."  This is the rule to compare [matchSubject] with; it is not
    taken from the code. *)

(** The dot-delimited segments of a string. *)
Fixpoint split_dots (s : string) : list string :=
  match s with
  | EmptyString => [EmptyString]
  | String c s' =>
      if byte_eqb c "." then EmptyString :: split_dots s'
      else match split_dots s' with
           | seg :: segs => String c seg :: segs
           | [] => [String c EmptyString]
           end
  end.

Fixpoint segments_match (ps ss : list string) : bool :=
  match ps, ss with
  | [], [] => true
  | p :: ps', s :: ss' =>
      (if String.eqb p "*" then negb (String.eqb s "") else String.eqb p s)
      && segments_match ps' ss'
  | _, _ => false
  end.

Definition spec_matchSubject (pattern subject : string) : bool :=
  if negb (strings.Contains pattern "*") then String.eqb pattern subject
  else segments_match (split_dots pattern) (split_dots subject).

(** ** Iterating over a Go map

    [for k, v := range m] visits every entry of [m] once, in an order
    that Go leaves unspecified and that may change from one loop to the
    next.  A loop is therefore run on [range_by ks m], where the list
    [ks] is the choice of the run time: the keys named by [ks] come
    first, in that order (a key named twice counts at its last place),
    and the entries it does not name follow.
    Every [ks] gives a permutation of the entries of [m], and every
    permutation is given by some [ks] (lemmas [range_by_Permutation] and
    [range_by_complete]). *)
Definition pick {V : Type} (m : gmap string V) (k : string) : option (string * V) :=
  (λ v, (k, v)) <$> m !! k.

Definition range_by {V : Type} (ks : list string) (m : gmap string V)
    : list (string * V) :=
  (omap (pick m) (remove_dups ks)
   ++ filter (λ kv, kv.1 ∉ ks) (map_to_list m))%list.

(** The choices for the three loops over maps of one [Publish]: the
    order of [b.handlers], the order of [b.groups], and for every
    pattern the order of its groups. *)
Record Schedule : Type := mkSchedule {
  order_handlers : list string;
  order_groups : list string;
  order_group : string → list string
}.

(** A loop whose body may panic ([None]). *)
Fixpoint for_each {A S : Type} (body : A → S → option S) (l : list A) (st : S)
    : option S :=
  match l with
  | [] => Some st
  | x :: l' => match body x st with
               | Some st' => for_each body l' st'
               | None => None
               end
  end.

(** ** Go's [int] *)

Definition max_int : Z := 2 ^ 63 - 1.

(** The value of a 64-bit signed integer after an overflow. *)
Definition wrap_int (z : Z) : Z := (z + 2 ^ 63) mod 2 ^ 64 - 2 ^ 63.

(** [l[i]] on a slice: a run-time panic ([None]) out of range. *)
Definition slice_index {A : Type} (l : list A) (i : Z) : option A :=
  if (0 <=? i) && (i <? Z.of_nat (List.length l)) then l !! Z.to_nat i else None.

(** ** The bus *)
Section Bus.

(** The delivery context and the event are opaque to the bus; [World]
    is whatever the handlers act on. *)
Context {Ctx Event World : Type}.

(** [type EventHandler func(context.Context, *cloudevents.Event) error]:
    a non-nil function value.  The event pointer may be nil. *)
Definition EventHandler : Type := Ctx → option Event → World → World * error.

(** [MemoryBus]; the lock [mu] has no part in a sequential run. *)
Record MemoryBus : Type := mkMemoryBus {
  handlers : gmap string (list EventHandler);
  groups : gmap string (gmap string (list EventHandler));  (* subject -> group -> handlers *)
  groupIndex : gmap string (gmap string Z)                 (* subject -> group -> current index *)
}.

(** [NewMemoryBus] creates a new in-memory event bus. *)
Definition NewMemoryBus : MemoryBus :=
  {| handlers := ∅; groups := ∅; groupIndex := ∅ |}.

(** One call [handler(ctx, event)] made by [Publish]: the pattern and
    (in group mode) the group it was registered under, its index in
    the slice, and the function. *)
Record Call : Type := mkCall {
  call_pattern : string;
  call_group : option string;
  call_index : nat;
  call_handler : EventHandler
}.

(** What a [Publish] in progress has changed: the cursors, the world
    of the handlers, and (as a record of the run) the calls made. *)
Record Dispatch : Type := mkDispatch {
  d_index : gmap string (gmap string Z);
  d_world : World;
  d_calls : list Call
}.

(** [handler(ctx, event)] *)
Definition invoke (c : Call) (ctx : Ctx) (event : option Event) (st : Dispatch)
    : Dispatch * error :=
  let '(w, err) := call_handler c ctx event (d_world st) in
  ({| d_index := d_index st; d_world := w; d_calls := (d_calls st ++ [c])%list |}, err).

(** [idx[pattern][group]] as an expression: reading a missing key, or
    a nil inner map, gives 0. *)
Definition cursor (idx : gmap string (gmap string Z)) (pattern group : string) : Z :=
  default 0 (idx !! pattern ≫= λ inner, inner !! group).

(** [idx[pattern][group]++]: a panic ([None]) when the inner map is nil. *)
Definition cursor_incr (idx : gmap string (gmap string Z)) (pattern group : string)
    : option (gmap string (gmap string Z)) :=
  match idx !! pattern with
  | None => None
  | Some inner =>
      Some (<[pattern := <[group := wrap_int (default 0 (inner !! group) + 1)]> inner]> idx)
  end.

(** [for _, handler := range handlers { _ = handler(ctx, event) }] *)
Fixpoint call_all (pattern : string) (i : nat) (hs : list EventHandler)
    (ctx : Ctx) (event : option Event) (st : Dispatch) : Dispatch :=
  match hs with
  | [] => st
  | h :: hs' =>
      let st := fst (invoke (mkCall pattern None i h) ctx event st) in
      call_all pattern (S i) hs' ctx event st
  end.

(** The body of the loop over [b.handlers]. *)
Definition broadcast_body (subject : string) (ctx : Ctx) (event : option Event)
    (entry : string * list EventHandler) (st : Dispatch) : option Dispatch :=
  let '(pattern, hs) := entry in
  if matchSubject pattern subject
  then Some (call_all pattern 0 hs ctx event st)
  else Some st.

(** The body of the loop over the groups of one pattern. *)
Definition group_body (pattern : string) (ctx : Ctx) (event : option Event)
    (entry : string * list EventHandler) (st : Dispatch) : option Dispatch :=
  let '(group, hs) := entry in
  if (List.length hs =? 0)%nat then Some st (* continue *)
  else
    (* Round-robin handler selection *)
    let index := Z.rem (cursor (d_index st) pattern group) (Z.of_nat (List.length hs)) in
    match slice_index hs index with
    | None => None
    | Some handler =>
        match cursor_incr (d_index st) pattern group with
        | None => None
        | Some idx =>
            let st := {| d_index := idx; d_world := d_world st; d_calls := d_calls st |} in
            Some (fst (invoke (mkCall pattern (Some group) (Z.to_nat index) handler)
                              ctx event st))
        end
    end.

(** The body of the loop over [b.groups]. *)
Definition groups_body (sch : Schedule) (subject : string) (ctx : Ctx)
    (event : option Event)
    (entry : string * gmap string (list EventHandler)) (st : Dispatch)
    : option Dispatch :=
  let '(pattern, groupHandlers) := entry in
  if matchSubject pattern subject
  then for_each (group_body pattern ctx event)
                (range_by (order_group sch pattern) groupHandlers) st
  else Some st.

(** How a call of [Publish] ends: it returns, leaving the bus and the
    world as given, after the calls listed; or it panics. *)
Inductive Outcome : Type :=
| Returned (b : MemoryBus) (w : World) (calls : list Call) (err : error)
| Panicked.

(** [Publish] publishes an event to the bus. *)
Definition Publish (sch : Schedule) (b : MemoryBus) (ctx : Ctx) (subject : string)
    (event : option Event) (w : World) : Outcome :=
  (* Validate inputs *)
  if decide (subject = "") then Returned b w [] (Errorf "subject is required")
  else if decide (event = None :> option Event) then Returned b w [] (Errorf "event is required")
  else
    let st := {| d_index := groupIndex b; d_world := w; d_calls := [] |} in
    (* Broadcast to all broadcast-mode subscribers with matching subjects *)
    match for_each (broadcast_body subject ctx event)
                   (range_by (order_handlers sch) (handlers b)) st with
    | None => Panicked
    | Some st =>
        (* Handler group mode (load balancing) with wildcard support *)
        match for_each (groups_body sch subject ctx event)
                       (range_by (order_groups sch) (groups b)) st with
        | None => Panicked
        | Some st =>
            Returned {| handlers := handlers b; groups := groups b;
                        groupIndex := d_index st |}
                     (d_world st) (d_calls st) nil_error
        end
    end.

(** [Subscribe] subscribes to events (broadcast mode); a nil handler
    is [None]. *)
Definition Subscribe (b : MemoryBus) (subject : string)
    (handler : option EventHandler) : MemoryBus * error :=
  if decide (subject = "") then (b, Errorf "subject is required")
  else match handler with
  | None => (b, Errorf "handler is required")
  | Some h =>
      ({| handlers := <[subject := (default [] (handlers b !! subject) ++ [h])%list]> (handlers b);
          groups := groups b;
          groupIndex := groupIndex b |}, nil_error)
  end.

(** [SubscribeWithHandlerGroup] subscribes to events (handler group mode). *)
Definition SubscribeWithHandlerGroup (b : MemoryBus) (subject group : string)
    (handler : option EventHandler) : MemoryBus * error :=
  if decide (subject = "") then (b, Errorf "subject is required")
  else if decide (group = "") then (b, Errorf "group is required")
  else match handler with
  | None => (b, Errorf "handler is required")
  | Some h =>
      let groups1 :=
        match groups b !! subject with
        | None => <[subject := ∅]> (groups b)
        | Some _ => groups b
        end in
      let groupIndex1 :=
        match groupIndex b !! subject with
        | None => <[subject := ∅]> (groupIndex b)
        | Some _ => groupIndex b
        end in
      let inner := default ∅ (groups1 !! subject) in
      ({| handlers := handlers b;
          groups := <[subject := <[group := (default [] (inner !! group) ++ [h])%list]> inner]> groups1;
          groupIndex := groupIndex1 |}, nil_error)
  end.

(** [Close] closes the event bus. *)
Definition Close (b : MemoryBus) : MemoryBus * error :=
  ({| handlers := ∅; groups := ∅; groupIndex := ∅ |}, nil_error).

(** *** What a [Publish] is expected to do

    The definitions below do not run anything: they read off the
    registries which calls a [Publish] has to make, and are what the
    theorems compare the runs of [Publish] with. *)

(** The effect of a sequence of calls on the world of the handlers,
    whatever they return. *)
Definition run_calls (calls : list Call) (ctx : Ctx) (event : option Event)
    (w : World) : World :=
  foldl (λ w c, fst (call_handler c ctx event w)) w calls.

(** The state [st] after the calls [calls], with the cursors [idx]. *)
Definition after (ctx : Ctx) (event : option Event) (st : Dispatch)
    (calls : list Call) (idx : gmap string (gmap string Z)) : Dispatch :=
  {| d_index := idx;
     d_world := run_calls calls ctx event (d_world st);
     d_calls := (d_calls st ++ calls)%list |}.

(** The calls made under pattern [p] in broadcast mode ([g = None]) or
    for the group [g] of that pattern. *)
Definition calls_for (p : string) (g : option string) (calls : list Call)
    : list Call :=
  filter (λ c, call_pattern c = p ∧ call_group c = g) calls.

(** The handlers of a broadcast slice, numbered from [i]. *)
Fixpoint broadcast_calls (p : string) (i : nat) (hs : list EventHandler)
    : list Call :=
  match hs with
  | [] => []
  | h :: hs' => mkCall p None i h :: broadcast_calls p (S i) hs'
  end.

(** The handler that the cursor of a group points at, if the group has
    one. *)
Definition selected (idx : gmap string (gmap string Z)) (p : string)
    (entry : string * list EventHandler) : list Call :=
  let '(g, hs) := entry in
  let i := Z.to_nat (Z.rem (cursor idx p g) (Z.of_nat (List.length hs))) in
  match hs !! i with
  | Some h => [mkCall p (Some g) i h]
  | None => []
  end.

(** The call that serves a group with the handlers [hs] when its
    cursor stands at [c]. *)
Definition serve (p g : string) (hs : list EventHandler) (c : Z) : list Call :=
  let i := Z.to_nat (Z.rem c (Z.of_nat (List.length hs))) in
  match hs !! i with
  | Some h => [mkCall p (Some g) i h]
  | None => []
  end.

Definition broadcast_plan (subject : string)
    (entry : string * list EventHandler) : list Call :=
  if matchSubject entry.1 subject then broadcast_calls entry.1 0 entry.2 else [].

Definition groups_plan (sch : Schedule) (idx : gmap string (gmap string Z))
    (subject : string) (entry : string * gmap string (list EventHandler))
    : list Call :=
  if matchSubject entry.1 subject
  then flat_map (selected idx entry.1) (range_by (order_group sch entry.1) entry.2)
  else [].

(** The calls of a valid [Publish], in the order of the schedule. *)
Definition dispatch_plan (sch : Schedule) (b : MemoryBus) (subject : string)
    : list Call :=
  (flat_map (broadcast_plan subject) (range_by (order_handlers sch) (handlers b))
   ++ flat_map (groups_plan sch (groupIndex b) subject)
               (range_by (order_groups sch) (groups b)))%list.

(** The step of a cursor in one [Publish]: the group of a matching
    pattern that holds a handler is served once. *)
Definition cursor_step (subject p : string)
    (gm : gmap string (list EventHandler)) (g : string) : Z :=
  if matchSubject p subject && negb (List.length (default [] (gm !! g)) =? 0)%nat
  then 1 else 0.

(** The handlers registered for group [g] of pattern [p] ([[]] when
    there are none). *)
Definition group_handlers (b : MemoryBus) (p g : string) : list EventHandler :=
  default [] (groups b !! p ≫= λ gm, gm !! g).

(** Group [g] of pattern [p] takes part in a publish to [subject]. *)
Definition dispatched (b : MemoryBus) (subject p g : string) : bool :=
  matchSubject p subject && negb (List.length (group_handlers b p g) =? 0)%nat.

(** The states in which [Publish] cannot panic: every pattern of
    [groups] has its inner map in [groupIndex] (both are made by the
    same [SubscribeWithHandlerGroup]), and every cursor is at least 0
    and at most [bound], with [bound] below the largest [int]. *)
Definition bus_inv (bound : Z) (b : MemoryBus) : Prop :=
  (∀ p gm, groups b !! p = Some gm → is_Some (groupIndex b !! p))
  ∧ (∀ p g, 0 ≤ cursor (groupIndex b) p g ≤ bound).

(** The same, as a test. *)
Definition index_ready (b : MemoryBus) : bool :=
  forallb (λ entry, bool_decide (is_Some (groupIndex b !! entry.1)))
          (map_to_list (groups b)).

Definition cursors_within (bound : Z) (idx : gmap string (gmap string Z)) : bool :=
  forallb (λ entry : string * gmap string Z,
             forallb (λ c : string * Z, (0 <=? c.2) && (c.2 <=? bound))
                     (map_to_list entry.2))
          (map_to_list idx).

Definition bus_within (bound : Z) (b : MemoryBus) : bool :=
  (0 <=? bound) && index_ready b && cursors_within bound (groupIndex b).

(** No cursor is about to overflow. *)
Definition bus_ok (b : MemoryBus) : bool := bus_within (max_int - 1) b.

(** Several publishes in a row, each with its own schedule, subject
    and event: the bus and the world at the end, and the calls of each
    publish; [None] when one of them panics. *)
Fixpoint PublishSeq (b : MemoryBus) (ctx : Ctx)
    (reqs : list (Schedule * string * option Event)) (w : World)
    : option (MemoryBus * World * list (list Call)) :=
  match reqs with
  | [] => Some (b, w, [])
  | (sch, subject, event) :: reqs' =>
      match Publish sch b ctx subject event w with
      | Returned b' w' calls _ =>
          match PublishSeq b' ctx reqs' w' with
          | Some (b'', w'', logs) => Some (b'', w'', calls :: logs)
          | None => None
          end
      | Panicked => None
      end
  end.

(** No pattern registered on the bus matches the subject. *)
Definition no_match (b : MemoryBus) (subject : string) : Prop :=
  ∀ p, is_Some (handlers b !! p) ∨ is_Some (groups b !! p) →
       matchSubject p subject = false.

(** A request that [Publish] accepts and that pattern [p] matches. *)
Definition matching_request (p : string)
    (req : Schedule * string * option Event) : Prop :=
  req.1.2 ≠ "" ∧ is_Some req.2 ∧ matchSubject p req.1.2 = true.

(** Several handlers subscribed to one pattern, one after the other. *)
Definition subscribe_all (b : MemoryBus) (p : string) (hs : list EventHandler)
    : MemoryBus :=
  foldl (λ b h, (Subscribe b p (Some h)).1) b hs.

(** The states that the operations of the bus lead to from a new bus,
    with the number of publishes made on the way. *)
Inductive reachable : Z → MemoryBus → Prop :=
| reach_new : reachable 0 NewMemoryBus
| reach_Subscribe n b subject handler :
    reachable n b → reachable n (Subscribe b subject handler).1
| reach_SubscribeWithHandlerGroup n b subject group handler :
    reachable n b →
    reachable n (SubscribeWithHandlerGroup b subject group handler).1
| reach_Close n b : reachable n b → reachable n (Close b).1
| reach_Publish n b sch ctx subject event w b' w' calls err :
    reachable n b →
    Publish sch b ctx subject event w = Returned b' w' calls err →
    reachable (n + 1) b'.

(** *** The older variant of [Publish]

    The repository holds a second [memory.go], without the validation
    of the inputs and without wildcards.  Its [Publish] looks the
    subject up as a key and returns at the first handler that fails.
    It is modelled on the same [MemoryBus]; the registration functions
    of the variant follow further down. *)

(** [for _, handler := range b.handlers[subject]] with its early
    return. *)
Fixpoint call_until_error (subject : string) (i : nat) (hs : list EventHandler)
    (ctx : Ctx) (event : option Event) (st : Dispatch) : Dispatch * error :=
  match hs with
  | [] => (st, nil_error)
  | h :: hs' =>
      let '(st, err) := invoke (mkCall subject None i h) ctx event st in
      match err with
      | Some msg => (st, Errorf ("handler error: " ++ msg))
      | None => call_until_error subject (S i) hs' ctx event st
      end
  end.

(** [for group, handlers := range groupHandlers] with its early
    return; [None] is a panic. *)
Fixpoint groups_until_error (subject : string)
    (l : list (string * list EventHandler))
    (ctx : Ctx) (event : option Event) (st : Dispatch) : option (Dispatch * error) :=
  match l with
  | [] => Some (st, nil_error)
  | (group, hs) :: l' =>
      if (List.length hs =? 0)%nat
      then groups_until_error subject l' ctx event st (* continue *)
      else
        let index := Z.rem (cursor (d_index st) subject group)
                           (Z.of_nat (List.length hs)) in
        match slice_index hs index with
        | None => None
        | Some handler =>
            match cursor_incr (d_index st) subject group with
            | None => None
            | Some idx =>
                let st := {| d_index := idx; d_world := d_world st;
                             d_calls := d_calls st |} in
                let '(st, err) :=
                  invoke (mkCall subject (Some group) (Z.to_nat index) handler)
                         ctx event st in
                match err with
                | Some msg => Some (st, Errorf ("group handler error: " ++ msg))
                | None => groups_until_error subject l' ctx event st
                end
            end
        end
  end.

Definition Publish_part002 (sch : Schedule) (b : MemoryBus) (ctx : Ctx)
    (subject : string) (event : option Event) (w : World) : Outcome :=
  let st := {| d_index := groupIndex b; d_world := w; d_calls := [] |} in
  let returned (st : Dispatch) (err : error) :=
    Returned {| handlers := handlers b; groups := groups b;
                groupIndex := d_index st |}
             (d_world st) (d_calls st) err in
  (* Broadcast to all broadcast-mode subscribers *)
  match call_until_error subject 0 (default [] (handlers b !! subject))
                         ctx event st with
  | (st, Some msg) => returned st (Some msg)
  | (st, None) =>
      (* Handler group mode (load balancing) *)
      match groups b !! subject with
      | Some groupHandlers =>
          match groups_until_error subject
                  (range_by (order_group sch subject) groupHandlers)
                  ctx event st with
          | None => Panicked
          | Some (st, err) => returned st err
          end
      | None => returned st nil_error
      end
  end.

End Bus.

(** ** A small world for the examples

    Handlers that write their number into a log and fail or not, as
    told; the event is a string, the context is empty. *)
Definition log_handler (name : nat) (fail : bool)
    : @EventHandler unit string (list nat) :=
  λ _ _ w, ((w ++ [name])%list, if fail then Some "failed" else None).

(** The schedule that leaves every map in the order of [map_to_list]. *)
Definition any_order : Schedule := mkSchedule [] [] (λ _, []).

(** A bus with two broadcast handlers (the first one fails) and two
    groups, of two handlers and of one, on one wildcard pattern. *)
Definition bus_example : @MemoryBus unit string (list nat) :=
  let b := NewMemoryBus in
  let b := (Subscribe b "app.*.created" (Some (log_handler 1 true))).1 in
  let b := (Subscribe b "app.*.created" (Some (log_handler 2 false))).1 in
  let b := (SubscribeWithHandlerGroup b "app.*.created" "workers"
              (Some (log_handler 3 false))).1 in
  let b := (SubscribeWithHandlerGroup b "app.*.created" "workers"
              (Some (log_handler 4 false))).1 in
  (SubscribeWithHandlerGroup b "app.*.created" "audit"
     (Some (log_handler 5 false))).1.

(** A bus on which the first of two broadcast handlers fails, and on
    which the only handler of the group "a" fails while that of the
    group "b" does not. *)
Definition bus_failing : @MemoryBus unit string (list nat) :=
  let b := NewMemoryBus in
  let b := (Subscribe b "test.error" (Some (log_handler 1 true))).1 in
  let b := (Subscribe b "test.error" (Some (log_handler 2 false))).1 in
  let b := (SubscribeWithHandlerGroup b "test.group" "a"
              (Some (log_handler 3 true))).1 in
  (SubscribeWithHandlerGroup b "test.group" "b"
     (Some (log_handler 4 false))).1.

(** The schedule that takes the groups "a" and "b" in this order. *)
Definition a_then_b : Schedule := mkSchedule [] [] (λ _, ["a"; "b"]).

(** Three publishes that the pattern of the example bus matches. *)
Definition requests_example : list (Schedule * string * option string) :=
  [(any_order, "app.user.created", Some "e1");
   (any_order, "app.order.created", Some "e2");
   (any_order, "app.user.created", Some "e3")].

(** ** More about the states of the bus *)
Section BusStates.

Context {Ctx Event World : Type}.

(** What the validation of the two registrations keeps true of the
    registries: no pattern and no group name is empty, no slice is
    empty, and a pattern in [groups] has at least one group. *)
Definition registries_sound (b : @MemoryBus Ctx Event World) : Prop :=
  (∀ p hs, handlers b !! p = Some hs → p ≠ "" ∧ hs ≠ [])
  ∧ (∀ p gm, groups b !! p = Some gm → p ≠ "" ∧ gm ≠ ∅)
  ∧ (∀ p gm g hs, groups b !! p = Some gm → gm !! g = Some hs →
       g ≠ "" ∧ hs ≠ []).

(** The calls of the broadcast pass and those of the group pass. *)
Definition is_broadcast_call (c : @Call Ctx Event World) : Prop :=
  call_group c = None.

Definition is_group_call (c : @Call Ctx Event World) : Prop :=
  call_group c ≠ None.

End BusStates.


Section BusCalls.

Context {Ctx Event World : Type}.

(** The call [c] is to a handler that the bus holds, at the place that
    the call names. *)
Definition registered (b : @MemoryBus Ctx Event World)
    (c : @Call Ctx Event World) : Prop :=
  match call_group c with
  | None =>
      ∃ hs, handlers b !! call_pattern c = Some hs
            ∧ hs !! call_index c = Some (call_handler c)
  | Some g =>
      ∃ gm hs, groups b !! call_pattern c = Some gm ∧ gm !! g = Some hs
               ∧ hs !! call_index c = Some (call_handler c)
  end.

End BusCalls.

(** ** Patterns with one star *)

(** A string without the characters that [filepath.Match] reads as
    operators: star, question mark, opening bracket and backslash. *)
Fixpoint literal (x : string) : bool :=
  match x with
  | EmptyString => true
  | String c x' =>
      negb (byte_eqb c "*") && negb (byte_eqb c "?") && negb (byte_eqb c "[")
      && negb (byte_eqb c "\") && literal x'
  end.

(** [t] is a non-empty run of characters other than '/' followed by
    [y]. *)
Fixpoint run_then (y t : string) : bool :=
  match t with
  | EmptyString => false
  | String c t' =>
      negb (byte_eqb c filepath.Separator) && (String.eqb t' y || run_then y t')
  end.


(** ** The older bus

    The registration functions of the older [memory.go], next to its
    [Publish]: they refuse nothing.  The handler is taken as a
    function, that is, not nil. *)
Section Part002.

Context {Ctx Event World : Type}.

(** [Subscribe] subscribes to events (broadcast mode). *)
Definition Subscribe_part002 (b : @MemoryBus Ctx Event World) (subject : string)
    (handler : @EventHandler Ctx Event World) : @MemoryBus Ctx Event World * error :=
  ({| handlers := <[subject := (default [] (handlers b !! subject) ++ [handler])%list]> (handlers b);
      groups := groups b;
      groupIndex := groupIndex b |}, nil_error).

(** [SubscribeWithHandlerGroup] subscribes to events (handler group
    mode). *)
Definition SubscribeWithHandlerGroup_part002 (b : @MemoryBus Ctx Event World)
    (subject group : string) (handler : @EventHandler Ctx Event World)
    : @MemoryBus Ctx Event World * error :=
  let groups1 :=
    match groups b !! subject with
    | None => <[subject := ∅]> (groups b)
    | Some _ => groups b
    end in
  let groupIndex1 :=
    match groupIndex b !! subject with
    | None => <[subject := ∅]> (groupIndex b)
    | Some _ => groupIndex b
    end in
  let inner := default ∅ (groups1 !! subject) in
  ({| handlers := handlers b;
      groups := <[subject := <[group := (default [] (inner !! group) ++ [handler])%list]> inner]> groups1;
      groupIndex := groupIndex1 |}, nil_error).

(** [Close] closes the event bus. *)
Definition Close_part002 (b : @MemoryBus Ctx Event World)
    : @MemoryBus Ctx Event World * error :=
  ({| handlers := ∅; groups := ∅; groupIndex := ∅ |}, nil_error).

(** The states that the older operations lead to from a new bus, with
    the number of publishes made on the way. *)
Inductive reachable_part002 : Z → @MemoryBus Ctx Event World → Prop :=
| reach002_new : reachable_part002 0 NewMemoryBus
| reach002_Subscribe n b subject handler :
    reachable_part002 n b →
    reachable_part002 n (Subscribe_part002 b subject handler).1
| reach002_SubscribeWithHandlerGroup n b subject group handler :
    reachable_part002 n b →
    reachable_part002 n (SubscribeWithHandlerGroup_part002 b subject group handler).1
| reach002_Close n b :
    reachable_part002 n b → reachable_part002 n (Close_part002 b).1
| reach002_Publish n b sch ctx subject event w b' w' calls err :
    reachable_part002 n b →
    Publish_part002 sch b ctx subject event w = Returned b' w' calls err →
    reachable_part002 (n + 1) b'.

(** *** What the older [Publish] is expected to do *)

(** The calls of the older [Publish] when no handler fails: the
    handlers registered under the subject itself, then one handler of
    each of its groups. *)
Definition plan_part002 (sch : Schedule) (b : @MemoryBus Ctx Event World)
    (subject : string) : list (@Call Ctx Event World) :=
  (broadcast_calls subject 0 (default [] (handlers b !! subject))
   ++ flat_map (selected (groupIndex b) subject)
               (range_by (order_group sch subject)
                         (default ∅ (groups b !! subject))))%list.

(** What the call [c] returns in the world that the calls [pre] have
    left. *)
Definition returns (ctx : Ctx) (event : option Event) (w : World)
    (pre : list (@Call Ctx Event World)) (c : @Call Ctx Event World) : error :=
  (call_handler c ctx event (run_calls pre ctx event w)).2.

(** The calls of a list up to the first one that fails, with that call
    and its error. *)
Fixpoint stop_at_error (calls : list (@Call Ctx Event World)) (ctx : Ctx)
    (event : option Event) (w : World)
    : list (@Call Ctx Event World) * option (@Call Ctx Event World * string) :=
  match calls with
  | [] => ([], None)
  | c :: calls' =>
      match call_handler c ctx event w with
      | (_, Some msg) => ([c], Some (c, msg))
      | (w', None) =>
          let '(made, failure) := stop_at_error calls' ctx event w' in
          (c :: made, failure)
      end
  end.

(** The error that the older [Publish] makes of the error of a
    handler. *)
Definition wrapped (c : @Call Ctx Event World) (msg : string) : string :=
  match call_group c with
  | None => "handler error: " ++ msg
  | Some _ => "group handler error: " ++ msg
  end.

(** The error returned by the older [Publish] for the first failure,
    if there is one. *)
Definition failure_error (failure : option (@Call Ctx Event World * string))
    : error :=
  match failure with
  | None => nil_error
  | Some (c, msg) => Errorf (wrapped c msg)
  end.

(** Of the patterns registered on the bus, only the subject itself
    matches the subject. *)
Definition exact_only (b : @MemoryBus Ctx Event World) (subject : string) : bool :=
  forallb (λ p, Bool.eqb (matchSubject p subject) (String.eqb p subject))
          ((map_to_list (handlers b)).*1 ++ (map_to_list (groups b)).*1)%list.

End Part002.

(** ** More examples *)

(** A bus with one broadcast handler and a group of two on one plain
    subject; no handler fails. *)
Definition bus_plain : @MemoryBus unit string (list nat) :=
  let b := NewMemoryBus in
  let b := (Subscribe b "orders.created" (Some (log_handler 1 false))).1 in
  let b := (SubscribeWithHandlerGroup b "orders.created" "workers"
              (Some (log_handler 2 false))).1 in
  (SubscribeWithHandlerGroup b "orders.created" "workers"
     (Some (log_handler 3 false))).1.

(** A bus made by the older operations, with a handler under the empty
    subject and a group with the empty name. *)
Definition bus_older : @MemoryBus unit string (list nat) :=
  let b := NewMemoryBus in
  let b := (Subscribe_part002 b "orders.created" (log_handler 1 false)).1 in
  let b := (Subscribe_part002 b "" (log_handler 2 true)).1 in
  (SubscribeWithHandlerGroup_part002 b "" "" (log_handler 3 false)).1.

(** The schedule that takes the groups "workers" and "audit" in this
    order. *)
Definition workers_first : Schedule :=
  mkSchedule [] [] (λ _, ["workers"; "audit"]).



(** * The mock connection

    A shallow embedding of [transport/nats/mock_nats.go]: [MockConn]
    with its subscriptions, and [MockNATSBus].

    Every method of [MockConn] runs under the mutex of the connection
    and is one step here.  The goroutine that [Subscribe] starts is cut
    at the places where the others can run in between: before a
    receive, after it, and after the test of [sub.closed]; the
    goroutine that [Drain] starts has one step, its [Close].  What a
    handler does is left open; the calls [handler(msg)] are recorded. *)
Module mock_nats.

(** [nats.ErrConnectionClosed] *)
Definition ErrConnectionClosed : error := Some "nats: connection closed".

(** The fields of [nats.Msg] that the mock fills in. *)
Record Msg : Type := mkMsg {
  msg_Subject : string;
  msg_Data : list Byte.byte
}.

(** A channel with a buffer, [make(chan *nats.Msg, n)]. *)
Record Chan : Type := mkChan {
  chan_buf : list Msg;
  chan_cap : nat;
  chan_closed : bool
}.

Definition make_chan (n : nat) : Chan :=
  {| chan_buf := []; chan_cap := n; chan_closed := false |}.

(** [select { case ch <- msg: default: }].  A send on a closed channel
    panics ([None]).  The send goes through when the buffer has room (a
    receiver that waits on an empty buffer takes the message from the
    buffer at its next step); otherwise the message is dropped. *)
Definition try_send (ch : Chan) (msg : Msg) : option Chan :=
  if chan_closed ch then None
  else if (List.length (chan_buf ch) <? chan_cap ch)%nat
  then Some {| chan_buf := (chan_buf ch ++ [msg])%list; chan_cap := chan_cap ch;
               chan_closed := false |}
  else Some ch.

(** [close(ch)]: a panic ([None]) on a channel that is closed. *)
Definition shut (ch : Chan) : Chan :=
  {| chan_buf := chan_buf ch; chan_cap := chan_cap ch; chan_closed := true |}.

Definition close_chan (ch : Chan) : option Chan :=
  if chan_closed ch then None else Some (shut ch).

(** [for _, ch := range c.msgChan { close(ch) }]; the order of the
    loop does not show in the result. *)
Definition close_all (chans : gmap string Chan) : option (gmap string Chan) :=
  for_each (λ (entry : string * Chan) (acc : gmap string Chan),
              match close_chan entry.2 with
              | Some ch => Some (<[entry.1 := ch]> acc)
              | None => None
              end)
           (map_to_list chans) chans.

(** Where the goroutine of a subscription stands: at the receive of
    [for msg := range ch], with a message before the test of
    [sub.closed], with a message before [handler(msg)], or at its
    end. *)
Inductive Routine : Type :=
| Receiving
| Received (msg : Msg)
| Calling (msg : Msg)
| Finished.

Section MockConn.

(** [nats.MsgHandler] *)
Context {MsgHandler : Type}.

(** [MockSub]; its field [conn] is the connection that holds it. *)
Record MockSub : Type := mkMockSub {
  sub_subject : string;
  sub_handler : MsgHandler;
  sub_closed : bool
}.

Definition mark_closed (sub : MockSub) : MockSub :=
  {| sub_subject := sub_subject sub; sub_handler := sub_handler sub;
     sub_closed := true |}.

(** [MockConn].  A subscription is known by its place in [subs], a
    channel by its subject.  The last three fields are not in the
    struct: the goroutines of the subscriptions (the one at place [i]
    belongs to the subscription at place [i]), the number of goroutines
    started by [Drain] that have not run yet, and the calls
    [handler(msg)] made so far, with the place of the subscription. *)
Record MockConn : Type := mkMockConn {
  closed : bool;
  drained : bool;
  subs : list MockSub;
  msgChan : gmap string Chan;
  routines : list Routine;
  closers : nat;
  handled : list (nat * Msg)
}.

Definition NewMockConn : MockConn :=
  {| closed := false; drained := false; subs := []; msgChan := ∅;
     routines := []; closers := 0; handled := [] |}.

Definition IsClosed (c : MockConn) : bool := closed c.

Definition IsDrained (c : MockConn) : bool := drained c.

(** [Close]; [None] is a panic. *)
Definition Close (c : MockConn) : option MockConn :=
  if closed c then Some c
  else
    match close_all (msgChan c) with
    | None => None
    | Some chans =>
        Some {| closed := true; drained := drained c;
                subs := mark_closed <$> subs c;
                msgChan := chans;
                routines := routines c; closers := closers c;
                handled := handled c |}
    end.

(** [Drain]: the goroutine that it starts is one more closer. *)
Definition Drain (c : MockConn) : MockConn * error :=
  if closed c then (c, ErrConnectionClosed)
  else
    ({| closed := closed c; drained := true; subs := subs c;
        msgChan := msgChan c; routines := routines c;
        closers := S (closers c); handled := handled c |}, nil_error).

(** [Publish]; [None] is a panic. *)
Definition Publish (subject : string) (data : list Byte.byte) (c : MockConn)
    : option (MockConn * error) :=
  if closed c then Some (c, ErrConnectionClosed)
  else
    match msgChan c !! subject with
    | None => Some (c, nil_error)
    | Some ch =>
        let msg := {| msg_Subject := subject; msg_Data := data |} in
        match try_send ch msg with
        | None => None
        | Some ch' =>
            Some ({| closed := closed c; drained := drained c; subs := subs c;
                     msgChan := <[subject := ch']> (msgChan c);
                     routines := routines c; closers := closers c;
                     handled := handled c |}, nil_error)
        end
    end.

(** [Subscribe]: the subscription returned is the place of the new
    entry of [subs]. *)
Definition Subscribe (subject : string) (handler : MsgHandler) (c : MockConn)
    : MockConn * option nat * error :=
  if closed c then (c, None, ErrConnectionClosed)
  else
    let chans :=
      match msgChan c !! subject with
      | Some _ => msgChan c
      | None => <[subject := make_chan 100]> (msgChan c)
      end in
    let sub := {| sub_subject := subject; sub_handler := handler;
                  sub_closed := false |} in
    ({| closed := closed c; drained := drained c;
        subs := (subs c ++ [sub])%list;
        msgChan := chans;
        routines := (routines c ++ [Receiving])%list;
        closers := closers c; handled := handled c |},
     Some (List.length (subs c)), nil_error).

Definition QueueSubscribe (subject queue : string) (handler : MsgHandler)
    (c : MockConn) : MockConn * option nat * error :=
  Subscribe subject handler c.

(** [Unsubscribe] of the subscription at place [i]; there is no call
    for a place that holds no subscription. *)
Definition Unsubscribe (i : nat) (c : MockConn) : MockConn * error :=
  match subs c !! i with
  | None => (c, nil_error)
  | Some sub =>
      if sub_closed sub then (c, nil_error)
      else
        ({| closed := closed c; drained := drained c;
            subs := <[i := mark_closed sub]> (subs c);
            msgChan := msgChan c; routines := routines c;
            closers := closers c; handled := handled c |}, nil_error)
  end.

Definition set_routine (i : nat) (r : Routine) (c : MockConn) : MockConn :=
  {| closed := closed c; drained := drained c; subs := subs c;
     msgChan := msgChan c; routines := <[i := r]> (routines c);
     closers := closers c; handled := handled c |}.

(** One step of the goroutine of the subscription at place [i].  A
    goroutine that waits for a message, and one that is at its end,
    leave the connection as it is. *)
Definition routine_step (i : nat) (c : MockConn) : MockConn :=
  match subs c !! i, routines c !! i with
  | Some sub, Some Receiving =>
      match msgChan c !! sub_subject sub with
      | Some ch =>
          match chan_buf ch with
          | msg :: rest =>
              let ch' := {| chan_buf := rest; chan_cap := chan_cap ch;
                            chan_closed := chan_closed ch |} in
              {| closed := closed c; drained := drained c; subs := subs c;
                 msgChan := <[sub_subject sub := ch']> (msgChan c);
                 routines := <[i := Received msg]> (routines c);
                 closers := closers c; handled := handled c |}
          | [] => if chan_closed ch then set_routine i Finished c else c
          end
      | None => c
      end
  | Some sub, Some (Received msg) =>
      if sub_closed sub then set_routine i Finished c
      else set_routine i (Calling msg) c
  | Some sub, Some (Calling msg) =>
      {| closed := closed c; drained := drained c; subs := subs c;
         msgChan := msgChan c; routines := <[i := Receiving]> (routines c);
         closers := closers c; handled := (handled c ++ [(i, msg)])%list |}
  | _, _ => c
  end.

(** The step of a goroutine started by [Drain]: its [Close]. *)
Definition closer_step (c : MockConn) : option MockConn :=
  match closers c with
  | O => Some c
  | S n =>
      match Close c with
      | Some c' =>
          Some {| closed := closed c'; drained := drained c'; subs := subs c';
                  msgChan := msgChan c'; routines := routines c';
                  closers := n; handled := handled c' |}
      | None => None
      end
  end.

(** What can happen to a connection: a call of one of its methods, or
    a step of one of its goroutines. *)
Inductive Op : Type :=
| CallClose
| CallDrain
| CallPublish (subject : string) (data : list Byte.byte)
| CallSubscribe (subject : string) (handler : MsgHandler)
| CallQueueSubscribe (subject queue : string) (handler : MsgHandler)
| CallUnsubscribe (i : nat)
| StepRoutine (i : nat)
| StepCloser.

(** [None] is a panic. *)
Definition step (op : Op) (c : MockConn) : option MockConn :=
  match op with
  | CallClose => Close c
  | CallDrain => Some (Drain c).1
  | CallPublish subject data => fst <$> Publish subject data c
  | CallSubscribe subject handler => Some (Subscribe subject handler c).1.1
  | CallQueueSubscribe subject queue handler =>
      Some (QueueSubscribe subject queue handler c).1.1
  | CallUnsubscribe i => Some (Unsubscribe i c).1
  | StepRoutine i => Some (routine_step i c)
  | StepCloser => closer_step c
  end.

Definition run (ops : list Op) (c : MockConn) : option MockConn :=
  for_each step ops c.

(** *** Counting messages *)

(** The message that a goroutine holds. *)
Definition held (r : Routine) : option Msg :=
  match r with
  | Received msg | Calling msg => Some msg
  | Receiving | Finished => None
  end.

Definition for_subject (subject : string) (msg : Msg) : nat :=
  if decide (msg_Subject msg = subject) then 1 else 0.

(** The messages of a subject in the buffer of its channel, in the
    hands of the goroutines, and handed to handlers. *)
Definition in_chan (subject : string) (c : MockConn) : nat :=
  from_option (λ ch, List.length (chan_buf ch)) 0%nat (msgChan c !! subject).

Definition in_flight (subject : string) (c : MockConn) : nat :=
  sum_list_with (λ r, from_option (for_subject subject) 0%nat (held r))
                (routines c).

Definition handled_for (subject : string) (c : MockConn) : nat :=
  sum_list_with (λ e : nat * Msg, for_subject subject e.2) (handled c).

(** All the messages of a subject that the connection has. *)
Definition accounted (subject : string) (c : MockConn) : nat :=
  (handled_for subject c + in_flight subject c + in_chan subject c)%nat.

(** The calls of [Publish] to a subject among the operations. *)
Definition published (subject : string) (ops : list Op) : nat :=
  sum_list_with (λ op, match op with
                       | CallPublish s _ => if decide (s = subject) then 1 else 0
                       | _ => 0
                       end)%nat ops.

(** The goroutines that have passed the test of [sub.closed] and have
    not called the handler yet. *)
Definition calling (c : MockConn) : nat :=
  sum_list_with (λ r, match r with Calling _ => 1 | _ => 0 end)%nat (routines c).

(** Every message that the connection has, in a buffer, in the hands
    of a goroutine or handed to a handler, has the property [P]. *)
Definition carries (P : Msg → Prop) (c : MockConn) : Prop :=
  (∀ s ch, msgChan c !! s = Some ch → Forall P (chan_buf ch))
  ∧ Forall (λ r, ∀ msg, held r = Some msg → P msg) (routines c)
  ∧ Forall (λ e : nat * Msg, P e.2) (handled c).

(** What holds of a connection at any time. *)
Record sound (c : MockConn) : Prop := mkSound {
  sound_open :
    closed c = false → ∀ s ch, msgChan c !! s = Some ch → chan_closed ch = false;
  sound_chan :
    ∀ s ch, msgChan c !! s = Some ch →
      chan_cap ch = 100%nat ∧ (List.length (chan_buf ch) ≤ 100)%nat
      ∧ Forall (λ msg, msg_Subject msg = s) (chan_buf ch);
  sound_routines : List.length (routines c) = List.length (subs c);
  sound_subs :
    ∀ i sub, subs c !! i = Some sub → is_Some (msgChan c !! sub_subject sub);
  sound_closed :
    closed c = true → Forall (λ sub, sub_closed sub = true) (subs c);
  sound_drained : drained c = true → closed c = true ∨ (0 < closers c)%nat;
  sound_held :
    ∀ i sub r msg, subs c !! i = Some sub → routines c !! i = Some r →
      held r = Some msg → msg_Subject msg = sub_subject sub;
  sound_handled :
    Forall (λ e : nat * Msg, ∃ sub, subs c !! e.1 = Some sub
                                    ∧ sub_subject sub = msg_Subject e.2)
           (handled c)
}.

End MockConn.

(** ** [MockNATSBus] *)
Module MockNATSBus.
Section MockNATSBus.

Context {MsgHandler Ctx Event Handler : Type}.

Record MockNATSBus : Type := mkMockNATSBus {
  conn : @MockConn MsgHandler
}.

Definition NewMockNATSBus : MockNATSBus := {| conn := NewMockConn |}.

Definition Publish (b : MockNATSBus) (ctx : Ctx) (subject : string)
    (event : option Event) : MockNATSBus * error :=
  (b, nil_error).

Definition Subscribe (b : MockNATSBus) (ctx : Ctx) (subject : string)
    (handler : Handler) : MockNATSBus * error :=
  (b, nil_error).

Definition SubscribeWithHandlerGroup (b : MockNATSBus) (ctx : Ctx)
    (subject group : string) (handler : Handler) : MockNATSBus * error :=
  (b, nil_error).

(** [None] is a panic. *)
Definition Close (b : MockNATSBus) (ctx : Ctx) : option (MockNATSBus * error) :=
  match mock_nats.Close (conn b) with
  | Some c => Some ({| conn := c |}, nil_error)
  | None => None
  end.

Definition Drain (b : MockNATSBus) (ctx : Ctx) : MockNATSBus * error :=
  let '(c, err) := mock_nats.Drain (conn b) in ({| conn := c |}, err).

(** A call of a method of the bus, or the step of a goroutine started
    by a [Drain]. *)
Inductive BusOp : Type :=
| BusPublish (ctx : Ctx) (subject : string) (event : option Event)
| BusSubscribe (ctx : Ctx) (subject : string) (handler : Handler)
| BusSubscribeWithHandlerGroup (ctx : Ctx) (subject group : string)
    (handler : Handler)
| BusClose (ctx : Ctx)
| BusDrain (ctx : Ctx)
| BusStepCloser.

Definition bus_step (op : BusOp) (b : MockNATSBus) : option MockNATSBus :=
  match op with
  | BusPublish ctx subject event => Some (Publish b ctx subject event).1
  | BusSubscribe ctx subject handler => Some (Subscribe b ctx subject handler).1
  | BusSubscribeWithHandlerGroup ctx subject group handler =>
      Some (SubscribeWithHandlerGroup b ctx subject group handler).1
  | BusClose ctx => fst <$> Close b ctx
  | BusDrain ctx => Some (Drain b ctx).1
  | BusStepCloser => mkMockNATSBus <$> closer_step (conn b)
  end.

Definition bus_run (ops : list BusOp) (b : MockNATSBus) : option MockNATSBus :=
  for_each bus_step ops b.

End MockNATSBus.
End MockNATSBus.

End mock_nats.

(** A subscription, a message that its goroutine takes as far as the
    call of the handler, and then [Close]. *)
Definition ops_example : list (@mock_nats.Op nat) :=
  [mock_nats.CallSubscribe "orders" 7%nat;
   mock_nats.CallPublish "orders" [];
   mock_nats.StepRoutine 0;
   mock_nats.StepRoutine 0;
   mock_nats.CallClose].

(** * Properties *)

Local Open Scope list_scope.
Section range_by_facts.
Context {V : Type}.
Implicit Types (m : gmap string V) (ks : list string).

Lemma pick_Some m k kv : pick m k = Some kv ↔ kv.1 = k ∧ m !! k = Some kv.2.
Proof.
  unfold pick. destruct kv as [k' v]; simpl. destruct (m !! k) as [v'|]; simpl.
  - split; [intros [= -> ->]; done | intros [-> [= ->]]; done].
  - split; [done | intros [_ ?]; done].
Qed.

Lemma omap_pick_fst_sublist m ks : (omap (pick m) ks).*1 `sublist_of` ks.
Proof.
  induction ks as [|k ks IH]; simpl; [constructor|].
  destruct (pick m k) as [kv|] eqn:E; simpl.
  - apply pick_Some in E as [-> _]. by constructor.
  - by constructor.
Qed.

Lemma elem_of_range_by ks m k v : (k, v) ∈ range_by ks m ↔ m !! k = Some v.
Proof.
  unfold range_by. rewrite elem_of_app, list_elem_of_omap, list_elem_of_filter,
    elem_of_map_to_list.
  split.
  - intros [(k' & _ & E)|[_ ?]]; [|done].
    apply pick_Some in E as [<- ?]. done.
  - intros Hk. destruct (decide (k ∈ ks)) as [Hin|Hout].
    + left. exists k. rewrite elem_of_remove_dups. split; [done|].
      unfold pick. by rewrite Hk.
    + right. done.
Qed.

Lemma NoDup_fst_range_by ks m : NoDup (range_by ks m).*1.
Proof.
  unfold range_by. rewrite fmap_app. apply NoDup_app. split_and!.
  - eapply sublist_NoDup; [apply (NoDup_remove_dups ks)|].
    apply omap_pick_fst_sublist.
  - intros k Hk Hk'.
    apply list_elem_of_fmap in Hk as ([k1 v1] & -> & Hk).
    apply list_elem_of_omap in Hk as (k2 & Hk2 & E).
    apply pick_Some in E as [E _]. simpl in *. subst k2.
    rewrite elem_of_remove_dups in Hk2.
    apply list_elem_of_fmap in Hk' as ([k3 v3] & E3 & Hk').
    apply list_elem_of_filter in Hk' as [Hn _]. simpl in *. by subst k3.
  - eapply sublist_NoDup; [apply (NoDup_fst_map_to_list m)|].
    apply fmap_sublist, sublist_filter.
Qed.

Lemma NoDup_range_by ks m : NoDup (range_by ks m).
Proof. eapply NoDup_fmap_1, NoDup_fst_range_by. Qed.

(** Whatever the choice, the loop visits every entry once. *)
Lemma range_by_Permutation ks m : range_by ks m ≡ₚ map_to_list m.
Proof.
  apply NoDup_Permutation; [apply NoDup_range_by | apply NoDup_map_to_list |].
  intros [k v]. by rewrite elem_of_range_by, elem_of_map_to_list.
Qed.

Lemma remove_dups_NoDup (l : list string) : NoDup l → remove_dups l = l.
Proof.
  induction 1 as [|k l Hk _ IH]; simpl; [done|].
  destruct (decide_rel (∈) k l); [done|]. by rewrite IH.
Qed.

(** Every order of the entries is the choice of some list of keys. *)
Lemma range_by_complete l m : l ≡ₚ map_to_list m → range_by l.*1 m = l.
Proof.
  intros Hl. unfold range_by.
  assert (Hnd : NoDup l.*1).
  { rewrite Hl. apply NoDup_fst_map_to_list. }
  assert (Hin : ∀ k v, (k, v) ∈ l → m !! k = Some v).
  { intros k v. rewrite Hl. apply elem_of_map_to_list. }
  assert (Hall : ∀ kv, kv ∈ map_to_list m → kv.1 ∈ l.*1).
  { intros kv. rewrite <- Hl. intros ?. apply list_elem_of_fmap. by exists kv. }
  rewrite remove_dups_NoDup by done.
  replace (filter (λ kv, kv.1 ∉ l.*1) (map_to_list m)) with (@nil (string * V)).
  - rewrite app_nil_r. clear Hnd Hl Hall.
    induction l as [|[k v] l IH]; simpl; [done|].
    unfold pick at 1. rewrite (Hin k v) by left. simpl. f_equal.
    apply IH. intros ???. apply Hin. by right.
  - symmetry. apply elem_of_nil_inv. intros kv [Hn Hkv]%list_elem_of_filter.
    by apply Hn, Hall.
Qed.
End range_by_facts.

Lemma wrap_int_small z : - 2 ^ 63 ≤ z < 2 ^ 63 → wrap_int z = z.
Proof. intros Hz. unfold wrap_int. rewrite Z.mod_small by lia. lia. Qed.

Lemma slice_index_Some {A : Type} (l : list A) (i : Z) :
  0 ≤ i < Z.of_nat (List.length l) → slice_index l i = l !! Z.to_nat i ∧ is_Some (l !! Z.to_nat i).
Proof.
  intros Hi. unfold slice_index.
  replace ((0 <=? i) && (i <? Z.of_nat (List.length l))) with true
    by (symmetry; apply andb_true_iff; split; [apply Z.leb_le | apply Z.ltb_lt]; lia).
  split; [done|]. apply lookup_lt_is_Some. lia.
Qed.

Section for_each_facts.
Context {A S : Type}.

Lemma for_each_app (body : A → S → option S) l1 l2 st :
  for_each body (l1 ++ l2) st =
  match for_each body l1 st with
  | Some st' => for_each body l2 st'
  | None => None
  end.
Proof.
  revert st. induction l1 as [|x l1 IH]; intros st; simpl; [done|].
  destruct (body x st); [apply IH | done].
Qed.
End for_each_facts.

(** ** Cursors *)
Section cursor_facts.
Implicit Types idx : gmap string (gmap string Z).

Lemma cursor_incr_ready idx p g : is_Some (idx !! p) → is_Some (cursor_incr idx p g).
Proof. intros [inner E]. unfold cursor_incr. rewrite E. eauto. Qed.

Lemma cursor_incr_same idx idx' p g :
  cursor_incr idx p g = Some idx' → cursor idx' p g = wrap_int (cursor idx p g + 1).
Proof.
  unfold cursor_incr, cursor. destruct (idx !! p) as [inner|] eqn:E; [|done].
  intros [= <-]. rewrite lookup_insert_eq. simpl. by rewrite lookup_insert_eq.
Qed.

Lemma cursor_incr_other idx idx' p g p' g' :
  cursor_incr idx p g = Some idx' → (p', g') ≠ (p, g) →
  cursor idx' p' g' = cursor idx p' g'.
Proof.
  unfold cursor_incr, cursor. destruct (idx !! p) as [inner|] eqn:E; [|done].
  intros [= <-] Hne. destruct (decide (p' = p)) as [->|Hp].
  - rewrite lookup_insert_eq, E. simpl. rewrite lookup_insert_ne; [done|congruence].
  - by rewrite lookup_insert_ne.
Qed.

Lemma cursor_incr_dom idx idx' p g p' :
  cursor_incr idx p g = Some idx' → is_Some (idx' !! p') ↔ is_Some (idx !! p').
Proof.
  unfold cursor_incr. destruct (idx !! p) as [inner|] eqn:E; [|done].
  intros [= <-]. destruct (decide (p' = p)) as [->|Hp].
  - rewrite lookup_insert_eq, E. split; eauto.
  - by rewrite lookup_insert_ne.
Qed.
End cursor_facts.

(** ** The loops of [Publish] *)
Section dispatch_facts.
Context {Ctx Event World : Type}.
Local Abbreviation EventHandler := (@EventHandler Ctx Event World).
Local Abbreviation MemoryBus := (@MemoryBus Ctx Event World).
Local Abbreviation Call := (@Call Ctx Event World).
Local Abbreviation Dispatch := (@Dispatch Ctx Event World).
Implicit Types (b : MemoryBus) (st : Dispatch) (idx : gmap string (gmap string Z)).
Implicit Types (hs : list EventHandler) (calls : list Call).
Implicit Types gm : gmap string (list EventHandler).
Variables (ctx : Ctx) (event : option Event).

Local Abbreviation after := (after ctx event).

Lemma after_nil st : after st [] (d_index st) = st.
Proof. destruct st. unfold after. simpl. by rewrite app_nil_r. Qed.

Lemma after_after st calls1 calls2 idx1 idx2 :
  after (after st calls1 idx1) calls2 idx2 = after st (calls1 ++ calls2) idx2.
Proof.
  unfold after, run_calls. simpl. by rewrite foldl_app, app_assoc.
Qed.

Lemma invoke_after c st :
  (invoke c ctx event st).1 = after st [c] (d_index st).
Proof.
  unfold invoke, after, run_calls. simpl.
  by destruct (call_handler c ctx event (d_world st)).
Qed.

Lemma call_all_after p i hs st :
  call_all p i hs ctx event st = after st (broadcast_calls p i hs) (d_index st).
Proof.
  revert i st. induction hs as [|h hs IH]; intros i st; simpl.
  - by rewrite after_nil.
  - rewrite IH, invoke_after, after_after. done.
Qed.

Lemma broadcast_loop subject (l : list (string * list EventHandler)) st :
  for_each (broadcast_body subject ctx event) l st =
  Some (after st (flat_map (broadcast_plan subject) l) (d_index st)).
Proof.
  revert st. induction l as [|[p hs] l IH]; intros st; simpl.
  - by rewrite after_nil.
  - unfold broadcast_plan at 1. simpl. destruct (matchSubject p subject).
    + rewrite IH, call_all_after, after_after. done.
    + rewrite IH. done.
Qed.

Lemma selected_ext idx idx' p g hs :
  cursor idx' p g = cursor idx p g → selected idx' p (g, hs) = selected idx p (g, hs).
Proof. unfold selected. by intros ->. Qed.

Lemma selected_nil idx p g : selected idx p (g, @nil EventHandler) = [].
Proof. done. Qed.

(** One group: the handler under the cursor is called and the cursor
    moves on by one; a group without handlers is passed over. *)
Lemma group_body_run p g hs st :
  is_Some (d_index st !! p) →
  0 ≤ cursor (d_index st) p g < max_int →
  ∃ idx',
    group_body p ctx event (g, hs) st
      = Some (after st (selected (d_index st) p (g, hs)) idx')
    ∧ cursor idx' p g
      = cursor (d_index st) p g + (if (List.length hs =? 0)%nat then 0 else 1)
    ∧ (∀ p' g', (p', g') ≠ (p, g) → cursor idx' p' g' = cursor (d_index st) p' g')
    ∧ (∀ p', is_Some (idx' !! p') ↔ is_Some (d_index st !! p')).
Proof.
  intros Hready Hc. unfold group_body.
  destruct (List.length hs =? 0)%nat eqn:Hlen.
  - exists (d_index st). apply Nat.eqb_eq in Hlen.
    destruct hs; [|done]. rewrite selected_nil, after_nil.
    split_and!; [done|lia|done|done].
  - apply Nat.eqb_neq in Hlen.
    set (n := Z.of_nat (List.length hs)).
    set (i := Z.rem (cursor (d_index st) p g) n).
    assert (Hi : 0 ≤ i < n) by (apply Z.rem_bound_pos; lia).
    destruct (slice_index_Some hs i Hi) as [-> [h Hh]]. rewrite Hh.
    destruct (cursor_incr_ready (d_index st) p g Hready) as [idx' Hidx].
    rewrite Hidx. exists idx'. split_and!.
    + f_equal. rewrite invoke_after. unfold selected. fold n i. rewrite Hh.
      done.
    + rewrite (cursor_incr_same _ _ _ _ Hidx). apply wrap_int_small.
      unfold max_int in Hc. lia.
    + intros p' g' Hne. by apply (cursor_incr_other _ _ _ _ _ _ Hidx).
    + intros p'. by apply (cursor_incr_dom _ _ _ _ _ Hidx).
Qed.

(** The groups of one pattern, in any order. *)
Lemma group_loop p (l : list (string * list EventHandler)) st :
  NoDup l.*1 →
  is_Some (d_index st !! p) →
  (∀ g hs, (g, hs) ∈ l → 0 ≤ cursor (d_index st) p g < max_int) →
  ∃ idx',
    for_each (group_body p ctx event) l st
      = Some (after st (flat_map (selected (d_index st) p) l) idx')
    ∧ (∀ g hs, (g, hs) ∈ l →
         cursor idx' p g
         = cursor (d_index st) p g + (if (List.length hs =? 0)%nat then 0 else 1))
    ∧ (∀ p' g', p' ≠ p ∨ g' ∉ l.*1 → cursor idx' p' g' = cursor (d_index st) p' g')
    ∧ (∀ p', is_Some (idx' !! p') ↔ is_Some (d_index st !! p')).
Proof.
  revert st. induction l as [|[g hs] l IH]; intros st Hnd Hready Hc.
  - exists (d_index st). simpl. rewrite after_nil.
    split_and!; [done| |done|done]. intros ?? []%elem_of_nil.
  - apply NoDup_cons in Hnd as [Hg Hnd]. simpl in Hg.
    destruct (group_body_run p g hs st Hready) as (idx1 & Hrun & Hsame & Hother & Hdom).
    { apply (Hc g hs). left. }
    assert (Hkeep : ∀ g' hs', (g', hs') ∈ l →
              cursor idx1 p g' = cursor (d_index st) p g').
    { intros g' hs' Hin. apply Hother. intros [= ->]. apply Hg.
      apply list_elem_of_fmap. by exists (g, hs'). }
    destruct (IH (after st (selected (d_index st) p (g, hs)) idx1))
      as (idx2 & Hrun2 & Hsame2 & Hother2 & Hdom2); simpl.
    { done. }
    { by apply Hdom. }
    { intros g' hs' Hin. rewrite (Hkeep g' hs' Hin). apply (Hc g' hs'). by right. }
    exists idx2. simpl in *. rewrite Hrun. split_and!.
    + rewrite Hrun2, after_after. do 3 f_equal.
      clear -Hkeep. induction l as [|[g' hs'] l IHl]; simpl; [done|].
      f_equal.
      * apply selected_ext, (Hkeep g' hs'). left.
      * apply IHl. intros g'' hs'' Hin. apply (Hkeep g'' hs''). by right.
    + intros g' hs' [[= -> ->]|Hin]%elem_of_cons.
      * rewrite Hother2, Hsame; [done|]. by right.
      * rewrite (Hsame2 g' hs' Hin). by rewrite (Hkeep g' hs' Hin).
    + intros p' g' Hout. rewrite Hother2, Hother; [done| |].
      * intros [= -> ->]. destruct Hout as [?|Hout]; [done|].
        apply Hout. left.
      * destruct Hout as [?|Hout]; [by left|right].
        intros ?. apply Hout. by right.
    + intros p'. by rewrite Hdom2, Hdom.
Qed.

Lemma groups_plan_ext sch idx idx' subject p gm :
  (∀ g, cursor idx' p g = cursor idx p g) →
  groups_plan sch idx' subject (p, gm) = groups_plan sch idx subject (p, gm).
Proof.
  intros Hc. unfold groups_plan. simpl. destruct (matchSubject p subject); [|done].
  induction (range_by (order_group sch p) gm) as [|[g hs] l IH]; simpl; [done|].
  f_equal; [|done]. apply selected_ext, Hc.
Qed.

(** One pattern with its groups. *)
Lemma groups_body_run sch subject p gm st :
  is_Some (d_index st !! p) →
  (∀ g, 0 ≤ cursor (d_index st) p g < max_int) →
  ∃ idx',
    groups_body sch subject ctx event (p, gm) st
      = Some (after st (groups_plan sch (d_index st) subject (p, gm)) idx')
    ∧ (∀ g, cursor idx' p g = cursor (d_index st) p g + cursor_step subject p gm g)
    ∧ (∀ p' g', p' ≠ p → cursor idx' p' g' = cursor (d_index st) p' g')
    ∧ (∀ p', is_Some (idx' !! p') ↔ is_Some (d_index st !! p')).
Proof.
  intros Hready Hc. unfold groups_body, groups_plan, cursor_step. simpl.
  destruct (matchSubject p subject); simpl.
  - destruct (group_loop p (range_by (order_group sch p) gm) st)
      as (idx' & Hrun & Hsame & Hother & Hdom).
    { apply NoDup_fst_range_by. }
    { done. }
    { intros; apply Hc. }
    exists idx'. split_and!; [done| |by auto|done].
    intros g. destruct (gm !! g) as [hs|] eqn:Hg; simpl.
    + rewrite (Hsame g hs) by (by apply elem_of_range_by).
      by destruct (List.length hs =? 0)%nat.
    + rewrite Hother; [lia|]. right. intros Hin.
      apply list_elem_of_fmap in Hin as ([g' hs] & -> & Hin).
      apply elem_of_range_by in Hin. simpl in Hg. congruence.
  - exists (d_index st). rewrite after_nil. split_and!; [done|intros; lia|done|done].
Qed.

(** All the patterns of [b.groups], in any order. *)
Lemma groups_loop sch subject (l : list (string * gmap string (list EventHandler))) st :
  NoDup l.*1 →
  (∀ p gm, (p, gm) ∈ l → is_Some (d_index st !! p)) →
  (∀ p gm g, (p, gm) ∈ l → 0 ≤ cursor (d_index st) p g < max_int) →
  ∃ idx',
    for_each (groups_body sch subject ctx event) l st
      = Some (after st (flat_map (groups_plan sch (d_index st) subject) l) idx')
    ∧ (∀ p gm g, (p, gm) ∈ l →
         cursor idx' p g = cursor (d_index st) p g + cursor_step subject p gm g)
    ∧ (∀ p g, p ∉ l.*1 → cursor idx' p g = cursor (d_index st) p g)
    ∧ (∀ p, is_Some (idx' !! p) ↔ is_Some (d_index st !! p)).
Proof.
  revert st. induction l as [|[p gm] l IH]; intros st Hnd Hready Hc.
  - exists (d_index st). simpl. rewrite after_nil.
    split_and!; [done| |done|done]. intros ??? []%elem_of_nil.
  - apply NoDup_cons in Hnd as [Hp Hnd]. simpl in Hp.
    destruct (groups_body_run sch subject p gm st)
      as (idx1 & Hrun & Hsame & Hother & Hdom).
    { apply (Hready p gm). left. }
    { intros g. apply (Hc p gm). left. }
    assert (Hkeep : ∀ p' gm' g, (p', gm') ∈ l →
              cursor idx1 p' g = cursor (d_index st) p' g).
    { intros p' gm' g Hin. apply Hother. intros ->. apply Hp.
      apply list_elem_of_fmap. by exists (p, gm'). }
    destruct (IH (after st (groups_plan sch (d_index st) subject (p, gm)) idx1))
      as (idx2 & Hrun2 & Hsame2 & Hother2 & Hdom2); simpl.
    { done. }
    { intros p' gm' Hin. apply Hdom, (Hready p' gm'). by right. }
    { intros p' gm' g Hin. rewrite (Hkeep p' gm' g Hin). apply (Hc p' gm'). by right. }
    exists idx2. simpl in *. rewrite Hrun. split_and!.
    + rewrite Hrun2, after_after. do 3 f_equal.
      clear -Hkeep. induction l as [|[p' gm'] l IHl]; simpl; [done|].
      f_equal.
      * apply groups_plan_ext. intros g. apply (Hkeep p' gm'). left.
      * apply IHl. intros p'' gm'' g Hin. apply (Hkeep p'' gm''). by right.
    + intros p' gm' g [[= -> ->]|Hin]%elem_of_cons.
      * rewrite Hother2, Hsame; done.
      * rewrite (Hsame2 p' gm' g Hin). by rewrite (Hkeep p' gm' g Hin).
    + intros p' g Hout. apply not_elem_of_cons in Hout as [Hne Hout].
      rewrite Hother2, Hother; done.
    + intros p'. by rewrite Hdom2, Hdom.
Qed.

End dispatch_facts.

(** ** States without panics, and what [Publish] does in them *)
Section publish_facts.
Context {Ctx Event World : Type}.
Local Abbreviation EventHandler := (@EventHandler Ctx Event World).
Local Abbreviation MemoryBus := (@MemoryBus Ctx Event World).
Local Abbreviation Call := (@Call Ctx Event World).
Implicit Types (b : MemoryBus) (idx : gmap string (gmap string Z)).

Lemma index_ready_spec b :
  index_ready b = true ↔
  ∀ p gm, groups b !! p = Some gm → is_Some (groupIndex b !! p).
Proof.
  unfold index_ready. rewrite forallb_forall. split.
  - intros H p gm Hp. eapply bool_decide_eq_true_1.
    apply (H (p, gm)), list_elem_of_In, elem_of_map_to_list. done.
  - intros H [p gm] Hin. apply bool_decide_eq_true_2. simpl.
    apply list_elem_of_In, elem_of_map_to_list in Hin. eauto.
Qed.

Lemma cursors_within_spec n idx :
  0 ≤ n →
  cursors_within n idx = true ↔ ∀ p g, 0 ≤ cursor idx p g ≤ n.
Proof.
  intros Hn. unfold cursors_within. rewrite forallb_forall. split.
  - intros H p g. unfold cursor.
    destruct (idx !! p) as [inner|] eqn:Hp; simpl; [|lia].
    destruct (inner !! g) as [c|] eqn:Hg; simpl; [|lia].
    specialize (H (p, inner)). simpl in H. rewrite forallb_forall in H.
    specialize (H ltac:(by apply list_elem_of_In, elem_of_map_to_list) (g, c)).
    simpl in H. lapply H; [|by apply list_elem_of_In, elem_of_map_to_list].
    intros [?%Z.leb_le ?%Z.leb_le]%andb_true_iff. lia.
  - intros H [p inner] Hin. simpl. apply forallb_forall. intros [g c] Hin'. simpl.
    apply list_elem_of_In, elem_of_map_to_list in Hin, Hin'.
    specialize (H p g). unfold cursor in H. rewrite Hin in H. simpl in H.
    rewrite Hin' in H. simpl in H.
    apply andb_true_iff. split; apply Z.leb_le; lia.
Qed.

Lemma bus_within_spec n b : bus_within n b = true ↔ 0 ≤ n ∧ bus_inv n b.
Proof.
  unfold bus_within, bus_inv. rewrite !andb_true_iff, index_ready_spec, Z.leb_le.
  split.
  - intros [[Hn ?] Hc]. split_and!; [done..|].
    by apply (cursors_within_spec n (groupIndex b) Hn).
  - intros [Hn [? Hc]]. split_and!; [done..|].
    by apply (cursors_within_spec n (groupIndex b) Hn).
Qed.

Lemma bus_ok_spec b : bus_ok b = true ↔ bus_inv (max_int - 1) b.
Proof.
  unfold bus_ok. rewrite bus_within_spec. unfold max_int. intuition lia.
Qed.

Lemma dispatched_cursor_step b subject p gm g :
  groups b !! p = Some gm →
  cursor_step subject p gm g = if dispatched b subject p g then 1 else 0.
Proof.
  intros Hp. unfold cursor_step, dispatched, group_handlers. by rewrite Hp.
Qed.

Lemma dispatched_no_pattern b subject p g :
  groups b !! p = None → dispatched b subject p g = false.
Proof.
  intros Hp. unfold dispatched, group_handlers. rewrite Hp. simpl.
  apply andb_false_r.
Qed.

(** A publish with a subject and an event, on a bus that is in order,
    returns nil after exactly the calls of the plan; the handlers'
    errors have no part in it. *)
Lemma Publish_run n sch b ctx subject e w :
  bus_inv n b → n < max_int → subject ≠ "" →
  ∃ idx',
    Publish sch b ctx subject (Some e) w
      = Returned {| handlers := handlers b; groups := groups b; groupIndex := idx' |}
                 (run_calls (dispatch_plan sch b subject) ctx (Some e) w)
                 (dispatch_plan sch b subject) nil_error
    ∧ (∀ p g, cursor idx' p g
              = cursor (groupIndex b) p g + (if dispatched b subject p g then 1 else 0))
    ∧ (∀ p, is_Some (idx' !! p) ↔ is_Some (groupIndex b !! p)).
Proof.
  intros [Hready Hc] Hn Hsubject. unfold Publish.
  rewrite decide_False by done. rewrite decide_False by done.
  rewrite broadcast_loop.
  set (st0 := {| d_index := groupIndex b; d_world := w; d_calls := [] |}).
  set (st1 := after ctx (Some e) st0 _ _).
  destruct (groups_loop ctx (Some e) sch subject
              (range_by (order_groups sch) (groups b)) st1)
    as (idx' & Hrun & Hsame & Hother & Hdom).
  { apply NoDup_fst_range_by. }
  { intros p gm Hin%elem_of_range_by. by apply (Hready p gm). }
  { intros p gm g _. specialize (Hc p g). simpl. lia. }
  rewrite Hrun. exists idx'. unfold st1. rewrite after_after. split_and!.
  - unfold after, dispatch_plan. simpl. done.
  - intros p g. simpl in *. destruct (groups b !! p) as [gm|] eqn:Hp.
    + rewrite (Hsame p gm g) by (by apply elem_of_range_by).
      by rewrite (dispatched_cursor_step b subject p gm g Hp).
    + rewrite dispatched_no_pattern by done. rewrite Hother; [lia|].
      intros Hin. apply list_elem_of_fmap in Hin as ([p' gm] & -> & Hin).
      apply elem_of_range_by in Hin. simpl in Hp. congruence.
  - intros p. apply Hdom.
Qed.

End publish_facts.

(** ** Reading a plan *)
Section filter_flat_map.
Context {A B : Type} (P : B → Prop) `{!∀ x, Decision (P x)}.
Implicit Types (f : string * A → list B) (l : list (string * A)).

Lemma filter_flat_map_nil f l :
  (∀ y x, y ∈ l → x ∈ f y → ¬ P x) → filter P (flat_map f l) = [].
Proof.
  intros Hno. apply elem_of_nil_inv. intros x [HP Hx]%list_elem_of_filter.
  apply list_elem_of_In, in_flat_map in Hx as (y & Hy & Hx).
  apply list_elem_of_In in Hy, Hx. by apply (Hno y x).
Qed.

Lemma filter_flat_map_one f l k v :
  NoDup l.*1 → (k, v) ∈ l →
  (∀ k' v' x, (k', v') ∈ l → k' ≠ k → x ∈ f (k', v') → ¬ P x) →
  filter P (flat_map f l) = filter P (f (k, v)).
Proof.
  induction l as [|[k0 v0] l IH]; intros Hnd Hin Hother.
  - by apply elem_of_nil in Hin.
  - apply NoDup_cons in Hnd as [Hk0 Hnd]. simpl in *. rewrite filter_app.
    apply elem_of_cons in Hin as [[= <- <-]|Hin].
    + rewrite filter_flat_map_nil, app_nil_r; [done|].
      intros [k' v'] x Hy. apply (Hother k' v' x); [by right|].
      intros ->. apply Hk0, list_elem_of_fmap. by exists (k, v').
    + rewrite IH; [|done|done|].
      2:{ intros k' v' x Hy. apply (Hother k' v' x). by right. }
      replace (filter P (f (k0, v0))) with (@nil B); [done|].
      symmetry. apply elem_of_nil_inv. intros x [HP Hx]%list_elem_of_filter.
      apply (Hother k0 v0 x); [by left| |done..].
      intros ->. apply Hk0, list_elem_of_fmap. by exists (k, v).
Qed.
End filter_flat_map.

Section plan_facts.
Context {Ctx Event World : Type}.
Local Abbreviation EventHandler := (@EventHandler Ctx Event World).
Local Abbreviation MemoryBus := (@MemoryBus Ctx Event World).
Local Abbreviation Call := (@Call Ctx Event World).
Implicit Types (b : MemoryBus) (idx : gmap string (gmap string Z)).
Implicit Types (hs : list EventHandler) (c : Call).
Implicit Types gm : gmap string (list EventHandler).

Lemma elem_of_broadcast_calls c p i hs :
  c ∈ broadcast_calls p i hs → call_pattern c = p ∧ call_group c = None.
Proof.
  revert i. induction hs as [|h hs IH]; intros i; simpl.
  - by intros ?%elem_of_nil.
  - intros [->|Hin]%elem_of_cons; [done|]. by apply (IH (S i)).
Qed.

Lemma elem_of_selected c idx p g hs :
  c ∈ selected idx p (g, hs) →
  call_pattern c = p ∧ call_group c = Some g ∧ hs !! call_index c = Some (call_handler c).
Proof.
  unfold selected. destruct (hs !! _) as [h|] eqn:E.
  - intros ->%list_elem_of_singleton. done.
  - by intros ?%elem_of_nil.
Qed.

Lemma calls_for_all p g (calls : list Call) :
  (∀ c, c ∈ calls → call_pattern c = p ∧ call_group c = g) →
  calls_for p g calls = calls.
Proof.
  intros H. unfold calls_for. induction calls as [|c calls IH]; [done|].
  rewrite filter_cons_True by (apply H; left).
  f_equal. apply IH. intros c' Hc'. apply H. by right.
Qed.

Lemma calls_for_none p g (calls : list Call) :
  (∀ c, c ∈ calls → ¬ (call_pattern c = p ∧ call_group c = g)) →
  calls_for p g calls = [].
Proof.
  intros H. apply elem_of_nil_inv. intros c [HP Hc]%list_elem_of_filter.
  by apply (H c).
Qed.

Lemma elem_of_broadcast_plan c subject p hs :
  c ∈ broadcast_plan subject (p, hs) →
  matchSubject p subject = true ∧ call_pattern c = p ∧ call_group c = None.
Proof.
  unfold broadcast_plan. simpl. destruct (matchSubject p subject).
  - intros ?%elem_of_broadcast_calls. naive_solver.
  - by intros ?%elem_of_nil.
Qed.

Lemma elem_of_groups_plan c sch idx subject p gm :
  c ∈ groups_plan sch idx subject (p, gm) →
  matchSubject p subject = true ∧ call_pattern c = p ∧
  ∃ g hs, call_group c = Some g ∧ gm !! g = Some hs
          ∧ hs !! call_index c = Some (call_handler c).
Proof.
  unfold groups_plan. simpl. destruct (matchSubject p subject).
  - intros Hc. apply list_elem_of_In, in_flat_map in Hc as ([g hs] & Hin & Hc).
    apply list_elem_of_In in Hin, Hc. apply elem_of_range_by in Hin.
    apply elem_of_selected in Hc. naive_solver.
  - by intros ?%elem_of_nil.
Qed.

(** The calls in broadcast mode under one pattern: all its handlers,
    in the order of the slice, when the pattern matches. *)
Lemma calls_for_broadcast sch b subject p :
  calls_for p None (dispatch_plan sch b subject)
  = if matchSubject p subject
    then broadcast_calls p 0 (default [] (handlers b !! p))
    else [].
Proof.
  unfold dispatch_plan, calls_for. rewrite filter_app.
  rewrite (filter_flat_map_nil _ (groups_plan _ _ _)), app_nil_r.
  2:{ intros [p' gm] c _ Hc [_ Hg]. apply elem_of_groups_plan in Hc.
      destruct Hc as (_ & _ & g & hs & Hg' & _). congruence. }
  destruct (handlers b !! p) as [hs|] eqn:Hp; simpl.
  - rewrite (filter_flat_map_one _ _ _ p hs).
    + unfold broadcast_plan. simpl. destruct (matchSubject p subject); [|done].
      apply calls_for_all. intros c. apply elem_of_broadcast_calls.
    + apply NoDup_fst_range_by.
    + by apply elem_of_range_by.
    + intros p' hs' c _ Hne Hc [Hp' _]. apply elem_of_broadcast_plan in Hc.
      naive_solver.
  - rewrite filter_flat_map_nil; [by destruct (matchSubject p subject)|].
    intros [p' hs'] c Hin%elem_of_range_by Hc [Hp' _].
    apply elem_of_broadcast_plan in Hc. naive_solver.
Qed.

(** The calls for one group of one pattern: the handler under its
    cursor, when the pattern matches. *)
Lemma calls_for_group sch b subject p g :
  calls_for p (Some g) (dispatch_plan sch b subject)
  = if matchSubject p subject
    then selected (groupIndex b) p (g, group_handlers b p g)
    else [].
Proof.
  unfold dispatch_plan, calls_for. rewrite filter_app.
  rewrite (filter_flat_map_nil _ (broadcast_plan _)). simpl.
  2:{ intros [p' hs] c _ Hc [_ Hg]. apply elem_of_broadcast_plan in Hc.
      destruct Hc as (_ & _ & Hg'). congruence. }
  unfold group_handlers.
  destruct (groups b !! p) as [gm|] eqn:Hp; simpl.
  - rewrite (filter_flat_map_one _ _ _ p gm).
    + unfold groups_plan. simpl. destruct (matchSubject p subject); [|done].
      destruct (gm !! g) as [hs|] eqn:Hg; simpl.
      * rewrite (filter_flat_map_one _ _ _ g hs).
        -- apply calls_for_all. intros c Hc%elem_of_selected. naive_solver.
        -- apply NoDup_fst_range_by.
        -- by apply elem_of_range_by.
        -- intros g' hs' c _ Hne Hc%elem_of_selected [_ Hg']. naive_solver.
      * rewrite filter_flat_map_nil; [done|].
        intros [g' hs'] c Hin%elem_of_range_by Hc%elem_of_selected [_ Hg'].
        naive_solver.
    + apply NoDup_fst_range_by.
    + by apply elem_of_range_by.
    + intros p' gm' c _ Hne Hc%elem_of_groups_plan [Hp' _]. naive_solver.
  - rewrite filter_flat_map_nil; [by destruct (matchSubject p subject)|].
    intros [p' gm'] c Hin%elem_of_range_by Hc%elem_of_groups_plan [Hp' _].
    naive_solver.
Qed.

End plan_facts.

(** ** One publish and its groups *)
Section group_dispatch.
Context {Ctx Event World : Type}.
Local Abbreviation EventHandler := (@EventHandler Ctx Event World).
Local Abbreviation MemoryBus := (@MemoryBus Ctx Event World).
Local Abbreviation Call := (@Call Ctx Event World).
Implicit Types (b : MemoryBus) (h : EventHandler) (hs : list EventHandler).
Implicit Types (idx : gmap string (gmap string Z)).

(** The call that serves a group whose cursor is [c]. *)
Lemma selected_at idx p g hs :
  0 ≤ cursor idx p g → hs ≠ [] →
  let i := Z.to_nat (cursor idx p g `mod` Z.of_nat (List.length hs)) in
  ∃ h, hs !! i = Some h ∧ selected idx p (g, hs) = [mkCall p (Some g) i h].
Proof.
  intros Hc Hhs. simpl. unfold selected.
  assert (0 < Z.of_nat (List.length hs)) by (destruct hs; [done|simpl; lia]).
  rewrite Z.rem_mod_nonneg by lia.
  set (i := Z.to_nat _).
  destruct (lookup_lt_is_Some_2 hs i) as [h Hh].
  { unfold i. pose proof (Z.mod_pos_bound (cursor idx p g) (Z.of_nat (List.length hs))).
    lia. }
  exists h. by rewrite Hh.
Qed.

Lemma dispatched_true b subject p g :
  matchSubject p subject = true → group_handlers b p g ≠ [] →
  dispatched b subject p g = true.
Proof.
  intros Hm Hhs. unfold dispatched. rewrite Hm. simpl.
  by destruct (group_handlers b p g).
Qed.

Lemma dispatched_false b subject p g :
  matchSubject p subject = false ∨ group_handlers b p g = [] →
  dispatched b subject p g = false.
Proof.
  unfold dispatched. intros [->| ->]; [done|]. simpl. apply andb_false_r.
Qed.

(** A publish leaves the bus in order, with cursors at most one higher. *)
Lemma Publish_bus_inv n sch b ctx subject event w b' w' calls err :
  bus_inv n b → n < max_int →
  Publish sch b ctx subject event w = Returned b' w' calls err →
  bus_inv (n + 1) b'.
Proof.
  intros Hinv Hn. unfold Publish at 1.
  destruct (decide (subject = "")) as [|Hs].
  { intros [= <- _ _ _]. destruct Hinv as [? Hc]. split; [done|].
    intros p g. specialize (Hc p g). lia. }
  destruct event as [e|].
  2:{ rewrite decide_True by done.
      intros [= <- _ _ _]. destruct Hinv as [? Hc]. split; [done|].
      intros p g. specialize (Hc p g). lia. }
  intros Hrun.
  destruct (Publish_run n sch b ctx subject e w Hinv Hn Hs)
    as (idx' & Hrun' & Hcur & Hdom).
  unfold Publish in Hrun'. rewrite decide_False in Hrun' by done.
  rewrite Hrun' in Hrun. injection Hrun as <- _ _ _.
  destruct Hinv as [Hready Hc]. split; simpl.
  - intros p gm Hp. apply Hdom. by apply (Hready p gm).
  - intros p g. rewrite Hcur. specialize (Hc p g).
    destruct (dispatched b subject p g); lia.
Qed.

(** What one publish does for one group of one pattern. *)
Lemma Publish_group n sch b ctx subject e w p g :
  bus_inv n b → n < max_int → subject ≠ "" →
  ∃ b' w' calls,
    Publish sch b ctx subject (Some e) w = Returned b' w' calls None
    ∧ handlers b' = handlers b ∧ groups b' = groups b
    ∧ calls_for p (Some g) calls
      = (if matchSubject p subject
         then selected (groupIndex b) p (g, group_handlers b p g) else [])
    ∧ cursor (groupIndex b') p g
      = cursor (groupIndex b) p g + (if dispatched b subject p g then 1 else 0).
Proof.
  intros Hinv Hn Hs.
  destruct (Publish_run n sch b ctx subject e w Hinv Hn Hs)
    as (idx' & Hrun & Hcur & Hdom).
  eexists _, _, _. split; [exact Hrun|]. simpl. split_and!; [done|done| |done].
  apply calls_for_group.
Qed.

End group_dispatch.

(** ** Round robin *)
Section round_robin.
Context {Ctx Event World : Type}.
Local Abbreviation EventHandler := (@EventHandler Ctx Event World).
Local Abbreviation MemoryBus := (@MemoryBus Ctx Event World).
Local Abbreviation Call := (@Call Ctx Event World).
Implicit Types (b : MemoryBus) (h : EventHandler) (hs : list EventHandler).
Implicit Types (idx : gmap string (gmap string Z)).
Implicit Types reqs : list (Schedule * string * option Event).

Lemma selected_serve idx p g hs :
  selected idx p (g, hs) = serve p g hs (cursor idx p g).
Proof. done. Qed.

(** Publishes in a row serve a group from cursor to cursor. *)
Lemma PublishSeq_group n b ctx reqs w p g :
  bus_inv n b → n + Z.of_nat (List.length reqs) ≤ max_int →
  group_handlers b p g ≠ [] →
  Forall (matching_request p) reqs →
  ∃ b' w' logs,
    PublishSeq b ctx reqs w = Some (b', w', logs)
    ∧ calls_for p (Some g) <$> logs
      = (λ k, serve p g (group_handlers b p g)
                    (cursor (groupIndex b) p g + Z.of_nat k))
        <$> seq 0 (List.length reqs).
Proof.
  revert n b w. induction reqs as [|[[sch subject] event] reqs IH];
    intros n b w Hinv Hn Hhs Hreqs.
  - by exists b, w, [].
  - apply Forall_cons in Hreqs as [(Hs & [e He] & Hm) Hreqs]. simpl in *.
    subst event.
    destruct (Publish_group n sch b ctx subject e w p g Hinv)
      as (b1 & w1 & calls & Hrun & _ & Hgroups & Hcalls & Hcur); [lia|done|].
    rewrite Hm in Hcalls. rewrite dispatched_true in Hcur by done.
    assert (Hsame : group_handlers b1 p g = group_handlers b p g).
    { unfold group_handlers. by rewrite Hgroups. }
    destruct (IH (n + 1) b1 w1) as (b' & w' & logs & Hseq & Hlogs).
    { eapply Publish_bus_inv; [exact Hinv|lia|exact Hrun]. }
    { lia. }
    { by rewrite Hsame. }
    { done. }
    rewrite Hrun, Hseq. exists b', w', (calls :: logs). split; [done|].
    rewrite fmap_cons, Hcalls, Hlogs, selected_serve, Z.add_0_r. f_equal.
    rewrite <- fmap_S_seq, <- list_fmap_compose. apply list_fmap_ext.
    intros _ k _. simpl. rewrite Hsame, Hcur. f_equal. lia.
Qed.

Lemma serve_two p g h1 h2 (k : nat) :
  serve p g [h1; h2] (Z.of_nat k)
  = [mkCall p (Some g) (k `mod` 2) (if Nat.even k then h1 else h2)].
Proof.
  unfold serve. simpl List.length.
  rewrite Z.rem_mod_nonneg by lia.
  replace (Z.to_nat (Z.of_nat k `mod` Z.of_nat 2)) with (k `mod` 2)%nat
    by (rewrite <- Nat2Z.inj_mod; lia).
  destruct (Nat.even k) eqn:Hk.
  - apply Nat.even_spec in Hk as [m ->].
    replace ((2 * m) `mod` 2)%nat with 0%nat; [done|].
    symmetry. rewrite Nat.mul_comm. apply Nat.Div0.mod_mul.
  - assert (Ho : Nat.odd k = true) by (by rewrite <- Nat.negb_even, Hk).
    apply Nat.odd_spec in Ho as [m ->].
    replace ((2 * m + 1) `mod` 2)%nat with 1%nat; [done|].
    symmetry. rewrite Nat.add_comm, Nat.mul_comm, Nat.Div0.mod_add. done.
Qed.

(** Among the first [N] numbers, those with remainder 0 and 1 by 2. *)
Lemma count_alternating p g h1 h2 (N : nat) :
  let calls := (λ k : nat, mkCall p (Some g) (k `mod` 2)
                             (if Nat.even k then h1 else h2)) <$> seq 0 N in
  List.length (filter (λ c : Call, call_index c = 0%nat) calls) = ((N + 1) / 2)%nat
  ∧ List.length (filter (λ c : Call, call_index c = 1%nat) calls) = (N / 2)%nat.
Proof.
  cbv zeta. induction N as [|N [IH0 IH1]]; [split; reflexivity|].
  rewrite seq_S, fmap_app, !filter_app, !length_app, IH0, IH1.
  rewrite Nat.add_0_l, fmap_cons, fmap_nil.
  assert (Hmod : (N `mod` 2 = 0 ∨ N `mod` 2 = 1)%nat).
  { pose proof (Nat.mod_upper_bound N 2). lia. }
  pose proof (Nat.div_mod_eq N 2) as HN.
  pose proof (Nat.div_mod_eq (N + 1) 2) as HN1.
  pose proof (Nat.div_mod_eq (S N + 1) 2) as HN2.
  pose proof (Nat.div_mod_eq (S N) 2) as HN3.
  pose proof (Nat.mod_upper_bound (N + 1) 2).
  pose proof (Nat.mod_upper_bound (S N + 1) 2).
  pose proof (Nat.mod_upper_bound (S N) 2).
  destruct Hmod as [E|E]; rewrite E in *.
  - rewrite filter_cons_True, filter_cons_False by (simpl; lia).
    rewrite !filter_nil. simpl List.length. lia.
  - rewrite filter_cons_False, filter_cons_True by (simpl; lia).
    rewrite !filter_nil. simpl List.length. lia.
Qed.

End round_robin.

(** ** The claims on group dispatch *)
Section group_claims.
Context {Ctx Event World : Type}.
Local Abbreviation EventHandler := (@EventHandler Ctx Event World).
Local Abbreviation MemoryBus := (@MemoryBus Ctx Event World).
Local Abbreviation Call := (@Call Ctx Event World).
Implicit Types (b : MemoryBus) (h : EventHandler) (hs : list EventHandler).
Implicit Types reqs : list (Schedule * string * option Event).

(** C3. On a publish that pattern [p] matches, a group of [p] with
    handlers has exactly the handler at index (cursor mod count)
    called, and its cursor goes up by one.  With two handlers in the
    group and the cursor at 0, the publishes of a row of [N] call the
    first, the second, the first, ...: the first one ceil(N/2) times
    and the second one floor(N/2) times.  (The bus is in order and
    no cursor reaches the largest [int].) *)
Theorem group_round_robin n b ctx p g :
  bus_within n b = true →
  (∀ sch subject e w,
     n < max_int → subject ≠ "" → matchSubject p subject = true →
     group_handlers b p g ≠ [] →
     ∃ b' w' calls h,
       Publish sch b ctx subject (Some e) w = Returned b' w' calls None
       ∧ let i := Z.to_nat (cursor (groupIndex b) p g
                            `mod` Z.of_nat (List.length (group_handlers b p g))) in
         group_handlers b p g !! i = Some h
         ∧ calls_for p (Some g) calls = [mkCall p (Some g) i h]
         ∧ cursor (groupIndex b') p g = cursor (groupIndex b) p g + 1)
  ∧ (∀ reqs w h1 h2,
       n + Z.of_nat (List.length reqs) ≤ max_int →
       group_handlers b p g = [h1; h2] → cursor (groupIndex b) p g = 0 →
       Forall (matching_request p) reqs →
       ∃ b' w' logs,
         PublishSeq b ctx reqs w = Some (b', w', logs)
         ∧ let served :=
             (λ k : nat, mkCall p (Some g) (k `mod` 2)
                           (if Nat.even k then h1 else h2))
             <$> seq 0 (List.length reqs) in
           calls_for p (Some g) <$> logs = (λ c : Call, [c]) <$> served
           ∧ List.length (filter (λ c : Call, call_index c = 0%nat) served)
             = ((List.length reqs + 1) / 2)%nat
           ∧ List.length (filter (λ c : Call, call_index c = 1%nat) served)
             = (List.length reqs / 2)%nat).
Proof.
  intros [Hn Hinv]%bus_within_spec. split.
  - intros sch subject e w Hlt Hs Hm Hhs.
    destruct (Publish_group n sch b ctx subject e w p g Hinv Hlt Hs)
      as (b' & w' & calls & Hrun & _ & _ & Hcalls & Hcur).
    rewrite Hm in Hcalls. rewrite dispatched_true in Hcur by done.
    destruct (selected_at (groupIndex b) p g (group_handlers b p g))
      as (h & Hh & Hsel); [apply Hinv|done|].
    exists b', w', calls, h. split; [done|]. cbv zeta.
    split_and!; [done| |done]. by rewrite Hcalls.
  - intros reqs w h1 h2 Hlen Hhs Hc Hreqs.
    destruct (PublishSeq_group n b ctx reqs w p g Hinv Hlen) as
      (b' & w' & logs & Hrun & Hlogs); [by rewrite Hhs|done|].
    exists b', w', logs. split; [done|]. cbv zeta. split.
    + rewrite Hlogs, <- list_fmap_compose. apply list_fmap_ext.
      intros _ k _. simpl. by rewrite Hhs, Hc, Z.add_0_l, serve_two.
    + apply count_alternating.
Qed.

(** C8. Two groups of one pattern: a matching publish calls one
    handler of each and moves each cursor by one; and what it does for
    the first group is the same on every bus that holds this group
    with the same handlers and cursor, whatever the other group looks
    like there. *)
Theorem groups_independent n sch b ctx subject e w p g1 g2 :
  bus_within n b = true → n < max_int → subject ≠ "" →
  matchSubject p subject = true → g1 ≠ g2 →
  group_handlers b p g1 ≠ [] → group_handlers b p g2 ≠ [] →
  ∃ b' w' calls c1 c2,
    Publish sch b ctx subject (Some e) w = Returned b' w' calls None
    ∧ calls_for p (Some g1) calls = [c1]
    ∧ calls_for p (Some g2) calls = [c2]
    ∧ cursor (groupIndex b') p g1 = cursor (groupIndex b) p g1 + 1
    ∧ cursor (groupIndex b') p g2 = cursor (groupIndex b) p g2 + 1
    ∧ ∀ n2 sch2 b2 subject2 e2 w2,
        bus_within n2 b2 = true → n2 < max_int → subject2 ≠ "" →
        matchSubject p subject2 = true →
        group_handlers b2 p g1 = group_handlers b p g1 →
        cursor (groupIndex b2) p g1 = cursor (groupIndex b) p g1 →
        ∃ b2' w2' calls2,
          Publish sch2 b2 ctx subject2 (Some e2) w2 = Returned b2' w2' calls2 None
          ∧ calls_for p (Some g1) calls2 = [c1]
          ∧ cursor (groupIndex b2') p g1 = cursor (groupIndex b') p g1.
Proof.
  intros [Hn Hinv]%bus_within_spec Hlt Hs Hm Hne Hhs1 Hhs2.
  destruct (Publish_run n sch b ctx subject e w Hinv Hlt Hs)
    as (idx' & Hrun & Hcur & _).
  destruct (selected_at (groupIndex b) p g1 (group_handlers b p g1))
    as (h1 & Hh1 & Hsel1); [apply Hinv|done|].
  destruct (selected_at (groupIndex b) p g2 (group_handlers b p g2))
    as (h2 & Hh2 & Hsel2); [apply Hinv|done|].
  eexists _, _, _, _, _. split; [exact Hrun|]. simpl.
  rewrite !calls_for_group, Hm, Hsel1, Hsel2, !Hcur, !dispatched_true by done.
  split_and!; [done..|].
  intros n2 sch2 b2 subject2 e2 w2 [Hn2 Hinv2]%bus_within_spec Hlt2 Hs2 Hm2 Hsame Hc.
  destruct (Publish_run n2 sch2 b2 ctx subject2 e2 w2 Hinv2 Hlt2 Hs2)
    as (idx2 & Hrun2 & Hcur2 & _).
  eexists _, _, _. split; [exact Hrun2|]. simpl.
  rewrite calls_for_group, Hm2, Hcur2, dispatched_true by (by rewrite ?Hsame).
  split; [|lia].
  rewrite <- Hsel1, !selected_serve. by rewrite Hsame, Hc.
Qed.

(** C9. A group without handlers is passed over by a publish: no
    call, and its cursor stays; a group with handlers, however many,
    under a matching pattern has its cursor moved by exactly one (and
    one call). *)
Theorem empty_group_skipped n sch b ctx subject e w p g :
  bus_within n b = true → n < max_int → subject ≠ "" →
  ∃ b' w' calls,
    Publish sch b ctx subject (Some e) w = Returned b' w' calls None
    ∧ (group_handlers b p g = [] →
         calls_for p (Some g) calls = []
         ∧ cursor (groupIndex b') p g = cursor (groupIndex b) p g)
    ∧ (group_handlers b p g ≠ [] → matchSubject p subject = true →
         List.length (calls_for p (Some g) calls) = 1%nat
         ∧ cursor (groupIndex b') p g = cursor (groupIndex b) p g + 1).
Proof.
  intros [Hn Hinv]%bus_within_spec Hlt Hs.
  destruct (Publish_group n sch b ctx subject e w p g Hinv Hlt Hs)
    as (b' & w' & calls & Hrun & _ & _ & Hcalls & Hcur).
  exists b', w', calls. split; [done|]. split.
  - intros Hhs. rewrite Hcalls, Hcur, Hhs, dispatched_false by (by right).
    split; [by destruct (matchSubject p subject)|lia].
  - intros Hhs Hm. rewrite Hcalls, Hcur, Hm, dispatched_true by done.
    destruct (selected_at (groupIndex b) p g (group_handlers b p g))
      as (h & _ & ->); [apply Hinv|done|]. done.
Qed.

End group_claims.

(** ** Validation, broadcast and reset *)
Section bus_claims.
Context {Ctx Event World : Type}.
Local Abbreviation EventHandler := (@EventHandler Ctx Event World).
Local Abbreviation MemoryBus := (@MemoryBus Ctx Event World).
Local Abbreviation Call := (@Call Ctx Event World).
Local Abbreviation Dispatch := (@Dispatch Ctx Event World).
Implicit Types (b : MemoryBus) (h : EventHandler) (hs : list EventHandler).
Implicit Types (st : Dispatch) (handler : option EventHandler).

Lemma range_by_empty {V : Type} ks : range_by ks (∅ : gmap string V) = [].
Proof.
  apply Permutation_nil_r. rewrite range_by_Permutation.
  by rewrite map_to_list_empty.
Qed.

Lemma range_by_singleton {V : Type} ks k (v : V) :
  range_by ks ({[k := v]} : gmap string V) = [(k, v)].
Proof.
  apply Permutation_singleton_r. rewrite range_by_Permutation.
  by rewrite map_to_list_singleton.
Qed.

Lemma groups_loop_no_match sch subject ctx event
    (l : list (string * gmap string (list EventHandler))) st :
  (∀ p gm, (p, gm) ∈ l → matchSubject p subject = false) →
  for_each (groups_body sch subject ctx event) l st = Some st.
Proof.
  induction l as [|[p gm] l IH]; intros Hno; simpl; [done|].
  rewrite (Hno p gm) by left. apply IH. intros p' gm' Hin.
  apply (Hno p' gm'). by right.
Qed.

Lemma broadcast_plan_no_match subject (l : list (string * list EventHandler)) :
  (∀ p hs, (p, hs) ∈ l → matchSubject p subject = false) →
  flat_map (broadcast_plan subject) l = [].
Proof.
  induction l as [|[p hs] l IH]; intros Hno; simpl; [done|].
  unfold broadcast_plan at 1. simpl. rewrite (Hno p hs) by left. apply IH.
  intros p' hs' Hin. apply (Hno p' hs'). by right.
Qed.

(** C4. [Publish] returns an error exactly when the subject is empty
    or the event is nil, and then nothing is dispatched: the bus (its
    cursors too) and the world are as before and no handler was
    called.  With a subject and an event it returns nil; when no
    registered pattern matches, nothing else happens.  (The bus is in
    order and no cursor reaches the largest [int].) *)
Theorem publish_validation n sch b ctx subject event w :
  bus_within n b = true → n < max_int →
  ((∃ b' w' calls msg,
      Publish sch b ctx subject event w = Returned b' w' calls (Some msg))
   ↔ subject = "" ∨ event = None)
  ∧ (subject = "" ∨ event = None →
     ∃ msg, Publish sch b ctx subject event w = Returned b w [] (Some msg))
  ∧ (subject ≠ "" → event ≠ None →
     ∃ b' w' calls, Publish sch b ctx subject event w = Returned b' w' calls None)
  ∧ (subject ≠ "" → event ≠ None → no_match b subject →
     Publish sch b ctx subject event w = Returned b w [] None).
Proof.
  intros [Hn Hinv]%bus_within_spec Hlt.
  assert (Hbad : subject = "" ∨ event = None →
            ∃ msg, Publish sch b ctx subject event w = Returned b w [] (Some msg)).
  { intros Hbad. unfold Publish, Errorf.
    destruct (decide (subject = "")); [by eexists|].
    destruct Hbad as [?| ->]; [done|]. rewrite decide_True by done. by eexists. }
  assert (Hgood : subject ≠ "" → event ≠ None →
            ∃ b' w' calls,
              Publish sch b ctx subject event w = Returned b' w' calls None).
  { intros Hs He. destruct event as [e|]; [|done].
    destruct (Publish_run n sch b ctx subject e w Hinv Hlt Hs) as (idx' & Hrun & _).
    by eexists _, _, _. }
  split_and!; [|done|done|].
  - split.
    + intros (b' & w' & calls & msg & Hrun).
      destruct (decide (subject = "")) as [|Hs]; [by left|].
      destruct event as [e|]; [|by right].
      destruct (Hgood Hs) as (? & ? & ? & Hrun'); [done|]. congruence.
    + intros Hbad'. destruct (Hbad Hbad') as [msg Hrun]. by exists b, w, [], msg.
  - intros Hs He Hno. unfold Publish.
    rewrite decide_False by done. rewrite decide_False by done.
    rewrite broadcast_loop, broadcast_plan_no_match.
    2:{ intros p hs Hin%elem_of_range_by. apply Hno. left. by eexists. }
    rewrite after_nil, groups_loop_no_match.
    2:{ intros p gm Hin%elem_of_range_by. apply Hno. right. by eexists. }
    simpl. by destruct b.
Qed.

Lemma subscribe_all_spec b p hs :
  p ≠ "" →
  groups (subscribe_all b p hs) = groups b
  ∧ groupIndex (subscribe_all b p hs) = groupIndex b
  ∧ default [] (handlers (subscribe_all b p hs) !! p)
    = default [] (handlers b !! p) ++ hs.
Proof.
  intros Hp. unfold subscribe_all. revert b.
  induction hs as [|h hs IH]; intros b; simpl.
  - by rewrite app_nil_r.
  - destruct (IH (Subscribe b p (Some h)).1) as (-> & -> & ->).
    unfold Subscribe. rewrite decide_False by done. simpl.
    rewrite lookup_insert_eq. simpl. by rewrite <- app_assoc.
Qed.

Lemma broadcast_calls_handlers p i hs :
  call_handler <$> broadcast_calls p i hs = hs.
Proof.
  revert i. induction hs as [|h hs IH]; intros i; simpl; [done|].
  by rewrite IH.
Qed.

(** C5. A [Subscribe] appends the handler to the slice of its
    pattern; handlers subscribed one after the other pile up in that
    order; and a publish that the pattern matches calls all of them,
    in the order of registration.  (The bus is in order and no cursor
    reaches the largest [int].) *)
Theorem broadcast_in_registration_order n sch b ctx subject e w p hs :
  bus_within n b = true → n < max_int →
  p ≠ "" → subject ≠ "" → matchSubject p subject = true →
  (∀ h, Subscribe b p (Some h)
        = ({| handlers := <[p := default [] (handlers b !! p) ++ [h]]> (handlers b);
              groups := groups b; groupIndex := groupIndex b |}, None))
  ∧ default [] (handlers (subscribe_all b p hs) !! p)
    = default [] (handlers b !! p) ++ hs
  ∧ ∃ b' w' calls,
      Publish sch (subscribe_all b p hs) ctx subject (Some e) w
        = Returned b' w' calls None
      ∧ call_handler <$> calls_for p None calls
        = default [] (handlers b !! p) ++ hs.
Proof.
  intros [Hn Hinv]%bus_within_spec Hlt Hp Hs Hm.
  destruct (subscribe_all_spec b p hs Hp) as (Hg & Hi & Hh).
  split_and!; [|done|].
  - intros h. unfold Subscribe. by rewrite decide_False by done.
  - destruct (Publish_run n sch (subscribe_all b p hs) ctx subject e w)
      as (idx' & Hrun & _); [|done|done|].
    { destruct Hinv as [Hready Hc]. split; by rewrite ?Hg, ?Hi. }
    eexists _, _, _. split; [exact Hrun|].
    by rewrite calls_for_broadcast, Hm, broadcast_calls_handlers.
Qed.

(** C6. [Close] returns nil and leaves the bus as [NewMemoryBus] makes
    it; a publish then calls no handler and returns nil; and after a
    new [Subscribe] a matching publish calls the new handler. *)
Theorem close_resets sch b ctx subject e w p h :
  subject ≠ "" → p ≠ "" → matchSubject p subject = true →
  Close b = (NewMemoryBus, None)
  ∧ Publish sch (Close b).1 ctx subject (Some e) w = Returned NewMemoryBus w [] None
  ∧ Publish sch (Subscribe (Close b).1 p (Some h)).1 ctx subject (Some e) w
    = Returned (Subscribe (Close b).1 p (Some h)).1
               (h ctx (Some e) w).1 [mkCall p None 0 h] None.
Proof.
  intros Hs Hp Hm. split; [done|]. split.
  - unfold Publish. rewrite decide_False by done.
    rewrite decide_False by done. unfold Close. cbn [fst handlers groups].
    by rewrite !range_by_empty.
  - unfold Publish, Subscribe, Close. cbn [fst].
    rewrite (decide_False (P := p = "")) by done.
    rewrite (decide_False (P := subject = "")) by done.
    rewrite decide_False by done. cbn [fst handlers groups groupIndex].
    rewrite lookup_empty, insert_empty. cbn [default app].
    rewrite range_by_singleton, range_by_empty. cbn [for_each broadcast_body].
    rewrite Hm. cbn [call_all for_each]. unfold invoke. cbn.
    by destruct (h ctx (Some e) w).
Qed.

End bus_claims.

(** ** Registration *)
Section registration.
Context {Ctx Event World : Type}.
Local Abbreviation EventHandler := (@EventHandler Ctx Event World).
Local Abbreviation MemoryBus := (@MemoryBus Ctx Event World).
Local Abbreviation Call := (@Call Ctx Event World).
Implicit Types (b : MemoryBus) (h : EventHandler) (hs : list EventHandler).
Implicit Types handler : option EventHandler.

(** C7. [SubscribeWithHandlerGroup] fails exactly when the subject is
    empty, the group is empty or the handler is nil; it then leaves
    the bus as it was, and it names the first field at fault with a
    message of its own.  [Subscribe] with an empty subject fails with
    the subject message and leaves the bus as it was. *)
Theorem subscribe_validation b subject group handler :
  let r := SubscribeWithHandlerGroup b subject group handler in
  (r.2 ≠ None ↔ subject = "" ∨ group = "" ∨ handler = None)
  ∧ (r.2 ≠ None → r.1 = b)
  ∧ (subject = "" → r.2 = Some "subject is required")
  ∧ (subject ≠ "" → group = "" → r.2 = Some "group is required")
  ∧ (subject ≠ "" → group ≠ "" → handler = None → r.2 = Some "handler is required")
  ∧ "subject is required" ≠ "group is required"
  ∧ "subject is required" ≠ "handler is required"
  ∧ "group is required" ≠ "handler is required"
  ∧ Subscribe b "" handler = (b, Some "subject is required").
Proof.
  unfold SubscribeWithHandlerGroup, Subscribe, Errorf. simpl.
  destruct (decide (subject = "")) as [Hs|Hs];
    [|destruct (decide (group = "")) as [Hg|Hg]; [|destruct handler as [h|]]];
    simpl; split_and!; try done; try (intros; congruence); try naive_solver.
Qed.

End registration.

(** ** The states the bus can be in *)
Section reachable_facts.
Context {Ctx Event World : Type}.
Local Abbreviation EventHandler := (@EventHandler Ctx Event World).
Local Abbreviation MemoryBus := (@MemoryBus Ctx Event World).
Implicit Types (b : MemoryBus) (handler : option EventHandler).

Lemma bus_inv_mono n m b : n ≤ m → bus_inv n b → bus_inv m b.
Proof.
  intros Hnm [Hready Hc]. split; [done|]. intros p g. specialize (Hc p g). lia.
Qed.

Lemma bus_inv_new : bus_inv 0 (@NewMemoryBus Ctx Event World).
Proof.
  split.
  - intros p gm. unfold NewMemoryBus. cbn [groups]. by rewrite lookup_empty.
  - intros p g. unfold NewMemoryBus, cursor. cbn [groupIndex].
    by rewrite lookup_empty.
Qed.

Lemma bus_inv_Subscribe n b subject handler :
  bus_inv n b → bus_inv n (Subscribe b subject handler).1.
Proof.
  unfold Subscribe. destruct (decide (subject = "")); [done|].
  by destruct handler.
Qed.

Lemma bus_inv_SubscribeWithHandlerGroup n b subject group handler :
  bus_inv n b → bus_inv n (SubscribeWithHandlerGroup b subject group handler).1.
Proof.
  intros [Hready Hc]. unfold SubscribeWithHandlerGroup.
  destruct (decide (subject = "")); [done|].
  destruct (decide (group = "")); [done|].
  destruct handler as [h|]; [|done]. split; simpl.
  - intros p gm. destruct (decide (p = subject)) as [->|Hp].
    + intros _. destruct (groupIndex b !! subject) eqn:E; [by rewrite E|].
      rewrite lookup_insert_eq. eauto.
    + rewrite lookup_insert_ne by done. intros Hgm.
      assert (Hgm' : groups b !! p = Some gm).
      { destruct (groups b !! subject); [done|]. by rewrite lookup_insert_ne in Hgm. }
      destruct (groupIndex b !! subject); [by apply (Hready p gm)|].
      rewrite lookup_insert_ne by done. by apply (Hready p gm).
  - intros p g. destruct (groupIndex b !! subject) eqn:E; [apply Hc|].
    unfold cursor. destruct (decide (p = subject)) as [->|Hp].
    + rewrite lookup_insert_eq. simpl. rewrite lookup_empty. simpl.
      specialize (Hc subject g). lia.
    + rewrite lookup_insert_ne by done. apply Hc.
Qed.

(** A bus made by the operations, with at most [max_int] publishes
    behind it, is in order, and no cursor is above the number of
    publishes. *)
Lemma reachable_bus_inv n b :
  reachable n b → n ≤ max_int → 0 ≤ n ∧ bus_inv n b.
Proof.
  induction 1 as [|n b subject handler _ IH|n b subject group handler _ IH
                  |n b _ IH|n b sch ctx subject event w b' w' calls err _ IH Hrun];
    intros Hn.
  - split; [done|apply bus_inv_new].
  - split; [|apply bus_inv_Subscribe]; by apply IH.
  - split; [|apply bus_inv_SubscribeWithHandlerGroup]; by apply IH.
  - destruct (IH Hn) as [H0 _]. split; [done|].
    eapply bus_inv_mono; [exact H0|apply bus_inv_new].
  - destruct IH as [H0 Hinv]; [lia|]. split; [lia|].
    eapply Publish_bus_inv; [exact Hinv|lia|exact Hrun].
Qed.

Lemma reachable_bus_within n b :
  reachable n b → n ≤ max_int → bus_within n b = true.
Proof. intros Hr Hn. apply bus_within_spec. by apply reachable_bus_inv. Qed.

End reachable_facts.

(** ** The matcher: the loops end, and errors come from the pattern *)
#[local] Arguments utf8.DecodeRuneInString : simpl never.

Section match_facts.
Import filepath.

Lemma slice_from_len n s : len (slice_from n s) = (len s - n)%nat.
Proof.
  revert s. induction n as [|n IH]; intros [|c s]; simpl; try done.
Qed.

Lemma DecodeRuneInString_width c s :
  (1 ≤ (utf8.DecodeRuneInString (String c s)).2 ≤ 4)%nat.
Proof.
  unfold utf8.DecodeRuneInString.
  repeat (case_match; simpl; try lia).
Qed.

(** A class character taken by [getEsc] leaves a shorter chunk, which
    is not empty. *)
Lemma getEsc_shorter chunk r nchunk :
  getEsc chunk = (r, nchunk, None) →
  (0 < len nchunk < len chunk)%nat.
Proof.
  unfold getEsc. destruct chunk as [|c chunk1]; [done|].
  destruct (byte_eqb c "-" || byte_eqb c "]"); [done|].
  destruct (byte_eqb c "\") eqn:Hesc.
  - destruct chunk1 as [|c1 chunk2]; [done|]. simpl.
    pose proof (DecodeRuneInString_width c1 chunk2) as Hw.
    destruct (utf8.DecodeRuneInString (String c1 chunk2)) as [r' n]. simpl in Hw.
    destruct (len (slice_from n (String c1 chunk2)) =? 0)%nat eqn:Hl; [done|].
    apply Nat.eqb_neq in Hl. intros [= _ <- E].
    rewrite slice_from_len in *. simpl in *. lia.
  - simpl.
    pose proof (DecodeRuneInString_width c chunk1) as Hw.
    destruct (utf8.DecodeRuneInString (String c chunk1)) as [r' n]. simpl in Hw.
    destruct (len (slice_from n (String c chunk1)) =? 0)%nat eqn:Hl; [done|].
    apply Nat.eqb_neq in Hl. intros [= _ <- E].
    rewrite slice_from_len in *. simpl in *. lia.
Qed.

Lemma head_is_len s c : head_is s c = true → (0 < len s)%nat.
Proof. destruct s; [done|simpl; lia]. Qed.

Lemma parseRanges_shorter fuel chunk r matched nrange chunk' matched' :
  parseRanges fuel chunk r matched nrange = Some (inl (chunk', matched')) →
  (len chunk' < len chunk)%nat.
Proof.
  revert chunk matched nrange.
  induction fuel as [|fuel IH]; intros chunk matched nrange; cbn [parseRanges]; [done|].
  destruct (head_is chunk "]" && (0 <? nrange)%nat) eqn:Hbreak.
  { intros [= <- _]. apply andb_true_iff in Hbreak as [Hh%head_is_len _].
    destruct chunk; simpl in *; lia. }
  destruct (getEsc chunk) as [[lo chunk1] [e|]] eqn:Hlo; [done|].
  apply getEsc_shorter in Hlo.
  destruct (head_is chunk1 "-").
  - destruct (getEsc (slice_from 1 chunk1)) as [[hi chunk2] [e|]] eqn:Hhi; [done|].
    apply getEsc_shorter in Hhi. rewrite slice_from_len in Hhi.
    intros Hrec%IH. lia.
  - intros Hrec%IH. lia.
Qed.

Lemma parseRanges_fuel fuel chunk r matched nrange :
  (len chunk < fuel)%nat → parseRanges fuel chunk r matched nrange ≠ None.
Proof.
  revert chunk matched nrange.
  induction fuel as [|fuel IH]; intros chunk matched nrange Hlen; cbn [parseRanges]; [lia|].
  destruct (head_is chunk "]" && (0 <? nrange)%nat); [done|].
  destruct (getEsc chunk) as [[lo chunk1] [e|]] eqn:Hlo; [done|].
  apply getEsc_shorter in Hlo.
  destruct (head_is chunk1 "-").
  - destruct (getEsc (slice_from 1 chunk1)) as [[hi chunk2] [e|]] eqn:Hhi; [done|].
    apply getEsc_shorter in Hhi. rewrite slice_from_len in Hhi.
    apply IH. lia.
  - apply IH. lia.
Qed.

Lemma parseRanges_same_class fuel chunk r r' matched matched' nrange :
  same_class (parseRanges fuel chunk r matched nrange)
             (parseRanges fuel chunk r' matched' nrange).
Proof.
  revert chunk matched matched' nrange.
  induction fuel as [|fuel IH]; intros chunk matched matched' nrange; cbn [parseRanges]; [done|].
  destruct (head_is chunk "]" && (0 <? nrange)%nat); [done|].
  destruct (getEsc chunk) as [[lo chunk1] [e|]]; [done|].
  destruct (head_is chunk1 "-").
  - destruct (getEsc (slice_from 1 chunk1)) as [[hi chunk2] [e|]]; [done|].
    apply IH.
  - apply IH.
Qed.

(** Whether a chunk is well formed does not depend on the string it
    is matched against: the error of [matchChunk] is that of a run on
    the empty string. *)
Lemma matchChunk_loop_err fuel chunk s failed :
  err_of (matchChunk_loop fuel chunk s failed)
  = err_of (matchChunk_loop fuel chunk "" true).
Proof.
  revert chunk s failed.
  induction fuel as [|fuel IH]; intros chunk s failed; [done|].
  assert (Hleaf : ∀ chunk' s1 f1 s2 f2,
            err_of (matchChunk_loop fuel chunk' s1 f1)
            = err_of (matchChunk_loop fuel chunk' s2 f2)).
  { intros. etrans; [apply IH|symmetry; apply IH]. }
  cbn [matchChunk_loop]. destruct chunk as [|c chunk1].
  { by destruct failed. }
  cbn [negb andb].
  set (failed1 := if negb failed && (len s =? 0)%nat then true else failed).
  destruct (byte_eqb c "[").
  - destruct (if negb failed1
              then let '(r, n) := utf8.DecodeRuneInString s in (r, slice_from n s)
              else (0, s)) as [r s1].
    destruct (if head_is chunk1 "^" then (true, slice_from 1 chunk1)
              else (false, chunk1)) as [negated chunk2].
    pose proof (parseRanges_same_class fuel chunk2 r 0 false false 0) as Hsame.
    destruct (parseRanges fuel chunk2 r false 0) as [[[chunk3 m]|e]|],
             (parseRanges fuel chunk2 0 false 0) as [[[chunk3' m']|e']|];
      simpl in Hsame; try done; subst.
    + apply Hleaf.
    + done.
  - destruct (byte_eqb c "?").
    + destruct (if negb failed1 then _ else _) as [f1 s1]. apply Hleaf.
    + destruct (byte_eqb c "\").
      * destruct chunk1 as [|c' chunk2]; [done|].
        destruct (if negb failed1 then _ else _) as [f1 s1]. apply Hleaf.
      * destruct (if negb failed1 then _ else _) as [f1 s1]. apply Hleaf.
Qed.

Lemma matchChunk_loop_fuel fuel chunk s failed :
  (len chunk < fuel)%nat → matchChunk_loop fuel chunk s failed ≠ None.
Proof.
  revert chunk s failed.
  induction fuel as [|fuel IH]; intros chunk s failed Hlen; [simpl in *; lia|].
  cbn [matchChunk_loop]. destruct chunk as [|c chunk1]; [done|].
  simpl in Hlen.
  set (failed1 := if negb failed && (len s =? 0)%nat then true else failed).
  destruct (byte_eqb c "[").
  - destruct (if negb failed1
              then let '(r, n) := utf8.DecodeRuneInString s in (r, slice_from n s)
              else (0, s)) as [r s1].
    assert (∃ negated chunk2,
              (if head_is chunk1 "^" then (true, slice_from 1 chunk1)
               else (false, chunk1)) = (negated, chunk2)
              ∧ (len chunk2 ≤ len chunk1)%nat) as (negated & chunk2 & -> & Hle).
    { destruct (head_is chunk1 "^"); eexists _, _; (split; [done|]);
        rewrite ?slice_from_len; lia. }
    pose proof (parseRanges_fuel fuel chunk2 r false 0 ltac:(lia)) as Hf.
    destruct (parseRanges fuel chunk2 r false 0) as [[[chunk3 m]|e]|] eqn:Hp;
      [|done|done].
    apply parseRanges_shorter in Hp. apply IH. lia.
  - destruct (byte_eqb c "?").
    + destruct (if negb failed1 then _ else _) as [f1 s1]. apply IH. lia.
    + destruct (byte_eqb c "\").
      * destruct chunk1 as [|c' chunk2]; [done|]. simpl in Hlen.
        destruct (if negb failed1 then _ else _) as [f1 s1]. apply IH. lia.
      * destruct (if negb failed1 then _ else _) as [f1 s1]. apply IH. lia.
Qed.

Lemma matchChunk_loop_ok fuel chunk s failed t err :
  matchChunk_loop fuel chunk s failed = Some (t, true, err) → err = None.
Proof.
  revert chunk s failed.
  induction fuel as [|fuel IH]; intros chunk s failed; [done|].
  cbn [matchChunk_loop]. destruct chunk as [|c chunk1].
  { destruct failed; by intros [= _ <-]. }
  set (failed1 := if negb failed && (len s =? 0)%nat then true else failed).
  destruct (byte_eqb c "[").
  - destruct (if negb failed1
              then let '(r, n) := utf8.DecodeRuneInString s in (r, slice_from n s)
              else (0, s)) as [r s1].
    destruct (if head_is chunk1 "^" then (true, slice_from 1 chunk1)
              else (false, chunk1)) as [negated chunk2].
    destruct (parseRanges fuel chunk2 r false 0) as [[[chunk3 m]|e]|];
      [apply IH|done|done].
  - destruct (byte_eqb c "?").
    + destruct (if negb failed1 then _ else _) as [f1 s1]. apply IH.
    + destruct (byte_eqb c "\").
      * destruct chunk1 as [|c' chunk2]; [done|].
        destruct (if negb failed1 then _ else _) as [f1 s1]. apply IH.
      * destruct (if negb failed1 then _ else _) as [f1 s1]. apply IH.
Qed.

Lemma matchChunk_total chunk s :
  matchChunk_loop (S (len chunk)) chunk s false = Some (matchChunk chunk s).
Proof.
  unfold matchChunk.
  pose proof (matchChunk_loop_fuel (S (len chunk)) chunk s false ltac:(lia)).
  by destruct (matchChunk_loop (S (len chunk)) chunk s false).
Qed.

(** A chunk that matches somewhere is well formed. *)
Lemma matchChunk_no_error chunk s t ok :
  matchChunk chunk s = (t, ok, None) → (matchChunk chunk "").2 = None.
Proof.
  intros Hm.
  pose proof (matchChunk_loop_err (S (len chunk)) chunk s false) as H1.
  pose proof (matchChunk_loop_err (S (len chunk)) chunk "" false) as H2.
  rewrite !matchChunk_total in *. rewrite Hm in H1. simpl in *. congruence.
Qed.

Lemma matchChunk_ok chunk s t err :
  matchChunk chunk s = (t, true, err) → err = None.
Proof.
  intros Hm. pose proof (matchChunk_total chunk s) as Ht. rewrite Hm in Ht.
  by apply matchChunk_loop_ok in Ht.
Qed.

Lemma skipStars_spec pattern star :
  let '(pattern', star') := skipStars pattern star in
  (len pattern' ≤ len pattern)%nat
  ∧ head_is pattern' "*" = false
  ∧ (star' = star ∨ (len pattern' < len pattern)%nat).
Proof.
  revert star. induction pattern as [|c pattern IH]; intros star; simpl.
  - split_and!; [lia|done|by left].
  - destruct (byte_eqb c "*") eqn:Hc.
    + specialize (IH true). destruct (skipStars pattern true) as [p' s'].
      destruct IH as (? & ? & ?). split_and!; [lia|done|right; lia].
    + simpl. rewrite Hc. split_and!; [lia|done|by left].
Qed.

Lemma scanIndex_pos c pattern :
  byte_eqb c "*" = false → (0 < scanIndex (String c pattern) false)%nat.
Proof.
  intros Hc. cbn [scanIndex]. rewrite Hc.
  repeat case_match; lia.
Qed.

(** A chunk is taken off a pattern that is not empty. *)
Lemma scanChunk_shorter pattern star chunk rest :
  (0 < len pattern)%nat → scanChunk pattern = (star, chunk, rest) →
  (len rest < len pattern)%nat.
Proof.
  intros Hlen. unfold scanChunk.
  pose proof (skipStars_spec pattern false) as Hskip.
  destruct (skipStars pattern false) as [p' star'].
  destruct Hskip as (Hle & Hhead & Hstar).
  intros [= _ _ <-]. rewrite slice_from_len.
  destruct p' as [|c p'']; [simpl in *; lia|].
  pose proof (scanIndex_pos c p'' Hhead). simpl in *. lia.
Qed.

Lemma slice_to_len n s : len (slice_to n s) = (n `min` len s)%nat.
Proof.
  revert s. induction n as [|n IH]; intros [|c s]; simpl; try done.
  by rewrite IH.
Qed.

Lemma scanChunk_empty_chunk pattern star chunk rest :
  scanChunk pattern = (star, chunk, rest) → len chunk = 0%nat → rest = "".
Proof.
  unfold scanChunk.
  pose proof (skipStars_spec pattern false) as Hskip.
  destruct (skipStars pattern false) as [p' star'].
  destruct Hskip as (_ & Hhead & _).
  intros [= _ <- <-]. rewrite slice_to_len.
  destruct p' as [|c p'']; [done|].
  pose proof (scanIndex_pos c p'' Hhead). simpl in *. lia.
Qed.

Lemma checkRest_fuel fuel pattern :
  (len pattern < fuel)%nat → checkRest fuel pattern ≠ None.
Proof.
  revert pattern. induction fuel as [|fuel IH]; intros pattern Hlen; [lia|].
  cbn [checkRest]. destruct (0 <? len pattern)%nat eqn:Hpos; [|done].
  apply Nat.ltb_lt in Hpos.
  destruct (scanChunk pattern) as [[star chunk] rest] eqn:Hscan.
  apply scanChunk_shorter in Hscan; [|done].
  destruct (matchChunk chunk "") as [[t ok] [e|]]; [done|]. apply IH. lia.
Qed.

Lemma Match_loop_fuel fuel pattern name :
  (len pattern < fuel)%nat → Match_loop fuel pattern name ≠ None.
Proof.
  revert pattern name.
  induction fuel as [|fuel IH]; intros pattern name Hlen; [lia|].
  cbn [Match_loop]. destruct (0 <? len pattern)%nat eqn:Hpos; [|done].
  apply Nat.ltb_lt in Hpos.
  destruct (scanChunk pattern) as [[star chunk] rest] eqn:Hscan.
  apply scanChunk_shorter in Hscan; [|done].
  destruct (star && (len chunk =? 0)%nat); [done|].
  destruct (matchChunk chunk name) as [[t ok] err].
  destruct (ok && ((len t =? 0)%nat || (0 <? len rest)%nat)); [apply IH; lia|].
  destruct err as [e|]; [done|].
  pose proof (checkRest_fuel fuel rest ltac:(lia)) as Hc.
  destruct (checkRest fuel rest) as [[e|]|]; [| |done].
  - destruct star; [|done].
    destruct (starLoop chunk (len rest =? 0)%nat name); [apply IH; lia|done|done].
  - destruct star; [|done].
    destruct (starLoop chunk (len rest =? 0)%nat name); [apply IH; lia|done|done].
Qed.

Lemma Match_total pattern name :
  Match_loop (S (len pattern)) pattern name = Some (Match pattern name).
Proof.
  unfold Match.
  pose proof (Match_loop_fuel (S (len pattern)) pattern name ltac:(lia)).
  by destruct (Match_loop (S (len pattern)) pattern name).
Qed.

Lemma starLoop_found chunk last name t :
  starLoop chunk last name = StarFound t → ∃ s, matchChunk chunk s = (t, true, None).
Proof.
  induction name as [|c name IH]; cbn [starLoop]; [done|].
  destruct (byte_eqb c Separator); [done|].
  destruct (matchChunk chunk name) as [[t' ok] err] eqn:Hm.
  destruct ok.
  - destruct (last && (0 <? len t')%nat); [done|].
    intros [= <-]. exists name. by rewrite (matchChunk_ok _ _ _ _ Hm) in Hm.
  - by destruct err.
Qed.

(** A pattern that matches some name has passed the syntax check of
    [Match] chunk by chunk. *)
Lemma Match_loop_true fuel pattern name e :
  (len pattern < fuel)%nat →
  Match_loop fuel pattern name = Some (true, e) →
  e = None ∧ checkRest fuel pattern = Some None.
Proof.
  revert pattern name.
  induction fuel as [|fuel IH]; intros pattern name Hlen; [lia|].
  cbn [Match_loop checkRest].
  destruct (0 <? len pattern)%nat eqn:Hpos; [|by intros [= _ <-]].
  apply Nat.ltb_lt in Hpos.
  destruct (scanChunk pattern) as [[star chunk] rest] eqn:Hscan.
  pose proof (scanChunk_shorter _ _ _ _ Hpos Hscan) as Hrest.
  assert (Hvalid : ∀ s t ok, matchChunk chunk s = (t, ok, None) →
            ∀ name', Match_loop fuel rest name' = Some (true, e) →
            e = None ∧
            match matchChunk chunk "" with
            | (_, _, Some e0) => Some (Some e0)
            | (_, _, None) => checkRest fuel rest
            end = Some None).
  { intros s t ok Hm name' Hrec. apply matchChunk_no_error in Hm.
    destruct (matchChunk chunk "") as [[t0 ok0] err0]. simpl in Hm. subst err0.
    apply (IH rest name'); [lia|done]. }
  destruct (star && (len chunk =? 0)%nat) eqn:Hstar.
  { intros [= _ <-]. split; [done|].
    apply andb_true_iff in Hstar as [_ Hc%Nat.eqb_eq].
    rewrite (scanChunk_empty_chunk _ _ _ _ Hscan Hc).
    destruct chunk; [|done]. destruct fuel; [lia|done]. }
  destruct (matchChunk chunk name) as [[t ok] err] eqn:Hm.
  destruct (ok && ((len t =? 0)%nat || (0 <? len rest)%nat)) eqn:Hok.
  { apply andb_true_iff in Hok as [-> _].
    rewrite (matchChunk_ok _ _ _ _ Hm) in Hm. by apply (Hvalid name t true). }
  destruct err as [e'|]; [done|].
  assert (Hmis : match checkRest fuel rest with
                 | Some None => Some (false, nil_error)
                 | Some (Some e0) => Some (false, Some e0)
                 | None => None
                 end ≠ Some (true, e)).
  { by destruct (checkRest fuel rest) as [[?|]|]. }
  destruct star; [|done].
  destruct (starLoop chunk (len rest =? 0)%nat name) as [t'|e'|] eqn:Hstar';
    [|done|done].
  apply starLoop_found in Hstar' as [s Hs]. by apply (Hvalid s t' true).
Qed.

Lemma Match_true_well_formed pattern name e :
  Match pattern name = (true, e) → e = None ∧ well_formed pattern = true.
Proof.
  intros Hm. pose proof (Match_total pattern name) as Ht. rewrite Hm in Ht.
  apply Match_loop_true in Ht as [-> Hc]; [|lia].
  unfold well_formed. by rewrite Hc.
Qed.

Lemma ReplaceAll_same_byte c s :
  strings.ReplaceAll s (String c "") (String c "") = s.
Proof.
  unfold strings.ReplaceAll. induction s as [|a s IH]; [done|].
  cbn [strings.ReplaceAll_from strings.HasPrefix len String.length Nat.sub].
  replace (strings.HasPrefix s "") with true by (by destruct s).
  rewrite IH, andb_true_r. destruct (byte_eqb c a) eqn:Hc; [|done].
  apply Ascii.eqb_eq in Hc as ->. done.
Qed.

(** With a star in the pattern, [matchSubject] is [filepath.Match]
    with its errors turned into "no match". *)
Lemma matchSubject_glob pattern subject :
  strings.Contains pattern "*" = true →
  matchSubject pattern subject = true ↔ Match pattern subject = (true, None).
Proof.
  intros Hstar. unfold matchSubject. rewrite Hstar, ReplaceAll_same_byte. simpl.
  destruct (Match pattern subject) as [matched [e|]]; [done|].
  split; [by intros ->|by intros [= ->]].
Qed.

Lemma matchSubject_literal pattern subject :
  strings.Contains pattern "*" = false →
  matchSubject pattern subject = String.eqb pattern subject.
Proof. intros Hstar. unfold matchSubject. by rewrite Hstar. Qed.

Lemma matchSubject_malformed pattern subject :
  strings.Contains pattern "*" = true → well_formed pattern = false →
  matchSubject pattern subject = false.
Proof.
  intros Hstar Hbad. apply not_true_is_false. intros Hm.
  apply matchSubject_glob in Hm; [|done].
  apply Match_true_well_formed in Hm as [_ Hm]. congruence.
Qed.

End match_facts.

Section more_match_facts.
Import filepath.

Lemma matchChunk_err_indep chunk s s' : (matchChunk chunk s).2 = (matchChunk chunk s').2.
Proof.
  pose proof (matchChunk_loop_err (S (len chunk)) chunk s false) as H1.
  pose proof (matchChunk_loop_err (S (len chunk)) chunk s' false) as H2.
  rewrite !matchChunk_total in *. simpl in *. congruence.
Qed.

Lemma starLoop_error chunk last name e :
  starLoop chunk last name = StarError e →
  ∃ s t e0, matchChunk chunk s = (t, false, Some e0).
Proof.
  induction name as [|c name IH]; cbn [starLoop]; [done|].
  destruct (byte_eqb c Separator); [done|].
  destruct (matchChunk chunk name) as [[t' ok] err] eqn:Hm.
  destruct ok.
  - destruct (last && (0 <? len t')%nat); [done|done].
  - destruct err as [e0|]; [|done]. intros _. by exists name, t', e0.
Qed.

(** [Match] reports an error exactly for the patterns that fail its
    syntax check, whatever the name. *)
Lemma Match_loop_error fuel pattern name matched e :
  (len pattern < fuel)%nat →
  Match_loop fuel pattern name = Some (matched, e) →
  e = None ↔ checkRest fuel pattern = Some None.
Proof.
  revert pattern name.
  induction fuel as [|fuel IH]; intros pattern name Hlen; [lia|].
  cbn [Match_loop checkRest].
  destruct (0 <? len pattern)%nat eqn:Hpos; [|by intros [= _ <-]].
  apply Nat.ltb_lt in Hpos.
  destruct (scanChunk pattern) as [[star chunk] rest] eqn:Hscan.
  pose proof (scanChunk_shorter _ _ _ _ Hpos Hscan) as Hrest.
  destruct (star && (len chunk =? 0)%nat) eqn:Hstar.
  { intros [= _ <-]. split; [intros _|done].
    apply andb_true_iff in Hstar as [_ Hc%Nat.eqb_eq].
    rewrite (scanChunk_empty_chunk _ _ _ _ Hscan Hc).
    destruct chunk; [|done]. destruct fuel; [lia|done]. }
  destruct (matchChunk chunk name) as [[t ok] err] eqn:Hm.
  pose proof (matchChunk_err_indep chunk name "") as Herr. rewrite Hm in Herr.
  destruct (matchChunk chunk "") as [[t0 ok0] err0]. simpl in Herr. subst err0.
  destruct (ok && ((len t =? 0)%nat || (0 <? len rest)%nat)) eqn:Hok.
  { apply andb_true_iff in Hok as [-> _].
    rewrite (matchChunk_ok _ _ _ _ Hm). apply IH. lia. }
  destruct err as [e'|]; [by intros [= _ <-]|].
  assert (Hmis : match checkRest fuel rest with
                 | Some None => Some (false, nil_error)
                 | Some (Some e0) => Some (false, Some e0)
                 | None => None
                 end = Some (matched, e) →
                 e = None ↔ checkRest fuel rest = Some None).
  { destruct (checkRest fuel rest) as [[?|]|]; [| |done]; by intros [= _ <-]. }
  destruct star; [|done].
  destruct (starLoop chunk (len rest =? 0)%nat name) as [t'|e'|] eqn:Hstar';
    [|intros _|done].
  - apply IH. lia.
  - apply starLoop_error in Hstar' as (s & t' & e0 & Hs).
    pose proof (matchChunk_err_indep chunk s name) as Hc.
    rewrite Hs, Hm in Hc. done.
Qed.

Lemma Match_error_iff pattern name :
  (Match pattern name).2 = None ↔ well_formed pattern = true.
Proof.
  pose proof (Match_total pattern name) as Ht.
  destruct (Match pattern name) as [matched e] eqn:Hm. simpl.
  rewrite (Match_loop_error (S (len pattern)) pattern name matched e ltac:(lia) Ht). unfold well_formed.
  destruct (checkRest (S (len pattern)) pattern) as [[?|]|]; naive_solver.
Qed.

(** A pattern with a star for which [Match] reports an error, on any
name, matches no subject. *)
Lemma matchSubject_error pattern name subject :
  strings.Contains pattern "*" = true →
  (Match pattern name).2 ≠ None →
  matchSubject pattern subject = false.
Proof.
  intros Hstar Herr. apply matchSubject_malformed; [done|].
  apply not_true_is_false. by rewrite <- (Match_error_iff pattern name).
Qed.

End more_match_facts.

(** C10. A pattern without a star is compared with the subject as a
    string, so that the question mark and the opening bracket stand for
    themselves; a pattern with a star goes to the path glob as a whole,
    where the question mark and classes in brackets are at work too; and
    a pattern with a star that the glob finds malformed, such as one
    with an open bracket, matches no subject, the error being taken for
    a mismatch. *)
Theorem glob_metacharacters :
  (∀ pattern subject,
     strings.Contains pattern "*" = false →
     matchSubject pattern subject = String.eqb pattern subject)
  ∧ matchSubject "a.?" "a.b" = false ∧ matchSubject "a.?" "a.?" = true
  ∧ matchSubject "a.[bc]" "a.b" = false ∧ matchSubject "a.[bc]" "a.[bc]" = true
  ∧ (∀ pattern subject,
       strings.Contains pattern "*" = true →
       matchSubject pattern subject = true
       ↔ filepath.Match pattern subject = (true, None))
  ∧ matchSubject "*.?" "a.b" = true ∧ matchSubject "*.?" "a.?" = true
  ∧ matchSubject "*.[bc]" "a.b" = true ∧ matchSubject "*.[bc]" "a.[bc]" = false
  ∧ (∀ pattern subject,
       strings.Contains pattern "*" = true → well_formed pattern = false →
       matchSubject pattern subject = false)
  ∧ (∀ pattern name subject,
       strings.Contains pattern "*" = true →
       (filepath.Match pattern name).2 ≠ None →
       matchSubject pattern subject = false)
  ∧ well_formed "app.*.[abc" = false
  ∧ filepath.Match "app.*.[abc" "app.user.a" = (false, filepath.ErrBadPattern)
  ∧ (∀ subject, matchSubject "app.*.[abc" subject = false).
Proof.
  assert (Hbad : well_formed "app.*.[abc" = false) by (vm_compute; reflexivity).
  split_and!.
  - apply matchSubject_literal.
  - vm_compute; reflexivity.
  - vm_compute; reflexivity.
  - vm_compute; reflexivity.
  - vm_compute; reflexivity.
  - apply matchSubject_glob.
  - vm_compute; reflexivity.
  - vm_compute; reflexivity.
  - vm_compute; reflexivity.
  - vm_compute; reflexivity.
  - apply matchSubject_malformed.
  - apply matchSubject_error.
  - exact Hbad.
  - vm_compute; reflexivity.
  - intros subject. by apply matchSubject_malformed.
Qed.

Lemma glob_metacharacters_witness :
  strings.Contains "*.[" "*" = true ∧ well_formed "*.[" = false
  ∧ matchSubject "*.[" "a.[" = false.
Proof.
  assert (Hstar : strings.Contains "*.[" "*" = true) by (vm_compute; reflexivity).
  assert (Hbad : well_formed "*.[" = false) by (vm_compute; reflexivity).
  split_and!; [done..|].
  destruct glob_metacharacters as (_ & _ & _ & _ & _ & _ & _ & _ & _ & _ & H & _).
  exact (H "*.[" "a.[" Hstar Hbad).
Defined.

(** C1 (the code departs from the rule).  The five subjects named with
    the pattern "app.*.created" come out as the rule says; but the star
    of [matchSubject] also matches across dots and matches an empty
    segment, where the rule of the specification has no match. *)
Theorem matchSubject_crosses_segments :
  matchSubject "app.*.created" "app.user.created" = true
  ∧ matchSubject "app.*.created" "app.order.created" = true
  ∧ matchSubject "app.*.created" "app.user.updated" = false
  ∧ matchSubject "app.*.created" "user.created" = false
  ∧ matchSubject "app.*.created" "app.user.created.v2" = false
  ∧ matchSubject "app.*.created" "app.user.profile.created" = true
  ∧ spec_matchSubject "app.*.created" "app.user.profile.created" = false
  ∧ matchSubject "app.*.created" "app..created" = true
  ∧ spec_matchSubject "app.*.created" "app..created" = false.
Proof. split_and!; vm_compute; reflexivity. Qed.

(** ** Handler errors *)

(** In [Publish] the errors of the handlers are dropped: on a bus in
    order, a publish with a subject and an event returns nil after all
    the calls of its plan, which is made up without running a handler. *)
Lemma Publish_isolates_failures {Ctx Event World : Type} n sch
    (b : @MemoryBus Ctx Event World) ctx subject e w :
  bus_within n b = true → n < max_int → subject ≠ "" →
  ∃ b' w',
    Publish sch b ctx subject (Some e) w
    = Returned b' w' (dispatch_plan sch b subject) None.
Proof.
  intros [Hn Hinv]%bus_within_spec Hlt Hs.
  destruct (Publish_run n sch b ctx subject e w Hinv Hlt Hs) as (idx' & Hrun & _).
  by eexists _, _.
Qed.

(** C2 (the older variant departs from it).  With a first broadcast
    handler that fails, [Publish] calls both handlers and returns nil,
    whereas the older [Publish] returns the error after the first call
    and never calls the second handler; the same in group mode, where
    the failure of the handler of one group keeps the next group from
    being served. *)
Theorem publish_part002_stops_at_first_error :
  Publish any_order bus_failing () "test.error" (Some "e") []
  = Returned bus_failing [1%nat; 2%nat]
      [mkCall "test.error" None 0 (log_handler 1 true);
       mkCall "test.error" None 1 (log_handler 2 false)]
      None
  ∧ Publish_part002 any_order bus_failing () "test.error" (Some "e") []
    = Returned bus_failing [1%nat]
        [mkCall "test.error" None 0 (log_handler 1 true)]
        (Some "handler error: failed")
  ∧ (∃ b', Publish a_then_b bus_failing () "test.group" (Some "e") []
           = Returned b' [3%nat; 4%nat]
               [mkCall "test.group" (Some "a") 0 (log_handler 3 true);
                mkCall "test.group" (Some "b") 0 (log_handler 4 false)]
               None)
  ∧ (∃ b', Publish_part002 a_then_b bus_failing () "test.group" (Some "e") []
           = Returned b' [3%nat]
               [mkCall "test.group" (Some "a") 0 (log_handler 3 true)]
               (Some "group handler error: failed")).
Proof.
  split_and!.
  - vm_compute. reflexivity.
  - vm_compute. reflexivity.
  - eexists. vm_compute. reflexivity.
  - eexists. vm_compute. reflexivity.
Qed.

(** ** The theorems at work on the example bus *)

(** Three publishes on the example bus serve the group "workers" in
    turn: handler 3, handler 4, handler 3. *)
Lemma group_round_robin_witness :
  bus_within 0 bus_example = true
  ∧ 0 + Z.of_nat (List.length requests_example) ≤ max_int
  ∧ group_handlers bus_example "app.*.created" "workers"
    = [log_handler 3 false; log_handler 4 false]
  ∧ cursor (groupIndex bus_example) "app.*.created" "workers" = 0
  ∧ Forall (matching_request "app.*.created") requests_example
  ∧ ∃ b' w' logs,
      PublishSeq bus_example () requests_example [] = Some (b', w', logs)
      ∧ calls_for "app.*.created" (Some "workers") <$> logs
        = [[mkCall "app.*.created" (Some "workers") 0 (log_handler 3 false)];
           [mkCall "app.*.created" (Some "workers") 1 (log_handler 4 false)];
           [mkCall "app.*.created" (Some "workers") 0 (log_handler 3 false)]].
Proof.
  assert (Hok : bus_within 0 bus_example = true) by (vm_compute; reflexivity).
  assert (Hlen : 0 + Z.of_nat (List.length requests_example) ≤ max_int)
    by (vm_compute; discriminate).
  assert (Hhs : group_handlers bus_example "app.*.created" "workers"
                = [log_handler 3 false; log_handler 4 false])
    by (vm_compute; reflexivity).
  assert (Hc : cursor (groupIndex bus_example) "app.*.created" "workers" = 0)
    by (vm_compute; reflexivity).
  assert (Hreqs : Forall (matching_request "app.*.created") requests_example).
  { repeat constructor; vm_compute; eauto; discriminate. }
  split_and!; [done..|].
  destruct (proj2 (group_round_robin 0 bus_example () "app.*.created" "workers" Hok)
              requests_example [] _ _ Hlen Hhs Hc Hreqs)
    as (b' & w' & logs & Hrun & Hlogs & _).
  exists b', w', logs. split; [exact Hrun | exact Hlogs].
Defined.

Lemma publish_validation_witness :
  bus_within 0 bus_example = true ∧ 0 < max_int
  ∧ ∃ msg, Publish any_order bus_example () "" (Some "e") []
           = Returned bus_example [] [] (Some msg).
Proof.
  assert (Hok : bus_within 0 bus_example = true) by (vm_compute; reflexivity).
  assert (Hlt : 0 < max_int) by (vm_compute; reflexivity).
  split_and!; [done..|].
  apply (proj1 (proj2 (publish_validation 0 any_order bus_example () ""
                         (Some "e") [] Hok Hlt))).
  left. reflexivity.
Defined.

Lemma broadcast_in_registration_order_witness :
  bus_within 0 (@NewMemoryBus unit string (list nat)) = true ∧ 0 < max_int
  ∧ "app.*.created" ≠ "" ∧ "app.user.created" ≠ ""
  ∧ matchSubject "app.*.created" "app.user.created" = true
  ∧ ∃ b' w' calls,
      Publish any_order
              (subscribe_all NewMemoryBus "app.*.created"
                 [log_handler 1 true; log_handler 2 false])
              () "app.user.created" (Some "e") []
        = Returned b' w' calls None
      ∧ call_handler <$> calls_for "app.*.created" None calls
        = [log_handler 1 true; log_handler 2 false].
Proof.
  assert (Hok : bus_within 0 (@NewMemoryBus unit string (list nat)) = true)
    by (vm_compute; reflexivity).
  assert (Hlt : 0 < max_int) by (vm_compute; reflexivity).
  assert (Hp : "app.*.created" ≠ "") by discriminate.
  assert (Hs : "app.user.created" ≠ "") by discriminate.
  assert (Hm : matchSubject "app.*.created" "app.user.created" = true)
    by (vm_compute; reflexivity).
  split_and!; [done..|].
  apply (proj2 (proj2 (broadcast_in_registration_order 0 any_order NewMemoryBus ()
                         "app.user.created" "e" [] "app.*.created"
                         [log_handler 1 true; log_handler 2 false]
                         Hok Hlt Hp Hs Hm))).
Defined.

Lemma close_resets_witness :
  "app.user.created" ≠ "" ∧ "app.*.created" ≠ ""
  ∧ matchSubject "app.*.created" "app.user.created" = true
  ∧ Publish any_order (Close bus_example).1 () "app.user.created" (Some "e") []
    = Returned NewMemoryBus [] [] None.
Proof.
  assert (Hp : "app.*.created" ≠ "") by discriminate.
  assert (Hs : "app.user.created" ≠ "") by discriminate.
  assert (Hm : matchSubject "app.*.created" "app.user.created" = true)
    by (vm_compute; reflexivity).
  split_and!; [done..|].
  apply (proj1 (proj2 (close_resets any_order bus_example () "app.user.created" "e"
                         [] "app.*.created" (log_handler 7 false) Hs Hp Hm))).
Defined.

Lemma subscribe_validation_witness :
  (SubscribeWithHandlerGroup bus_example "orders.created" ""
     (Some (log_handler 9 false))).2 = Some "group is required".
Proof.
  apply (subscribe_validation bus_example "orders.created" ""
           (Some (log_handler 9 false))); [discriminate | reflexivity].
Defined.

Lemma groups_independent_witness :
  bus_within 0 bus_example = true ∧ 0 < max_int ∧ "app.user.created" ≠ ""
  ∧ matchSubject "app.*.created" "app.user.created" = true
  ∧ "workers" ≠ "audit"
  ∧ group_handlers bus_example "app.*.created" "workers" ≠ []
  ∧ group_handlers bus_example "app.*.created" "audit" ≠ []
  ∧ ∃ b' w' calls c1 c2,
      Publish any_order bus_example () "app.user.created" (Some "e") []
        = Returned b' w' calls None
      ∧ calls_for "app.*.created" (Some "workers") calls = [c1]
      ∧ calls_for "app.*.created" (Some "audit") calls = [c2].
Proof.
  assert (Hok : bus_within 0 bus_example = true) by (vm_compute; reflexivity).
  assert (Hlt : 0 < max_int) by (vm_compute; reflexivity).
  assert (Hs : "app.user.created" ≠ "") by discriminate.
  assert (Hm : matchSubject "app.*.created" "app.user.created" = true)
    by (vm_compute; reflexivity).
  assert (Hne : "workers" ≠ "audit") by discriminate.
  assert (H1 : group_handlers bus_example "app.*.created" "workers" ≠ [])
    by (vm_compute; discriminate).
  assert (H2 : group_handlers bus_example "app.*.created" "audit" ≠ [])
    by (vm_compute; discriminate).
  split_and!; [done..|].
  destruct (groups_independent 0 any_order bus_example () "app.user.created" "e" []
              "app.*.created" "workers" "audit" Hok Hlt Hs Hm Hne H1 H2)
    as (b' & w' & calls & c1 & c2 & Hrun & Hc1 & Hc2 & _).
  exists b', w', calls, c1, c2.
  split; [exact Hrun|]. split; [exact Hc1 | exact Hc2].
Defined.

Lemma empty_group_skipped_witness :
  bus_within 0 bus_example = true ∧ 0 < max_int ∧ "app.user.created" ≠ ""
  ∧ group_handlers bus_example "app.*.created" "nobody" = []
  ∧ ∃ b' w' calls,
      Publish any_order bus_example () "app.user.created" (Some "e") []
        = Returned b' w' calls None
      ∧ calls_for "app.*.created" (Some "nobody") calls = []
      ∧ cursor (groupIndex b') "app.*.created" "nobody" = 0.
Proof.
  assert (Hok : bus_within 0 bus_example = true) by (vm_compute; reflexivity).
  assert (Hlt : 0 < max_int) by (vm_compute; reflexivity).
  assert (Hs : "app.user.created" ≠ "") by discriminate.
  assert (Hhs : group_handlers bus_example "app.*.created" "nobody" = [])
    by (vm_compute; reflexivity).
  split_and!; [done..|].
  destruct (empty_group_skipped 0 any_order bus_example () "app.user.created" "e" []
              "app.*.created" "nobody" Hok Hlt Hs)
    as (b' & w' & calls & Hrun & Hempty & _).
  destruct (Hempty Hhs) as [Hcalls Hcur].
  exists b', w', calls. split; [exact Hrun|]. split; [exact Hcalls|].
  rewrite Hcur. vm_compute. reflexivity.
Defined.

(** * Further properties of the bus *)
Section bus_more.
Context {Ctx Event World : Type}.
Local Abbreviation EventHandler := (@EventHandler Ctx Event World).
Local Abbreviation MemoryBus := (@MemoryBus Ctx Event World).
Local Abbreviation Call := (@Call Ctx Event World).
Local Abbreviation Dispatch := (@Dispatch Ctx Event World).
Implicit Types (b : MemoryBus) (h : EventHandler) (hs : list EventHandler).
Implicit Types (handler : option EventHandler) (st : Dispatch).

Lemma Publish_registries sch b ctx subject event w b' w' calls err :
  Publish sch b ctx subject event w = Returned b' w' calls err →
  handlers b' = handlers b ∧ groups b' = groups b.
Proof.
  unfold Publish. destruct (decide (subject = "")); [by intros [= <- _ _ _]|].
  destruct (decide (event = None)); [by intros [= <- _ _ _]|].
  destruct (for_each _ _ _) as [st1|]; [|done].
  destruct (for_each _ _ _) as [st2|]; [|done].
  by intros [= <- _ _ _].
Qed.

(** X1. A bus made by the operations never makes [Publish] panic, as long
    as fewer than [max_int] publishes went before. *)
Theorem Publish_never_panics n b sch ctx subject event w :
  reachable n b → n < max_int →
  ∃ b' w' calls err,
    Publish sch b ctx subject event w = Returned b' w' calls err
    ∧ handlers b' = handlers b ∧ groups b' = groups b.
Proof.
  intros Hr Hn. destruct (reachable_bus_inv n b Hr) as [_ Hinv]; [lia|].
  assert (∃ b' w' calls err,
            Publish sch b ctx subject event w = Returned b' w' calls err)
    as (b' & w' & calls & err & Hrun).
  { destruct (decide (subject = "")) as [Hs|Hs].
    - unfold Publish. rewrite decide_True by done. by eexists _, _, _, _.
    - destruct event as [e|].
      + destruct (Publish_run n sch b ctx subject e w Hinv Hn Hs) as (idx' & Hrun & _).
        by eexists _, _, _, _.
      + unfold Publish. rewrite decide_False by done. rewrite decide_True by done.
        by eexists _, _, _, _. }
  exists b', w', calls, err. split; [done|]. by eapply Publish_registries.
Qed.

Lemma registries_sound_new : registries_sound (@NewMemoryBus Ctx Event World).
Proof.
  unfold registries_sound, NewMemoryBus. cbn [handlers groups].
  split_and!; intros *; by rewrite lookup_empty.
Qed.

Lemma registries_sound_Subscribe b subject handler :
  registries_sound b → registries_sound (Subscribe b subject handler).1.
Proof.
  intros (Hh & Hg & Hgg). unfold Subscribe.
  destruct (decide (subject = "")) as [|Hs]; [done|].
  destruct handler as [h|]; [|done]. split_and!; cbn [fst handlers groups]; [|done..].
  intros p hs. destruct (decide (p = subject)) as [->|Hp].
  - rewrite lookup_insert_eq. intros [= <-]. split; [done|].
    by destruct (default [] (handlers b !! subject)).
  - rewrite lookup_insert_ne by done. apply Hh.
Qed.

Lemma registries_sound_SubscribeWithHandlerGroup b subject group handler :
  registries_sound b →
  registries_sound (SubscribeWithHandlerGroup b subject group handler).1.
Proof.
  intros (Hh & Hg & Hgg). unfold SubscribeWithHandlerGroup.
  destruct (decide (subject = "")) as [|Hs]; [done|].
  destruct (decide (group = "")) as [|Hgr]; [done|].
  destruct handler as [h|]; [|done].
  set (groups1 := match groups b !! subject with
                  | Some _ => groups b
                  | None => <[subject:=∅]> (groups b)
                  end).
  set (inner := default ∅ (groups1 !! subject)).
  assert (Hinner : ∀ g hs, inner !! g = Some hs → g ≠ "" ∧ hs ≠ []).
  { intros g hs. unfold inner, groups1.
    destruct (groups b !! subject) as [gm|] eqn:E.
    - rewrite E. simpl. by apply (Hgg subject gm).
    - rewrite lookup_insert_eq. simpl. by rewrite lookup_empty. }
  assert (Hother : ∀ p, p ≠ subject → groups1 !! p = groups b !! p).
  { intros p Hp. unfold groups1. destruct (groups b !! subject); [done|].
    by rewrite lookup_insert_ne. }
  split_and!; cbn [fst handlers groups]; [done| |].
  - intros p gm. destruct (decide (p = subject)) as [->|Hp].
    + rewrite lookup_insert_eq. intros [= <-]. split; [done|].
      apply insert_non_empty.
    + rewrite lookup_insert_ne, Hother by done. apply Hg.
  - intros p gm g hs. destruct (decide (p = subject)) as [->|Hp].
    + rewrite lookup_insert_eq. intros [= <-].
      destruct (decide (g = group)) as [->|Hne].
      * rewrite lookup_insert_eq. intros [= <-]. split; [done|].
        by destruct (default [] (inner !! group)).
      * rewrite lookup_insert_ne by done. apply Hinner.
    + rewrite lookup_insert_ne, Hother by done. apply Hgg.
Qed.

(** X2. Whatever the operations that led to it, a bus holds no empty
    pattern, no empty group name and no empty slice: the guard of
    [Publish] against a group without handlers never fires. *)
Theorem reachable_registries_sound n b : reachable n b → registries_sound b.
Proof.
  induction 1 as [|n b subject handler _ IH|n b subject group handler _ IH
                  |n b _ IH|n b sch ctx subject event w b' w' calls err _ IH Hrun].
  - apply registries_sound_new.
  - by apply registries_sound_Subscribe.
  - by apply registries_sound_SubscribeWithHandlerGroup.
  - apply registries_sound_new.
  - apply Publish_registries in Hrun as [Hh Hg].
    unfold registries_sound. by rewrite Hh, Hg.
Qed.

(** X3. A valid [SubscribeWithHandlerGroup] puts the handler at the end of
    its group and changes nothing else: the other groups, the broadcast
    registry and every cursor (that of the group too) stay as they are. *)
Theorem SubscribeWithHandlerGroup_appends b subject group h :
  subject ≠ "" → group ≠ "" →
  let b' := (SubscribeWithHandlerGroup b subject group (Some h)).1 in
  (SubscribeWithHandlerGroup b subject group (Some h)).2 = None
  ∧ group_handlers b' subject group = group_handlers b subject group ++ [h]
  ∧ (∀ p g, (p, g) ≠ (subject, group) →
       group_handlers b' p g = group_handlers b p g)
  ∧ (∀ p g, cursor (groupIndex b') p g = cursor (groupIndex b) p g)
  ∧ handlers b' = handlers b.
Proof.
  intros Hs Hg. cbv zeta. unfold SubscribeWithHandlerGroup.
  rewrite (decide_False (P := subject = "")) by done.
  rewrite (decide_False (P := group = "")) by done.
  cbn [fst snd handlers groups groupIndex].
  set (groups1 := match groups b !! subject with
                  | Some _ => groups b
                  | None => <[subject:=∅]> (groups b)
                  end).
  set (inner := default ∅ (groups1 !! subject)).
  assert (Hinner : ∀ g, inner !! g = groups b !! subject ≫= (.!! g)).
  { intros g. unfold inner, groups1.
    destruct (groups b !! subject) as [gm|] eqn:E.
    - by rewrite E.
    - rewrite lookup_insert_eq. simpl. by rewrite lookup_empty. }
  assert (Hother : ∀ p, p ≠ subject → groups1 !! p = groups b !! p).
  { intros p Hp. unfold groups1. destruct (groups b !! subject); [done|].
    by rewrite lookup_insert_ne. }
  split_and!; [done| | | |done].
  - unfold group_handlers. cbn [groups]. rewrite lookup_insert_eq. simpl.
    rewrite lookup_insert_eq. simpl. by rewrite Hinner.
  - intros p g Hne. unfold group_handlers. cbn [groups].
    destruct (decide (p = subject)) as [->|Hp].
    + rewrite lookup_insert_eq. simpl.
      rewrite lookup_insert_ne by congruence. by rewrite Hinner.
    + rewrite lookup_insert_ne by done. by rewrite Hother.
  - intros p g. unfold cursor. destruct (groupIndex b !! subject) eqn:E; [done|].
    destruct (decide (p = subject)) as [->|Hp].
    + rewrite lookup_insert_eq, E. simpl. by rewrite lookup_empty.
    + by rewrite lookup_insert_ne.
Qed.

(** X4. In a publish every call of the broadcast pass comes before every
    call of the group pass. *)
Theorem broadcast_before_groups n sch b ctx subject e w :
  bus_within n b = true → n < max_int → subject ≠ "" →
  ∃ b' w' calls1 calls2,
    Publish sch b ctx subject (Some e) w = Returned b' w' (calls1 ++ calls2) None
    ∧ Forall is_broadcast_call calls1
    ∧ Forall is_group_call calls2.
Proof.
  intros [Hn Hinv]%bus_within_spec Hlt Hs.
  destruct (Publish_run n sch b ctx subject e w Hinv Hlt Hs) as (idx' & Hrun & _).
  eexists _, _, _, _. split; [exact Hrun|]. split.
  - apply Forall_forall. intros c Hc.
    apply list_elem_of_In, in_flat_map in Hc as ([p hs] & _ & Hc).
    apply list_elem_of_In, elem_of_broadcast_plan in Hc. apply Hc.
  - apply Forall_forall. intros c Hc.
    apply list_elem_of_In, in_flat_map in Hc as ([p gm] & _ & Hc).
    apply list_elem_of_In, elem_of_groups_plan in Hc.
    destruct Hc as (_ & _ & g & hs & Hg & _). unfold is_group_call. by rewrite Hg.
Qed.

Lemma flat_map_pointwise_Permutation {A B : Type} (f g : A → list B) (l : list A) :
  (∀ x, x ∈ l → f x ≡ₚ g x) → flat_map f l ≡ₚ flat_map g l.
Proof.
  induction l as [|x l IH]; intros Hfg; simpl; [done|].
  apply Permutation_app; [apply Hfg; left|]. apply IH. intros ??. apply Hfg. by right.
Qed.

Lemma flat_map_Permutation {A B : Type} (f g : A → list B) (l l' : list A) :
  l ≡ₚ l' → (∀ x, x ∈ l → f x ≡ₚ g x) → flat_map f l ≡ₚ flat_map g l'.
Proof.
  intros Hl Hfg. rewrite (flat_map_pointwise_Permutation f g l Hfg).
  by apply Permutation_flat_map.
Qed.

(** X5. The order in which Go walks the maps changes the order of the calls
    of a publish and nothing else: the same calls are made, and every
    cursor ends at the same value. *)
Theorem Publish_order_independent n sch1 sch2 b ctx subject e w :
  bus_within n b = true → n < max_int → subject ≠ "" →
  ∃ b1 w1 calls1 b2 w2 calls2,
    Publish sch1 b ctx subject (Some e) w = Returned b1 w1 calls1 None
    ∧ Publish sch2 b ctx subject (Some e) w = Returned b2 w2 calls2 None
    ∧ calls1 ≡ₚ calls2
    ∧ handlers b1 = handlers b2 ∧ groups b1 = groups b2
    ∧ ∀ p g, cursor (groupIndex b1) p g = cursor (groupIndex b2) p g.
Proof.
  intros [Hn Hinv]%bus_within_spec Hlt Hs.
  destruct (Publish_run n sch1 b ctx subject e w Hinv Hlt Hs)
    as (idx1 & Hrun1 & Hcur1 & _).
  destruct (Publish_run n sch2 b ctx subject e w Hinv Hlt Hs)
    as (idx2 & Hrun2 & Hcur2 & _).
  eexists _, _, _, _, _, _. split; [exact Hrun1|]. split; [exact Hrun2|].
  cbn [handlers groups groupIndex]. split_and!; [|done|done|].
  - unfold dispatch_plan. apply Permutation_app.
    + apply Permutation_flat_map. by rewrite !range_by_Permutation.
    + apply flat_map_Permutation; [by rewrite !range_by_Permutation|].
      intros [p gm] _. unfold groups_plan. cbn [fst snd].
      destruct (matchSubject p subject); [|done].
      apply Permutation_flat_map. by rewrite !range_by_Permutation.
  - intros p g. by rewrite Hcur1, Hcur2.
Qed.

(** Publishes in a row, seen from one group: the calls for the group
    and where its cursor ends. *)
Lemma PublishSeq_group_cursor n b ctx reqs w p g :
  bus_inv n b → n + Z.of_nat (List.length reqs) ≤ max_int →
  group_handlers b p g ≠ [] →
  Forall (matching_request p) reqs →
  ∃ b' w' logs,
    PublishSeq b ctx reqs w = Some (b', w', logs)
    ∧ calls_for p (Some g) <$> logs
      = (λ k, serve p g (group_handlers b p g)
                    (cursor (groupIndex b) p g + Z.of_nat k))
        <$> seq 0 (List.length reqs)
    ∧ cursor (groupIndex b') p g
      = cursor (groupIndex b) p g + Z.of_nat (List.length reqs)
    ∧ groups b' = groups b ∧ handlers b' = handlers b.
Proof.
  revert n b w. induction reqs as [|[[sch subject] event] reqs IH];
    intros n b w Hinv Hn Hhs Hreqs.
  - exists b, w, []. simpl. split_and!; [done..|lia|done|done].
  - apply Forall_cons in Hreqs as [(Hs & [e He] & Hm) Hreqs]. simpl in *.
    subst event.
    destruct (Publish_group n sch b ctx subject e w p g Hinv)
      as (b1 & w1 & calls & Hrun & Hhandlers & Hgroups & Hcalls & Hcur); [lia|done|].
    rewrite Hm in Hcalls. rewrite dispatched_true in Hcur by done.
    assert (Hsame : group_handlers b1 p g = group_handlers b p g).
    { unfold group_handlers. by rewrite Hgroups. }
    destruct (IH (n + 1) b1 w1) as (b' & w' & logs & Hseq & Hlogs & Hend & Hg' & Hh').
    { eapply Publish_bus_inv; [exact Hinv|lia|exact Hrun]. }
    { lia. }
    { by rewrite Hsame. }
    { done. }
    rewrite Hrun, Hseq. exists b', w', (calls :: logs).
    split_and!; [done| |lia|congruence|congruence].
    rewrite fmap_cons, Hcalls, Hlogs, selected_serve, Z.add_0_r. f_equal.
    rewrite <- fmap_S_seq, <- list_fmap_compose. apply list_fmap_ext.
    intros _ k _. simpl. rewrite Hsame, Hcur. f_equal. lia.
Qed.

Lemma serve_index p g hs (c : Z) :
  0 ≤ c → hs ≠ [] →
  call_index <$> serve p g hs c = [Z.to_nat (c `mod` Z.of_nat (List.length hs))].
Proof.
  intros Hc Hhs. unfold serve.
  assert (0 < Z.of_nat (List.length hs)) by (destruct hs; [done|simpl; lia]).
  rewrite Z.rem_mod_nonneg by lia.
  destruct (lookup_lt_is_Some_2 hs (Z.to_nat (c `mod` Z.of_nat (List.length hs))))
    as [h ->]; [|done].
  pose proof (Z.mod_pos_bound c (Z.of_nat (List.length hs))). lia.
Qed.

(** The numbers [(c + k) mod K] for [k < K] are the numbers below [K],
    each one once. *)
Lemma window_Permutation (c : Z) (K : nat) :
  0 ≤ c →
  (λ k : nat, Z.to_nat ((c + Z.of_nat k) `mod` Z.of_nat K)) <$> seq 0 K ≡ₚ seq 0 K.
Proof.
  intros Hc. destruct (decide (K = 0%nat)) as [->|HK]; [done|].
  assert (HK' : 0 < Z.of_nat K) by lia.
  apply submseteq_length_Permutation; [|by rewrite length_fmap].
  apply NoDup_submseteq.
  - apply NoDup_fmap_2_strong; [|apply NoDup_seq].
    intros k1 k2 [_ H1]%elem_of_seq [_ H2]%elem_of_seq Heq.
    pose proof (Z.mod_pos_bound (c + Z.of_nat k1) (Z.of_nat K) HK').
    pose proof (Z.mod_pos_bound (c + Z.of_nat k2) (Z.of_nat K) HK').
    assert (Heq' : (c + Z.of_nat k1) `mod` Z.of_nat K
                   = (c + Z.of_nat k2) `mod` Z.of_nat K) by lia.
    pose proof (Z.div_mod (c + Z.of_nat k1) (Z.of_nat K) ltac:(lia)) as E1.
    pose proof (Z.div_mod (c + Z.of_nat k2) (Z.of_nat K) ltac:(lia)) as E2.
    rewrite Heq' in E1.
    assert ((c + Z.of_nat k1) `div` Z.of_nat K = (c + Z.of_nat k2) `div` Z.of_nat K)
      by nia.
    lia.
  - intros i (k & -> & _)%list_elem_of_fmap. apply elem_of_seq.
    pose proof (Z.mod_pos_bound (c + Z.of_nat k) (Z.of_nat K) HK'). lia.
Qed.

(** X6. Round robin for a group of any size: from a cursor [c], publishes
    in a row call the handlers at [c mod K], [(c+1) mod K], ..., and the
    cursor ends [N] higher; over [K] publishes in a row every handler of
    the group is called exactly once. *)
Theorem round_robin_window n b ctx reqs w p g :
  bus_within n b = true → n + Z.of_nat (List.length reqs) ≤ max_int →
  group_handlers b p g ≠ [] →
  Forall (matching_request p) reqs →
  let K := List.length (group_handlers b p g) in
  let c := cursor (groupIndex b) p g in
  ∃ b' w' logs,
    PublishSeq b ctx reqs w = Some (b', w', logs)
    ∧ call_index <$> concat (calls_for p (Some g) <$> logs)
      = (λ k : nat, Z.to_nat ((c + Z.of_nat k) `mod` Z.of_nat K))
        <$> seq 0 (List.length reqs)
    ∧ cursor (groupIndex b') p g = c + Z.of_nat (List.length reqs)
    ∧ (List.length reqs = K →
       call_index <$> concat (calls_for p (Some g) <$> logs) ≡ₚ seq 0 K).
Proof.
  intros [Hn Hinv]%bus_within_spec Hlen Hhs Hreqs. cbv zeta.
  destruct (PublishSeq_group_cursor n b ctx reqs w p g Hinv Hlen Hhs Hreqs)
    as (b' & w' & logs & Hrun & Hlogs & Hend & _).
  assert (Hc : 0 ≤ cursor (groupIndex b) p g) by apply Hinv.
  assert (Hidx : call_index <$> concat (calls_for p (Some g) <$> logs)
                 = (λ k : nat, Z.to_nat ((cursor (groupIndex b) p g + Z.of_nat k)
                                         `mod` Z.of_nat (List.length (group_handlers b p g))))
                   <$> seq 0 (List.length reqs)).
  { rewrite Hlogs. clear Hlogs Hrun Hend Hlen Hreqs.
    induction (seq 0 (List.length reqs)) as [|k ks IH]; [done|].
    rewrite !fmap_cons. cbn [concat]. rewrite fmap_app, IH.
    rewrite serve_index by (done || lia). done. }
  exists b', w', logs. split_and!; [done..|].
  intros HK. rewrite Hidx, HK. by apply window_Permutation.
Qed.

End bus_more.

(** * Further properties of the matcher *)
Section single_star.
Import filepath.
Local Open Scope string_scope.

Lemma len_app a b : len (a ++ b) = (len a + len b)%nat.
Proof. induction a as [|c a IH]; simpl; [done|]. by rewrite IH. Qed.

Lemma slice_to_app x r : slice_to (len x) (x ++ r) = x.
Proof. induction x as [|c x IH]; simpl; [by destruct r|]. by rewrite IH. Qed.

Lemma slice_from_app x r : slice_from (len x) (x ++ r) = r.
Proof. induction x as [|c x IH]; simpl; done. Qed.

Lemma byte_eqb_sym a b : byte_eqb a b = byte_eqb b a.
Proof. apply Ascii.eqb_sym. Qed.

Lemma HasPrefix_empty s : strings.HasPrefix s "" = true.
Proof. by destruct s. Qed.

Lemma HasPrefix_spec s x : strings.HasPrefix s x = true ↔ ∃ r, s = x ++ r.
Proof.
  revert s. induction x as [|c x IH]; intros s.
  - rewrite HasPrefix_empty. split; [by exists s|done].
  - destruct s as [|a s]; simpl.
    + split; [done|]. by intros [r ?].
    + rewrite andb_true_iff, IH. unfold byte_eqb. rewrite Ascii.eqb_eq. split.
      * intros [-> [r ->]]. by exists r.
      * intros [r [= -> ->]]. split; [done|]. by exists r.
Qed.

Lemma Contains_byte_cons d m c :
  strings.Contains (String d m) (String c "")
  = byte_eqb d c || strings.Contains m (String c "").
Proof.
  cbn [strings.Contains strings.HasPrefix].
  by rewrite HasPrefix_empty, andb_true_r, (byte_eqb_sym c d).
Qed.

Lemma Contains_byte_nil c : strings.Contains "" (String c "") = false.
Proof. done. Qed.

Lemma Contains_byte_app a b c :
  strings.Contains (a ++ b) (String c "")
  = strings.Contains a (String c "") || strings.Contains b (String c "").
Proof.
  induction a as [|d a IH]; [done|].
  change (String d a ++ b) with (String d (a ++ b)).
  by rewrite !Contains_byte_cons, IH, orb_assoc.
Qed.

Lemma app_empty_r x : x ++ "" = x.
Proof.
  induction x as [|c x IH]; [done|].
  change (String c x ++ "") with (String c (x ++ "")). by rewrite IH.
Qed.

Lemma app_assoc_str a b c : (a ++ b) ++ c = a ++ (b ++ c).
Proof.
  induction a as [|d a IH]; [done|].
  change (String d ((a ++ b) ++ c) = String d (a ++ (b ++ c))). by rewrite IH.
Qed.

Lemma len_0 s : len s = 0%nat ↔ s = "".
Proof. by destruct s. Qed.

Lemma literal_cons c x :
  literal (String c x) = true ↔
  byte_eqb c "*" = false ∧ byte_eqb c "?" = false ∧ byte_eqb c "[" = false
  ∧ byte_eqb c "\" = false ∧ literal x = true.
Proof.
  cbn [literal]. rewrite !andb_true_iff, !negb_true_iff. tauto.
Qed.

(** A literal chunk matches a string exactly when it is a prefix of it. *)
Lemma matchChunk_loop_literal fuel x s failed :
  literal x = true → (len x < fuel)%nat →
  matchChunk_loop fuel x s failed
  = Some (if negb failed && strings.HasPrefix s x
          then (slice_from (len x) s, true, nil_error)
          else ("", false, nil_error)).
Proof.
  revert fuel s failed. induction x as [|c x IH]; intros fuel s failed Hlit Hlen.
  - destruct fuel as [|fuel]; [simpl in Hlen; lia|]. cbn [matchChunk_loop].
    rewrite HasPrefix_empty. by destruct failed.
  - destruct fuel as [|fuel]; [simpl in Hlen; lia|]. simpl in Hlen.
    apply literal_cons in Hlit as (Hstar & Hq & Hb & Hesc & Hlit).
    cbn [matchChunk_loop]. rewrite Hq, Hb, Hesc.
    destruct failed; cbn [negb andb].
    + rewrite IH by (done || lia). done.
    + destruct s as [|a s]; cbn [len String.length Nat.eqb negb head_is].
      * rewrite IH by (done || lia). done.
      * rewrite IH by (done || lia). cbn [strings.HasPrefix slice_from len String.length].
        rewrite (byte_eqb_sym c a). by destruct (byte_eqb a c).
Qed.

Lemma matchChunk_literal x s :
  literal x = true →
  matchChunk x s = if strings.HasPrefix s x
                   then (slice_from (len x) s, true, nil_error)
                   else ("", false, nil_error).
Proof.
  intros Hlit. unfold matchChunk. by rewrite matchChunk_loop_literal by (done || lia).
Qed.

Lemma scanIndex_literal x r :
  literal x = true → scanIndex (x ++ r) false = (len x + scanIndex r false)%nat.
Proof.
  induction x as [|c x IH]; intros Hlit; [done|].
  apply literal_cons in Hlit as (Hstar & Hq & Hb & Hesc & Hlit).
  change (String c x ++ r) with (String c (x ++ r)).
  cbn [scanIndex]. rewrite Hesc, Hb, Hstar, IH by done.
  by destruct (byte_eqb c "]").
Qed.

Lemma skipStars_literal x star :
  literal x = true → skipStars x star = (x, star).
Proof.
  destruct x as [|c x]; [done|]. intros (Hstar & _)%literal_cons.
  cbn [skipStars]. by rewrite Hstar.
Qed.

Lemma skipStars_literal_app c x r star :
  literal (String c x) = true →
  skipStars (String c x ++ r) star = (String c x ++ r, star).
Proof.
  intros (Hstar & _)%literal_cons.
  change (String c x ++ r) with (String c (x ++ r)).
  cbn [skipStars]. by rewrite Hstar.
Qed.

Lemma scanChunk_literal_star c x y :
  literal (String c x) = true →
  scanChunk (String c x ++ String "*" y) = (false, String c x, String "*" y).
Proof.
  intros Hlit. unfold scanChunk.
  rewrite skipStars_literal_app, scanIndex_literal by done.
  cbn [scanIndex]. rewrite Nat.add_0_r.
  by rewrite slice_to_app, slice_from_app.
Qed.

Lemma scanChunk_star_literal y :
  literal y = true → scanChunk (String "*" y) = (true, y, "").
Proof.
  intros Hlit. unfold scanChunk. cbn [skipStars].
  change (byte_eqb "*" "*") with true. cbv iota.
  rewrite skipStars_literal by done.
  pose proof (scanIndex_literal y "" Hlit) as Hi. rewrite app_empty_r in Hi.
  rewrite Hi. cbn [scanIndex]. rewrite Nat.add_0_r.
  pose proof (slice_to_app y "") as H1. pose proof (slice_from_app y "") as H2.
  rewrite app_empty_r in H1, H2. by rewrite H1, H2.
Qed.

(** More fuel than the length of the pattern changes nothing. *)
Lemma checkRest_fuel_irrel f1 f2 pattern :
  (len pattern < f1)%nat → (len pattern < f2)%nat →
  checkRest f1 pattern = checkRest f2 pattern.
Proof.
  revert f2 pattern. induction f1 as [|f1 IH]; intros f2 pattern H1 H2; [lia|].
  destruct f2 as [|f2]; [lia|]. cbn [checkRest].
  destruct (0 <? len pattern)%nat eqn:Hpos; [|done].
  apply Nat.ltb_lt in Hpos.
  destruct (scanChunk pattern) as [[star chunk] rest] eqn:Hscan.
  apply scanChunk_shorter in Hscan; [|done].
  destruct (matchChunk chunk "") as [[t ok] [e|]]; [done|]. apply IH; lia.
Qed.

Lemma Match_loop_fuel_irrel f1 f2 pattern name :
  (len pattern < f1)%nat → (len pattern < f2)%nat →
  Match_loop f1 pattern name = Match_loop f2 pattern name.
Proof.
  revert f2 pattern name.
  induction f1 as [|f1 IH]; intros f2 pattern name H1 H2; [lia|].
  destruct f2 as [|f2]; [lia|]. cbn [Match_loop].
  destruct (0 <? len pattern)%nat eqn:Hpos; [|done].
  apply Nat.ltb_lt in Hpos.
  destruct (scanChunk pattern) as [[star chunk] rest] eqn:Hscan.
  apply scanChunk_shorter in Hscan; [|done].
  destruct (star && (len chunk =? 0)%nat); [done|].
  destruct (matchChunk chunk name) as [[t ok] err].
  rewrite (checkRest_fuel_irrel f1 f2 rest) by lia.
  destruct (ok && ((len t =? 0)%nat || (0 <? len rest)%nat)); [apply IH; lia|].
  destruct err as [e|]; [done|].
  destruct star; [|done].
  destruct (starLoop chunk (len rest =? 0)%nat name); [apply IH; lia|done|done].
Qed.

Lemma Match_empty name : Match "" name = ((len name =? 0)%nat, nil_error).
Proof. done. Qed.

(** One round of the loop of [Match], for the verdict alone. *)
Lemma Match_fst_step pattern name star chunk rest :
  (0 < len pattern)%nat → scanChunk pattern = (star, chunk, rest) →
  (Match pattern name).1
  = if star && (len chunk =? 0)%nat
    then negb (strings.Contains name (String Separator ""))
    else
      match matchChunk chunk name with
      | (t, ok, err) =>
          if ok && ((len t =? 0)%nat || (0 <? len rest)%nat)
          then (Match rest t).1
          else
            match err with
            | Some _ => false
            | None =>
                if star then
                  match starLoop chunk (len rest =? 0)%nat name with
                  | StarFound t' => (Match rest t').1
                  | _ => false
                  end
                else false
            end
      end.
Proof.
  intros Hpos Hscan.
  pose proof (scanChunk_shorter _ _ _ _ Hpos Hscan) as Hrest.
  assert (Hrec : ∀ t, Match_loop (len pattern) rest t = Some (Match rest t)).
  { intros t. rewrite <- Match_total. apply Match_loop_fuel_irrel; lia. }
  unfold Match at 1. cbn [Match_loop].
  rewrite (proj2 (Nat.ltb_lt _ _) Hpos), Hscan.
  destruct (star && (len chunk =? 0)%nat); [done|].
  destruct (matchChunk chunk name) as [[t ok] err].
  destruct (ok && ((len t =? 0)%nat || (0 <? len rest)%nat)); [by rewrite Hrec|].
  destruct err as [e|]; [done|].
  pose proof (checkRest_fuel (len pattern) rest Hrest) as Hc.
  assert (Hmis : (match
                    match checkRest (len pattern) rest with
                    | Some None => Some (false, nil_error)
                    | Some (Some e0) => Some (false, Some e0)
                    | None => None
                    end
                  with Some res => res | None => (false, nil_error) end).1 = false).
  { by destruct (checkRest (len pattern) rest) as [[?|]|]. }
  destruct star; [|done].
  destruct (starLoop chunk (len rest =? 0)%nat name); [by rewrite Hrec|done|done].
Qed.

(** With a star in it, a pattern matches when [Match] says so: an
    error always comes with a "no". *)
Lemma matchSubject_fst pattern subject :
  strings.Contains pattern "*" = true →
  matchSubject pattern subject = (Match pattern subject).1.
Proof.
  intros Hstar. unfold matchSubject. rewrite Hstar, ReplaceAll_same_byte. simpl.
  destruct (Match pattern subject) as [matched [e|]] eqn:Hm; [|done].
  destruct matched; [|done]. by apply Match_true_well_formed in Hm as [? _].
Qed.

Lemma HasPrefix_rest_empty t y :
  strings.HasPrefix t y = true →
  (len (slice_from (len y) t) =? 0)%nat = String.eqb t y.
Proof.
  intros [r ->]%HasPrefix_spec. rewrite slice_from_app.
  destruct (String.eqb (y ++ r) y) eqn:E.
  - apply String.eqb_eq in E. apply Nat.eqb_eq, len_0.
    assert (Hl : len (y ++ r) = len y) by (by rewrite E).
    rewrite len_app in Hl. apply len_0. lia.
  - apply Nat.eqb_neq. intros ->%len_0. rewrite app_empty_r in E.
    by rewrite String.eqb_refl in E.
Qed.

Lemma eqb_HasPrefix t y : String.eqb t y = true → strings.HasPrefix t y = true.
Proof.
  intros ->%String.eqb_eq. apply HasPrefix_spec. exists "". by rewrite app_empty_r.
Qed.

(** The loop over [i] with a literal last chunk: it finds a place
    exactly when the name is a run without '/', not empty, and then the
    chunk. *)
Lemma starLoop_literal y t :
  literal y = true →
  starLoop y true t = if run_then y t then StarFound "" else StarNone.
Proof.
  intros Hlit. induction t as [|c t IH]; [done|].
  cbn [starLoop run_then]. destruct (byte_eqb c Separator); [done|].
  cbn [negb andb]. rewrite matchChunk_literal by done.
  destruct (strings.HasPrefix t y) eqn:Hpre.
  - cbn [andb]. pose proof (HasPrefix_rest_empty t y Hpre) as Hrest.
    destruct (String.eqb t y) eqn:E.
    + apply Nat.eqb_eq in Hrest. rewrite Hrest. cbn.
      apply len_0 in Hrest. by rewrite Hrest.
    + apply Nat.eqb_neq in Hrest.
      replace (0 <? len (slice_from (len y) t))%nat with true
        by (symmetry; apply Nat.ltb_lt; lia).
      by rewrite IH.
  - destruct (String.eqb t y) eqn:E; [|by rewrite IH].
    apply eqb_HasPrefix in E. congruence.
Qed.

Lemma run_then_spec y t :
  run_then y t = true ↔
  ∃ m, m ≠ "" ∧ t = m ++ y ∧ strings.Contains m "/" = false.
Proof.
  induction t as [|c t IH]; cbn [run_then]; unfold Separator.
  - split; [done|]. intros ([|??] & ? & ? & ?); done.
  - rewrite andb_true_iff, negb_true_iff, orb_true_iff, IH, String.eqb_eq. split.
    + intros [Hc [->|(m & Hm & -> & Hs)]].
      * exists (String c ""). split_and!; [done|done|].
        by rewrite Contains_byte_cons, Hc.
      * exists (String c m). split_and!; [done|done|].
        by rewrite Contains_byte_cons, Hc, Hs.
    + intros ([|d m] & Hm & Heq & Hs); [done|].
      change (String d m ++ y) with (String d (m ++ y)) in Heq.
      injection Heq as -> ->.
      rewrite Contains_byte_cons in Hs. apply orb_false_iff in Hs as [Hd Hs].
      split; [done|]. destruct m as [|e m]; [by left|right].
      by exists (String e m).
Qed.

(** The verdict on a pattern made of a star and a literal rest. *)
Lemma Match_star_literal y t :
  literal y = true →
  (Match (String "*" y) t).1 = String.eqb t y || run_then y t.
Proof.
  intros Hlit.
  rewrite (Match_fst_step _ _ true y "") by (simpl; lia || by apply scanChunk_star_literal).
  destruct (len y =? 0)%nat eqn:Hy.
  - apply Nat.eqb_eq, len_0 in Hy. subst y. cbn [andb].
    induction t as [|c t IH]; [done|].
    rewrite Contains_byte_cons, negb_orb, IH. cbn [run_then String.eqb orb].
    done.
  - cbn [andb]. rewrite matchChunk_literal by done.
    change (0 <? len "")%nat with false.
    change (len "" =? 0)%nat with true.
    rewrite starLoop_literal by done.
    destruct (strings.HasPrefix t y) eqn:Hpre.
    + cbn [andb]. rewrite orb_false_r, (HasPrefix_rest_empty t y Hpre).
      destruct (String.eqb t y) eqn:E.
      * rewrite Match_empty. cbn [fst].
        by rewrite (HasPrefix_rest_empty t y Hpre), E.
      * cbn [orb]. by destruct (run_then y t).
    + cbn [andb]. destruct (String.eqb t y) eqn:E.
      * apply eqb_HasPrefix in E. congruence.
      * cbn [orb]. by destruct (run_then y t).
Qed.

Lemma star_literal_spec y t :
  String.eqb t y || run_then y t = true ↔
  ∃ m, t = m ++ y ∧ strings.Contains m "/" = false.
Proof.
  rewrite orb_true_iff, String.eqb_eq, run_then_spec. split.
  - intros [->|(m & _ & -> & Hs)]; [by exists ""|by exists m].
  - intros ([|c m] & -> & Hs); [by left|right]. by exists (String c m).
Qed.

Lemma Contains_star_app x y : strings.Contains (x ++ String "*" y) "*" = true.
Proof. by rewrite Contains_byte_app, Contains_byte_cons, orb_true_r. Qed.

(** X7. A pattern with one star and literal text around it matches exactly
    the subjects made of the text before the star, any run of
    characters other than '/' (dots too, and none at all) and the text
    after the star. *)
Theorem matchSubject_one_star x y subject :
  literal x = true → literal y = true →
  matchSubject (x ++ String "*" y) subject = true
  ↔ ∃ m, subject = x ++ (m ++ y) ∧ strings.Contains m "/" = false.
Proof.
  intros Hx Hy. rewrite matchSubject_fst by apply Contains_star_app.
  destruct x as [|c x].
  - change ("" ++ String "*" y) with (String "*" y).
    by rewrite Match_star_literal, star_literal_spec.
  - rewrite (Match_fst_step _ _ false (String c x) (String "*" y));
      [| change (String c x ++ String "*" y) with (String c (x ++ String "*" y));
         simpl; lia
       | by apply scanChunk_literal_star].
    cbn [andb]. rewrite matchChunk_literal by done.
    destruct (strings.HasPrefix subject (String c x)) eqn:Hpre.
    + cbn [andb]. change (0 <? len (String "*" y))%nat with true.
      rewrite orb_true_r, Match_star_literal, star_literal_spec by done.
      apply HasPrefix_spec in Hpre as [r ->]. rewrite slice_from_app. split.
      * intros (m & -> & Hs). by exists m.
      * intros (m & Heq & Hs). exists m. split; [|done].
        clear -Heq. revert Heq. generalize (String c x). intros z Heq.
        induction z as [|d z IH]; [done|]. injection Heq as Heq. by apply IH.
    + cbn [andb]. split; [done|]. intros (m & -> & _).
      assert (strings.HasPrefix (String c x ++ (m ++ y)) (String c x) = true)
        by (apply HasPrefix_spec; by eexists).
      congruence.
Qed.

End single_star.

(** * What a publish calls, and where the cursor ends *)
Section publish_more.
Context {Ctx Event World : Type}.
Local Abbreviation EventHandler := (@EventHandler Ctx Event World).
Local Abbreviation MemoryBus := (@MemoryBus Ctx Event World).
Local Abbreviation Call := (@Call Ctx Event World).
Local Abbreviation Dispatch := (@Dispatch Ctx Event World).
Implicit Types (b : MemoryBus) (h : EventHandler) (hs : list EventHandler).
Implicit Types (st : Dispatch) (idx : gmap string (gmap string Z)).
Implicit Types (c : Call) (calls : list Call).

Lemma elem_of_broadcast_calls_lookup c p i hs :
  c ∈ broadcast_calls p i hs →
  ∃ j, call_index c = (i + j)%nat ∧ hs !! j = Some (call_handler c).
Proof.
  revert i. induction hs as [|h hs IH]; intros i; cbn [broadcast_calls].
  - by intros ?%elem_of_nil.
  - intros [->|Hin]%elem_of_cons.
    + exists 0%nat. split; [cbn; lia|done].
    + destruct (IH (S i) Hin) as (j & Hj & Hh). exists (S j). split; [lia|done].
Qed.

Lemma dispatch_plan_sound sch b subject c :
  c ∈ dispatch_plan sch b subject →
  matchSubject (call_pattern c) subject = true ∧ registered b c.
Proof.
  unfold dispatch_plan. intros [Hin|Hin]%elem_of_app.
  - apply list_elem_of_In, in_flat_map in Hin as ([p hs] & Hp & Hc).
    apply list_elem_of_In in Hp, Hc. apply elem_of_range_by in Hp.
    pose proof (elem_of_broadcast_plan _ _ _ _ Hc) as (Hm & Hpat & Hgrp).
    unfold broadcast_plan in Hc. cbn [fst snd] in Hc. rewrite Hm in Hc.
    apply elem_of_broadcast_calls_lookup in Hc as (j & Hj & Hh).
    rewrite Hpat. split; [done|]. unfold registered. rewrite Hgrp, Hpat.
    exists hs. by rewrite Hj.
  - apply list_elem_of_In, in_flat_map in Hin as ([p gm] & Hp & Hc).
    apply list_elem_of_In in Hp, Hc. apply elem_of_range_by in Hp.
    apply elem_of_groups_plan in Hc as (Hm & Hpat & g & hs & Hgrp & Hg & Hh).
    rewrite Hpat. split; [done|]. unfold registered. rewrite Hgrp, Hpat.
    by exists gm, hs.
Qed.

(** X8. A publish calls nothing but handlers that the bus holds, under
    patterns that match the subject. *)
Theorem Publish_calls_sound n sch b ctx subject e w :
  bus_within n b = true → n < max_int → subject ≠ "" →
  ∃ b' w' calls,
    Publish sch b ctx subject (Some e) w = Returned b' w' calls None
    ∧ Forall (λ c, matchSubject (call_pattern c) subject = true ∧ registered b c)
             calls.
Proof.
  intros Hin Hn Hs. apply bus_within_spec in Hin as [_ Hinv].
  destruct (Publish_run n sch b ctx subject e w Hinv Hn Hs) as (idx' & Hrun & _).
  eexists _, _, _. split; [exact Hrun|].
  apply Forall_forall. intros c Hc. by eapply dispatch_plan_sound.
Qed.

(** X9. [Subscribe] checks that the pattern is not empty and nothing more:
    it takes a pattern with a star that the glob finds malformed, and
    the handler put under it is then called by no publish at all. *)
Theorem malformed_pattern_never_called n sch b ctx p h subject e w :
  bus_within n b = true → n < max_int → p ≠ "" → subject ≠ "" →
  strings.Contains p "*" = true → well_formed p = false →
  (Subscribe b p (Some h)).2 = None
  ∧ (∃ hs, handlers (Subscribe b p (Some h)).1 !! p = Some (hs ++ [h]))
  ∧ ∃ b' w' calls,
      Publish sch (Subscribe b p (Some h)).1 ctx subject (Some e) w
      = Returned b' w' calls None
      ∧ ∀ c, c ∈ calls → call_pattern c ≠ p.
Proof.
  intros Hin Hn Hp Hs Hstar Hbad. apply bus_within_spec in Hin as [_ Hinv].
  split_and!.
  - unfold Subscribe. by rewrite decide_False by done.
  - unfold Subscribe. rewrite decide_False by done. cbn [fst handlers].
    rewrite lookup_insert_eq. by eexists.
  - pose proof (bus_inv_Subscribe n b p (Some h) Hinv) as Hinv'.
    destruct (Publish_run n sch _ ctx subject e w Hinv' Hn Hs) as (idx' & Hrun & _).
    eexists _, _, _. split; [exact Hrun|].
    intros c Hc%dispatch_plan_sound Heq. destruct Hc as [Hm _].
    rewrite Heq, (matchSubject_malformed p subject Hstar Hbad) in Hm. done.
Qed.



End publish_more.

(** * The older bus *)
Section part002_facts.
Context {Ctx Event World : Type}.
Local Abbreviation EventHandler := (@EventHandler Ctx Event World).
Local Abbreviation MemoryBus := (@MemoryBus Ctx Event World).
Local Abbreviation Call := (@Call Ctx Event World).
Local Abbreviation Dispatch := (@Dispatch Ctx Event World).
Implicit Types (b : MemoryBus) (h : EventHandler) (hs : list EventHandler).
Implicit Types (st : Dispatch) (idx : gmap string (gmap string Z)).
Implicit Types (c : Call) (calls made pre post : list Call).
Implicit Types (failure : option (Call * string)) (w : World).
Variables (ctx : Ctx) (event : option Event).

Local Abbreviation after := (after ctx event).

Lemma run_calls_app calls1 calls2 w :
  run_calls (calls1 ++ calls2) ctx event w
  = run_calls calls2 ctx event (run_calls calls1 ctx event w).
Proof. unfold run_calls. by rewrite foldl_app. Qed.

Lemma returns_cons w c0 pre c :
  returns ctx event w (c0 :: pre) c
  = returns ctx event (run_calls [c0] ctx event w) pre c.
Proof. done. Qed.

Lemma invoke_eq c st :
  invoke c ctx event st
  = (after st [c] (d_index st), returns ctx event (d_world st) [] c).
Proof.
  unfold invoke, after, returns, run_calls. simpl.
  by destruct (call_handler c ctx event (d_world st)).
Qed.

Lemma stop_at_error_cons c calls w :
  stop_at_error (c :: calls) ctx event w
  = match returns ctx event w [] c with
    | Some msg => ([c], Some (c, msg))
    | None =>
        let '(made, failure) :=
          stop_at_error calls ctx event (run_calls [c] ctx event w) in
        (c :: made, failure)
    end.
Proof.
  unfold returns, run_calls. simpl.
  by destruct (call_handler c ctx event w) as [w' [msg|]].
Qed.

(** The calls made are those of the list up to the first failure: all
    but the last returned nil, and the last is the one that failed,
    unless none did. *)
Lemma stop_at_error_spec calls w made failure :
  stop_at_error calls ctx event w = (made, failure) →
  made `prefix_of` calls
  ∧ (∀ pre c post, made = pre ++ c :: post → post ≠ [] →
       returns ctx event w pre c = None)
  ∧ match failure with
    | None =>
        made = calls
        ∧ ∀ pre c, made = pre ++ [c] → returns ctx event w pre c = None
    | Some (c, msg) =>
        ∃ pre, made = pre ++ [c] ∧ returns ctx event w pre c = Some msg
    end.
Proof.
  revert w made failure.
  induction calls as [|c0 calls IH]; intros w made failure.
  - intros [= <- <-]. split_and!; [done| |done|].
    + by intros [|??] ???.
    + by intros [|??] ??.
  - rewrite stop_at_error_cons.
    destruct (returns ctx event w [] c0) as [msg|] eqn:E.
    + intros [= <- <-]. split_and!.
      * by exists calls.
      * intros [|c1 pre] c post; [by intros [= _ <-]|].
        intros [= _ Hnil]. by destruct pre.
      * by exists [].
    + destruct (stop_at_error calls ctx event _) as [made' f'] eqn:E'.
      intros [= <- <-]. destruct (IH _ _ _ E') as (Hpre & Hmid & Hlast).
      split_and!.
      * by apply prefix_cons.
      * intros [|c1 pre] c post.
        -- by intros [= <- _] _.
        -- intros [= <- ->] Hpost. rewrite returns_cons. by eapply Hmid.
      * destruct f' as [[c msg]|].
        -- destruct Hlast as (pre & -> & Hret). by exists (c0 :: pre).
        -- destruct Hlast as [-> Hlast]. split; [done|].
           intros [|c1 pre] c.
           ++ by intros [= <- _].
           ++ intros [= <- Heq]. rewrite returns_cons. by apply Hlast.
Qed.

Lemma stop_at_error_app calls1 calls2 w :
  stop_at_error (calls1 ++ calls2) ctx event w
  = match stop_at_error calls1 ctx event w with
    | (made1, Some f) => (made1, Some f)
    | (made1, None) =>
        let '(made2, failure) :=
          stop_at_error calls2 ctx event (run_calls made1 ctx event w) in
        (made1 ++ made2, failure)
    end.
Proof.
  revert w. induction calls1 as [|c calls1 IH]; intros w.
  - cbn [app stop_at_error run_calls foldl].
    by destruct (stop_at_error calls2 ctx event w).
  - rewrite <-app_comm_cons, !stop_at_error_cons.
    destruct (returns ctx event w [] c) as [msg|]; [done|].
    rewrite IH.
    destruct (stop_at_error calls1 ctx event _) as [made1 [f|]]; [done|].
    rewrite (run_calls_app [c] made1).
    by destruct (stop_at_error calls2 ctx event _).
Qed.

(** The broadcast loop of the older [Publish]. *)
Lemma call_until_error_run subject i hs st made failure :
  stop_at_error (broadcast_calls subject i hs) ctx event (d_world st)
    = (made, failure) →
  call_until_error subject i hs ctx event st
  = (after st made (d_index st), failure_error failure).
Proof.
  revert i st made failure.
  induction hs as [|h hs IH]; intros i st made failure.
  - intros [= <- <-]. cbn [call_until_error failure_error].
    by rewrite after_nil.
  - cbn [broadcast_calls call_until_error].
    rewrite stop_at_error_cons, invoke_eq.
    destruct (returns ctx event (d_world st) [] _) as [msg|] eqn:E.
    + by intros [= <- <-].
    + destruct (stop_at_error _ ctx event _) as [made' f'] eqn:E'.
      intros [= <- <-].
      rewrite (IH (S i) (after st [mkCall subject None i h] (d_index st)) made' f')
        by exact E'.
      by rewrite after_after.
Qed.

Lemma calls_for_cons p g c calls :
  calls_for p g (c :: calls)
  = if decide (call_pattern c = p ∧ call_group c = g)
    then c :: calls_for p g calls else calls_for p g calls.
Proof. unfold calls_for. by rewrite filter_cons. Qed.

Lemma flat_map_selected_ext idx idx' p (l : list (string * list EventHandler)) :
  (∀ g hs, (g, hs) ∈ l → cursor idx' p g = cursor idx p g) →
  flat_map (selected idx' p) l = flat_map (selected idx p) l.
Proof.
  induction l as [|[g hs] l IH]; intros Heq; [done|]. cbn [flat_map].
  rewrite (selected_ext idx idx') by (apply (Heq g hs); left).
  rewrite IH; [done|]. intros g' hs' Hin. apply (Heq g' hs'). by right.
Qed.

(** The loop over the groups of the subject in the older [Publish]:
    it does not panic, and a cursor moves with the call made to its
    group. *)
Lemma groups_until_error_run subject (l : list (string * list EventHandler))
    st made failure :
  NoDup l.*1 →
  is_Some (d_index st !! subject) →
  (∀ g hs, (g, hs) ∈ l → 0 ≤ cursor (d_index st) subject g < max_int) →
  stop_at_error (flat_map (selected (d_index st) subject) l) ctx event (d_world st)
    = (made, failure) →
  ∃ idx',
    groups_until_error subject l ctx event st
      = Some (after st made idx', failure_error failure)
    ∧ (∀ p g, cursor idx' p g
              = cursor (d_index st) p g
                + Z.of_nat (List.length (calls_for p (Some g) made)))
    ∧ (∀ p g, (p, g) ∉ (λ entry, (subject, entry.1)) <$> l →
              cursor idx' p g = cursor (d_index st) p g)
    ∧ (∀ p g, cursor (d_index st) p g ≤ cursor idx' p g ≤ cursor (d_index st) p g + 1)
    ∧ (∀ p, is_Some (idx' !! p) ↔ is_Some (d_index st !! p)).
Proof.
  revert st made failure.
  induction l as [|[g hs] l IH]; intros st made failure Hnd Hready Hc.
  - intros [= <- <-]. exists (d_index st). cbn [groups_until_error failure_error].
    rewrite after_nil. split_and!; try done; intros; simpl; lia.
  - apply NoDup_cons in Hnd as [Hg Hnd]. cbn [groups_until_error flat_map].
    destruct (List.length hs =? 0)%nat eqn:Hlen.
    { apply Nat.eqb_eq in Hlen. destruct hs; [|done].
      rewrite selected_nil. cbn [app]. intros Hstop.
      destruct (IH st made failure Hnd Hready) as (idx' & Hrun & Hcount & Hother & Hle & Hdom);
        [|exact Hstop|].
      { intros g' hs' Hin. apply (Hc g' hs'). by right. }
      exists idx'. split_and!; [done|done| |done|done].
      intros p g' Hnot. apply Hother. intros Hin. apply Hnot.
      rewrite fmap_cons. by right. }
    apply Nat.eqb_neq in Hlen.
    assert (Hcg : 0 ≤ cursor (d_index st) subject g < max_int)
      by (apply (Hc g hs); left).
    pose proof (Z.rem_bound_pos (cursor (d_index st) subject g)
                  (Z.of_nat (List.length hs)) ltac:(lia) ltac:(lia)) as Hi.
    destruct (slice_index_Some hs _ Hi) as [Hsl [h Hh]]. rewrite Hsl, Hh.
    destruct (cursor_incr_ready (d_index st) subject g Hready) as [idx1 Hidx].
    rewrite Hidx. unfold selected at 1. rewrite Hh. cbn [app].
    rewrite stop_at_error_cons, invoke_eq. cbn [d_index d_world].
    set (c := mkCall subject (Some g) _ h).
    assert (Hsame : cursor idx1 subject g = cursor (d_index st) subject g + 1).
    { rewrite (cursor_incr_same _ _ _ _ Hidx). apply wrap_int_small.
      unfold max_int in Hcg. lia. }
    assert (Hrest : ∀ p' g', (p', g') ≠ (subject, g) →
                      cursor idx1 p' g' = cursor (d_index st) p' g').
    { intros p' g'. apply (cursor_incr_other _ _ _ _ _ _ Hidx). }
    assert (Hone : ∀ p' g',
               Z.of_nat (List.length (calls_for p' (Some g') [c]))
               = cursor idx1 p' g' - cursor (d_index st) p' g').
    { intros p' g'. rewrite calls_for_cons. subst c. cbn [call_pattern call_group].
      destruct (decide (subject = p' ∧ Some g = Some g')) as [[<- [= <-]]|Hne].
      - rewrite Hsame. simpl. lia.
      - rewrite Hrest; [simpl; lia|]. intros [= -> ->]. by apply Hne. }
    destruct (returns ctx event (d_world st) [] c) as [msg|] eqn:E.
    + intros [= <- <-]. exists idx1. split_and!.
      * done.
      * intros p' g'. rewrite Hone. lia.
      * intros p' g' Hnot. apply Hrest. intros [= -> ->]. apply Hnot.
        rewrite fmap_cons. by left.
      * intros p' g'. pose proof (Hone p' g') as H1.
        rewrite calls_for_cons in H1. destruct (decide _); simpl in H1; lia.
      * intros p'. by apply (cursor_incr_dom _ _ _ _ _ Hidx).
    + destruct (stop_at_error _ ctx event _) as [made' f'] eqn:E'.
      intros [= <- <-].
      set (st1 := {| d_index := idx1; d_world := d_world st; d_calls := d_calls st |}).
      assert (Hfresh : ∀ g' hs', (g', hs') ∈ l → (subject, g') ≠ (subject, g)).
      { intros g' hs' Hin [= ->]. apply Hg.
        apply list_elem_of_fmap. by exists (g, hs'). }
      destruct (IH (after st1 [c] idx1) made' f' Hnd)
        as (idx' & Hrun & Hcount & Hother & Hle & Hdom).
      { cbn [after d_index]. by apply (cursor_incr_dom _ _ _ _ _ Hidx). }
      { intros g' hs' Hin. cbn [after d_index].
        rewrite Hrest by (by eapply Hfresh). apply (Hc g' hs'). by right. }
      { cbn [after d_index d_world st1].
        rewrite (flat_map_selected_ext (d_index st) idx1); [exact E'|].
        intros g' hs' Hin. apply Hrest. by eapply Hfresh. }
      exists idx'. rewrite Hrun. cbn [after d_index] in Hcount, Hother, Hle, Hdom.
      split_and!.
      * f_equal. f_equal. unfold after, st1. cbn [d_index d_world d_calls].
        rewrite <-!run_calls_app, <-!app_assoc. done.
      * intros p' g'. rewrite Hcount.
        change (c :: made') with ([c] ++ made').
        unfold calls_for at 2. rewrite filter_app, length_app.
        fold (calls_for p' (Some g') [c]) (calls_for p' (Some g') made').
        rewrite Nat2Z.inj_add, Hone. lia.
      * intros p' g' Hnot. rewrite Hother, Hrest; [done| |].
        -- intros [= -> ->]. apply Hnot. rewrite fmap_cons. by left.
        -- intros Hin. apply Hnot. rewrite fmap_cons. by right.
      * intros p' g'. destruct (decide ((p', g') = (subject, g))) as [[= -> ->]|Hne].
        -- rewrite Hother, Hsame; [lia|].
           intros ([g' hs'] & [= Hgg] & Hin)%list_elem_of_fmap. simpl in Hgg. subst g'.
           apply Hg. apply list_elem_of_fmap. by exists (g, hs').
        -- specialize (Hle p' g'). rewrite (Hrest p' g' Hne) in Hle. done.
      * intros p'. rewrite Hdom. by apply (cursor_incr_dom _ _ _ _ _ Hidx).
Qed.
End part002_facts.

Section for_each_one.
Context {A S : Type}.
Implicit Types (body : string * A → S → option S) (l : list (string * A)).

Lemma for_each_skip body l st :
  (∀ entry st', entry ∈ l → body entry st' = Some st') →
  for_each body l st = Some st.
Proof.
  induction l as [|entry l IH]; intros Hskip; [done|]. cbn [for_each].
  rewrite Hskip by left. apply IH. intros entry' st' Hin. apply Hskip. by right.
Qed.

(** A loop over a map in which one key alone has an effect. *)
Lemma for_each_only body k x l st :
  NoDup l.*1 → (k, x) ∈ l →
  (∀ p y st', (p, y) ∈ l → p ≠ k → body (p, y) st' = Some st') →
  for_each body l st = body (k, x) st.
Proof.
  induction l as [|[p y] l IH]; intros Hnd Hin Hskip.
  - by apply elem_of_nil in Hin.
  - apply NoDup_cons in Hnd as [Hp Hnd]. cbn [for_each].
    apply elem_of_cons in Hin as [[= <- <-]|Hin].
    + destruct (body (k, x) st) as [st'|]; [|done].
      apply for_each_skip. intros [p y] st'' Hin'. apply Hskip; [by right|].
      intros ->. apply Hp. apply list_elem_of_fmap. by exists (k, y).
    + assert (Hpk : p ≠ k).
      { intros ->. apply Hp. apply list_elem_of_fmap. by exists (k, x). }
      rewrite Hskip by (done || left). apply IH; [done|done|].
      intros p' y' st' Hin'. apply Hskip. by right.
Qed.
End for_each_one.

Section part002_publish.
Context {Ctx Event World : Type}.
Local Abbreviation EventHandler := (@EventHandler Ctx Event World).
Local Abbreviation MemoryBus := (@MemoryBus Ctx Event World).
Local Abbreviation Call := (@Call Ctx Event World).
Local Abbreviation Dispatch := (@Dispatch Ctx Event World).
Implicit Types (b : MemoryBus) (h : EventHandler) (hs : list EventHandler).
Implicit Types (st : Dispatch) (idx : gmap string (gmap string Z)).
Implicit Types (c : Call) (calls made pre post : list Call).
Implicit Types (failure : option (Call * string)) (w : World).
Implicit Types (ctx : Ctx) (event : option Event).

Lemma calls_for_broadcast_prefix p g subject i hs made :
  made `prefix_of` broadcast_calls subject i hs →
  calls_for p (Some g) made = [].
Proof.
  intros [rest Heq]. apply calls_for_none. intros c Hin [_ Hg].
  assert (Hc : c ∈ broadcast_calls subject i hs).
  { rewrite Heq. apply elem_of_app. by left. }
  apply elem_of_broadcast_calls in Hc as [_ Hn]. congruence.
Qed.

Lemma calls_for_app p g calls1 calls2 :
  calls_for p g (calls1 ++ calls2) = calls_for p g calls1 ++ calls_for p g calls2.
Proof. unfold calls_for. by rewrite filter_app. Qed.

(** The older [Publish] on a bus in order: it makes the calls of its
    plan up to the first failure and moves the cursors of the groups
    it called. *)
Lemma Publish_part002_run n sch b ctx subject event w made failure :
  bus_inv n b → n < max_int →
  stop_at_error (plan_part002 sch b subject) ctx event w = (made, failure) →
  ∃ idx',
    Publish_part002 sch b ctx subject event w
    = Returned {| handlers := handlers b; groups := groups b; groupIndex := idx' |}
               (run_calls made ctx event w) made (failure_error failure)
    ∧ (∀ p g, cursor idx' p g
              = cursor (groupIndex b) p g
                + Z.of_nat (List.length (calls_for p (Some g) made)))
    ∧ (∀ p g, cursor (groupIndex b) p g ≤ cursor idx' p g
              ≤ cursor (groupIndex b) p g + 1)
    ∧ (∀ p, is_Some (idx' !! p) ↔ is_Some (groupIndex b !! p)).
Proof.
  intros [Hready Hc] Hn. unfold plan_part002, Publish_part002. cbv zeta.
  rewrite stop_at_error_app.
  set (st0 := {| d_index := groupIndex b; d_world := w; d_calls := [] |}).
  destruct (stop_at_error (broadcast_calls _ _ _) ctx event w) as [made1 f1] eqn:E1.
  rewrite (call_until_error_run ctx event subject 0 _ st0 made1 f1) by exact E1.
  change (d_index st0) with (groupIndex b).
  pose proof (stop_at_error_spec ctx event _ _ _ _ E1) as (Hpre & _ & _).
  destruct f1 as [[c msg]|].
  - intros [= <- <-]. exists (groupIndex b). split_and!.
    + done.
    + intros p g. rewrite (calls_for_broadcast_prefix _ _ _ _ _ _ Hpre). simpl. lia.
    + intros p g. lia.
    + done.
  - cbn [failure_error nil_error].
    destruct (groups b !! subject) as [gm|] eqn:Hg; cbn [default].
    + destruct (stop_at_error (flat_map _ _) ctx event _) as [made2 f2] eqn:E2.
      intros [= <- <-].
      destruct (groups_until_error_run ctx event subject
                  (range_by (order_group sch subject) gm)
                  (after ctx event st0 made1 (groupIndex b)) made2 f2)
        as (idx' & Hrun & Hcount & _ & Hle & Hdom).
      { apply NoDup_fst_range_by. }
      { cbn [after d_index]. by eapply Hready. }
      { intros g hs _. cbn [after d_index]. specialize (Hc subject g). lia. }
      { exact E2. }
      rewrite Hrun. exists idx'.
      change (d_index (after ctx event st0 made1 (groupIndex b)))
        with (groupIndex b) in Hcount, Hle, Hdom.
      split_and!.
      * unfold after, st0. cbn [d_index d_world d_calls app].
        by rewrite run_calls_app.
      * intros p g. rewrite Hcount, calls_for_app, length_app.
        rewrite (calls_for_broadcast_prefix _ _ _ _ _ _ Hpre). done.
      * done.
      * done.
    + rewrite range_by_empty. cbn [flat_map stop_at_error].
      intros [= <- <-]. exists (groupIndex b). rewrite app_nil_r.
      split_and!.
      * done.
      * intros p g. rewrite (calls_for_broadcast_prefix _ _ _ _ _ _ Hpre). simpl. lia.
      * intros p g. lia.
      * done.
Qed.

(** X11. The older [Publish] stops at the first handler that fails: the
    calls made are a beginning of the plan, every call but the last
    returned nil, and the error returned is that of the last call with
    the prefix of its pass, or nil when the whole plan was run without
    a failure.  The cursor of a group moves if and only if the group
    was called. *)
Theorem Publish_part002_fail_fast n sch b ctx subject event w :
  bus_within n b = true → n < max_int →
  ∃ idx' calls err,
    Publish_part002 sch b ctx subject event w
    = Returned {| handlers := handlers b; groups := groups b; groupIndex := idx' |}
               (run_calls calls ctx event w) calls err
    ∧ calls `prefix_of` plan_part002 sch b subject
    ∧ (∀ pre c post, calls = pre ++ c :: post → post ≠ [] →
         returns ctx event w pre c = None)
    ∧ (err = None →
         calls = plan_part002 sch b subject
         ∧ ∀ pre c, calls = pre ++ [c] → returns ctx event w pre c = None)
    ∧ (∀ e, err = Some e →
         ∃ pre c msg, calls = pre ++ [c]
                      ∧ returns ctx event w pre c = Some msg
                      ∧ e = wrapped c msg)
    ∧ (∀ p g, cursor idx' p g
              = cursor (groupIndex b) p g
                + Z.of_nat (List.length (calls_for p (Some g) calls))).
Proof.
  intros Hin Hn. apply bus_within_spec in Hin as [_ Hinv].
  destruct (stop_at_error (plan_part002 sch b subject) ctx event w)
    as [made failure] eqn:E.
  destruct (Publish_part002_run n sch b ctx subject event w made failure Hinv Hn E)
    as (idx' & Hrun & Hcount & _ & _).
  pose proof (stop_at_error_spec ctx event _ _ _ _ E) as (Hpre & Hmid & Hlast).
  exists idx', made, (failure_error failure). split_and!; [done|done|done| | |done].
  - destruct failure as [[c msg]|]; [done|]. by intros _.
  - intros e. destruct failure as [[c msg]|]; [|done].
    intros [= <-]. destruct Hlast as (pre & -> & Hret). by exists pre, c, msg.
Qed.

Lemma Publish_part002_bus_inv n sch b ctx subject event w b' w' calls err :
  bus_inv n b → n < max_int →
  Publish_part002 sch b ctx subject event w = Returned b' w' calls err →
  bus_inv (n + 1) b'.
Proof.
  intros Hinv Hn.
  destruct (stop_at_error (plan_part002 sch b subject) ctx event w)
    as [made failure] eqn:E.
  destruct (Publish_part002_run n sch b ctx subject event w made failure Hinv Hn E)
    as (idx' & -> & _ & Hle & Hdom).
  intros [= <- _ _ _]. destruct Hinv as [Hready Hc]. split; cbn [groups groupIndex].
  - intros p gm Hgm. apply Hdom. by eapply Hready.
  - intros p g. specialize (Hle p g). specialize (Hc p g). lia.
Qed.

Lemma bus_inv_SubscribeWithHandlerGroup_part002 n b subject group h :
  bus_inv n b → bus_inv n (SubscribeWithHandlerGroup_part002 b subject group h).1.
Proof.
  intros [Hready Hc]. unfold SubscribeWithHandlerGroup_part002. split; simpl.
  - intros p gm. destruct (decide (p = subject)) as [->|Hp].
    + intros _. destruct (groupIndex b !! subject) eqn:E; [by rewrite E|].
      rewrite lookup_insert_eq. eauto.
    + rewrite lookup_insert_ne by done. intros Hgm.
      assert (Hgm' : groups b !! p = Some gm).
      { destruct (groups b !! subject); [done|]. by rewrite lookup_insert_ne in Hgm. }
      destruct (groupIndex b !! subject); [by apply (Hready p gm)|].
      rewrite lookup_insert_ne by done. by apply (Hready p gm).
  - intros p g. destruct (groupIndex b !! subject) eqn:E; [apply Hc|].
    unfold cursor. destruct (decide (p = subject)) as [->|Hp].
    + rewrite lookup_insert_eq. simpl. rewrite lookup_empty. simpl.
      specialize (Hc subject g). lia.
    + rewrite lookup_insert_ne by done. apply Hc.
Qed.

Lemma reachable_part002_bus_inv n b :
  reachable_part002 n b → n ≤ max_int → 0 ≤ n ∧ bus_inv n b.
Proof.
  induction 1 as [|n b subject handler _ IH|n b subject group handler _ IH
                  |n b _ IH|n b sch ctx subject event w b' w' calls err _ IH Hrun];
    intros Hn.
  - split; [done|apply bus_inv_new].
  - destruct (IH Hn) as [H0 Hinv]. split; [done|exact Hinv].
  - split; [|apply bus_inv_SubscribeWithHandlerGroup_part002]; by apply IH.
  - destruct (IH Hn) as [H0 _]. split; [done|].
    eapply bus_inv_mono; [exact H0|apply bus_inv_new].
  - destruct IH as [H0 Hinv]; [lia|]. split; [lia|].
    eapply Publish_part002_bus_inv; [exact Hinv|lia|exact Hrun].
Qed.

(** X12. The older bus refuses no registration, not even an empty subject
    or group name, and still its [Publish] cannot panic on a bus made
    by its operations: the inner map of cursors is there whenever a
    group is, and the index stays inside the slice. *)
Theorem Publish_part002_never_panics n b sch ctx subject event w :
  reachable_part002 n b → n < max_int →
  ∃ idx' w' calls err,
    Publish_part002 sch b ctx subject event w
    = Returned {| handlers := handlers b; groups := groups b; groupIndex := idx' |}
               w' calls err
    ∧ (∀ p, is_Some (idx' !! p) ↔ is_Some (groupIndex b !! p)).
Proof.
  intros Hr Hn. destruct (reachable_part002_bus_inv n b Hr) as [_ Hinv]; [lia|].
  destruct (stop_at_error (plan_part002 sch b subject) ctx event w)
    as [made failure] eqn:E.
  destruct (Publish_part002_run n sch b ctx subject event w made failure Hinv Hn E)
    as (idx' & Hrun & _ & _ & Hdom).
  by eexists idx', _, _, _.
Qed.

(** ** The two variants of [Publish] side by side *)

Lemma exact_only_spec b subject p :
  exact_only b subject = true →
  is_Some (handlers b !! p) ∨ is_Some (groups b !! p) →
  matchSubject p subject = String.eqb p subject.
Proof.
  unfold exact_only. rewrite forallb_forall. intros Hall Hp.
  apply Bool.eqb_prop, Hall, list_elem_of_In, elem_of_app.
  destruct Hp as [[hs Hp]|[gm Hp]]; [left|right].
  - apply list_elem_of_fmap. exists (p, hs). by rewrite elem_of_map_to_list.
  - apply list_elem_of_fmap. exists (p, gm). by rewrite elem_of_map_to_list.
Qed.

Lemma call_until_error_nil subject i hs ctx event st st' :
  call_until_error subject i hs ctx event st = (st', None) →
  call_all subject i hs ctx event st = st'.
Proof.
  revert i st. induction hs as [|h hs IH]; intros i st; cbn [call_until_error call_all].
  - by intros [= <-].
  - destruct (invoke _ ctx event st) as [st1 [msg|]]; [done|]. apply IH.
Qed.

Lemma groups_until_error_nil subject (l : list (string * list EventHandler))
    ctx event st st' :
  groups_until_error subject l ctx event st = Some (st', None) →
  for_each (group_body subject ctx event) l st = Some st'.
Proof.
  revert st. induction l as [|[g hs] l IH]; intros st;
    cbn [groups_until_error for_each group_body].
  - by intros [= <-].
  - destruct (List.length hs =? 0)%nat; [apply IH|].
    destruct (slice_index hs _) as [h|]; [|done].
    destruct (cursor_incr _ _ _) as [idx1|]; [|done].
    destruct (invoke _ ctx event _) as [st1 [msg|]]; [done|]. apply IH.
Qed.

(** X13. Where wildcards play no part and no handler fails, the older
    [Publish] and the current one do the same: the same calls in the
    same order, the same world, the same bus. *)
Theorem Publish_agrees_with_part002 sch b ctx subject e w b' w' calls :
  subject ≠ "" → exact_only b subject = true →
  Publish_part002 sch b ctx subject (Some e) w = Returned b' w' calls None →
  Publish sch b ctx subject (Some e) w = Returned b' w' calls None.
Proof.
  intros Hs Hexact. unfold Publish, Publish_part002. cbv zeta.
  rewrite decide_False by done. rewrite decide_False by done.
  set (st0 := {| d_index := groupIndex b; d_world := w; d_calls := [] |}).
  destruct (call_until_error _ _ _ ctx _ st0) as [st1 [msg|]] eqn:E1; [done|].
  apply call_until_error_nil in E1.
  assert (Hb : for_each (broadcast_body subject ctx (Some e))
                 (range_by (order_handlers sch) (handlers b)) st0 = Some st1).
  { destruct (handlers b !! subject) as [hs|] eqn:Hh.
    - change (call_all subject 0 hs ctx (Some e) st0 = st1) in E1.
      rewrite (for_each_only _ subject hs).
      + unfold broadcast_body.
        rewrite (exact_only_spec b subject subject Hexact) by (left; eauto).
        by rewrite String.eqb_refl, E1.
      + apply NoDup_fst_range_by.
      + by apply elem_of_range_by.
      + intros p y st' Hin%elem_of_range_by Hp. unfold broadcast_body.
        rewrite (exact_only_spec b subject p Hexact) by (left; eauto).
        by apply String.eqb_neq in Hp as ->.
    - change (st0 = st1) in E1. subst st1. apply for_each_skip.
      intros [p y] st' Hin%elem_of_range_by. unfold broadcast_body.
      rewrite (exact_only_spec b subject p Hexact) by (left; eauto).
      assert (Hp : p ≠ subject) by congruence.
      by apply String.eqb_neq in Hp as ->. }
  rewrite Hb.
  destruct (groups b !! subject) as [gm|] eqn:Hg.
  - destruct (groups_until_error _ _ ctx _ st1) as [[st2 err]|] eqn:E2; [|done].
    intros [= <- <- <- ->]. apply groups_until_error_nil in E2.
    rewrite (for_each_only _ subject gm).
    + unfold groups_body.
      rewrite (exact_only_spec b subject subject Hexact) by (right; eauto).
      by rewrite String.eqb_refl, E2.
    + apply NoDup_fst_range_by.
    + by apply elem_of_range_by.
    + intros p y st' Hin%elem_of_range_by Hp. unfold groups_body.
      rewrite (exact_only_spec b subject p Hexact) by (right; eauto).
      by apply String.eqb_neq in Hp as ->.
  - intros [= <- <- <-]. rewrite for_each_skip; [done|].
    intros [p y] st' Hin%elem_of_range_by. unfold groups_body.
    rewrite (exact_only_spec b subject p Hexact) by (right; eauto).
    assert (Hp : p ≠ subject) by congruence.
    by apply String.eqb_neq in Hp as ->.
Qed.
End part002_publish.

(** * The mock connection *)
Section sum_facts.
Context {A : Type}.
Implicit Types (f : A → nat) (l : list A).

Lemma sum_list_with_insert f l i x y :
  l !! i = Some x →
  (sum_list_with f (<[i := y]> l) + f x = sum_list_with f l + f y)%nat.
Proof.
  revert i. induction l as [|a l IH]; intros [|i]; try done.
  - intros [= ->]. clear IH. cbn [sum_list_with insert list_insert]. lia.
  - intros Hi. specialize (IH i Hi). cbn [sum_list_with insert list_insert].
    rewrite <-!Nat.add_assoc. f_equal. exact IH.
Qed.

Lemma sum_list_with_snoc f l x :
  sum_list_with f (l ++ [x]) = (sum_list_with f l + f x)%nat.
Proof. rewrite sum_list_with_app. cbn. lia. Qed.
End sum_facts.

Section close_all_facts.
Import mock_nats.
Implicit Types (l : list (string * Chan)) (acc chans : gmap string Chan).

Lemma close_loop l acc :
  (∀ e, e ∈ l → chan_closed e.2 = false) →
  for_each (λ (entry : string * Chan) acc,
              match close_chan entry.2 with
              | Some ch => Some (<[entry.1 := ch]> acc)
              | None => None
              end) l acc
  = Some (foldl (λ acc e, <[e.1 := shut e.2]> acc) acc l).
Proof.
  revert acc. induction l as [|e l IH]; intros acc Hopen; [done|].
  cbn [for_each foldl]. unfold close_chan at 1. rewrite (Hopen e) by left.
  apply IH. intros e' He'. apply Hopen. by right.
Qed.

Lemma lookup_foldl_shut_notin l acc k :
  k ∉ l.*1 → foldl (λ acc e, <[e.1 := shut e.2]> acc) acc l !! k = acc !! k.
Proof.
  revert acc. induction l as [|[k' ch] l IH]; intros acc Hk; [done|].
  cbn [foldl fst snd]. rewrite fmap_cons, not_elem_of_cons in Hk.
  destruct Hk as [Hne Hk]. rewrite IH by done. by rewrite lookup_insert_ne.
Qed.

Lemma lookup_foldl_shut_in l acc k ch :
  NoDup l.*1 → (k, ch) ∈ l →
  foldl (λ acc e, <[e.1 := shut e.2]> acc) acc l !! k = Some (shut ch).
Proof.
  revert acc. induction l as [|[k' ch'] l IH]; intros acc Hnd Hin.
  - by apply elem_of_nil in Hin.
  - rewrite fmap_cons in Hnd. apply NoDup_cons in Hnd as [Hk' Hnd].
    cbn [foldl fst snd]. apply elem_of_cons in Hin as [[= <- <-]|Hin].
    + rewrite lookup_foldl_shut_notin by done. by rewrite lookup_insert_eq.
    + by apply IH.
Qed.

(** Closing all the channels of a map in which none is closed. *)
Lemma close_all_open chans :
  (∀ s ch, chans !! s = Some ch → chan_closed ch = false) →
  close_all chans = Some (shut <$> chans).
Proof.
  intros Hopen. unfold close_all. rewrite close_loop.
  - f_equal. apply map_eq. intros k. rewrite lookup_fmap.
    destruct (chans !! k) as [ch|] eqn:E; cbn [fmap option_fmap option_map].
    + apply lookup_foldl_shut_in; [apply NoDup_fst_map_to_list|].
      by apply elem_of_map_to_list.
    + rewrite lookup_foldl_shut_notin; [done|].
      intros ([k' ch] & -> & Hin%elem_of_map_to_list)%list_elem_of_fmap.
      cbn [fst] in E. congruence.
  - intros [k ch] Hin%elem_of_map_to_list. by eapply Hopen.
Qed.
End close_all_facts.

Section mock_facts.
Import mock_nats.
Context {MsgHandler : Type}.
Local Abbreviation MockConn := (@MockConn MsgHandler).
Local Abbreviation MockSub := (@MockSub MsgHandler).
Local Abbreviation Op := (@Op MsgHandler).
Implicit Types (c : MockConn) (sub : MockSub) (ch : Chan) (msg : Msg).
Implicit Types (r : Routine) (ops : list Op) (s subject : string).

Local Ltac fields :=
  cbn [closed drained subs msgChan routines closers handled fst snd] in *.

Lemma sound_new : sound (@NewMockConn MsgHandler).
Proof.
  constructor; unfold NewMockConn; fields; done.
Qed.

Lemma carries_same (P : Msg → Prop) c c' :
  msgChan c' = msgChan c → routines c' = routines c → handled c' = handled c →
  carries P c → carries P c'.
Proof. unfold carries. by intros -> -> ->. Qed.

Lemma carries_new (P : Msg → Prop) : carries P (@NewMockConn MsgHandler).
Proof. unfold carries, NewMockConn. fields. by split_and!. Qed.

Lemma Close_sound c :
  sound c →
  ∃ c', Close c = Some c' ∧ sound c' ∧ closed c' = true
        ∧ routines c' = routines c ∧ handled c' = handled c
        ∧ closers c' = closers c ∧ drained c' = drained c
        ∧ (closed c = true → c' = c)
        ∧ (∀ s, in_chan s c' = in_chan s c)
        ∧ ∀ P : Msg → Prop, carries P c → carries P c'.
Proof.
  intros Hs. destruct c as [cl dr sb mc rt cs hd].
  unfold Close. fields. destruct cl.
  { eexists. by split_and!. }
  destruct Hs as [Hopen Hchan Hrt Hsubs Hclosed Hdr Hheld Hhd]. fields.
  rewrite close_all_open by (by apply Hopen).
  eexists. split; [done|]. split_and!; fields; try done.
  - constructor; fields.
    + done.
    + intros s ch (ch0 & <- & Hch)%lookup_fmap_Some.
      destruct (Hchan _ _ Hch) as (Hcap & Hlen & Hsub). by split_and!.
    + by rewrite length_fmap.
    + intros i sub. rewrite list_lookup_fmap.
      intros (sub0 & Hi & ->)%fmap_Some. rewrite lookup_fmap.
      apply fmap_is_Some. exact (Hsubs i sub0 Hi).
    + intros _. apply Forall_fmap, Forall_forall. done.
    + by left.
    + intros i sub r msg. rewrite list_lookup_fmap.
      intros (sub0 & Hi & ->)%fmap_Some. exact (Hheld i sub0 r msg Hi).
    + eapply Forall_impl; [exact Hhd|]. intros e (sub & Hi & Heq).
      exists (mark_closed sub). by rewrite list_lookup_fmap, Hi.
  - intros s. unfold in_chan. fields. rewrite lookup_fmap.
    by destruct (mc !! s).
  - intros P (Hbuf & Hrs & Hhs). unfold carries. fields. split_and!; [|done|done].
    intros s ch (ch0 & <- & Hch)%lookup_fmap_Some. exact (Hbuf s ch0 Hch).
Qed.

Lemma Drain_sound c :
  sound c →
  sound (Drain c).1
  ∧ routines (Drain c).1 = routines c ∧ handled (Drain c).1 = handled c
  ∧ msgChan (Drain c).1 = msgChan c ∧ closed (Drain c).1 = closed c.
Proof.
  intros Hs. destruct c as [cl dr sb mc rt cs hd].
  unfold Drain. fields. destruct cl; [done|].
  split_and!; try done.
  destruct Hs as [Hopen Hchan Hrt Hsubs Hclosed Hdr Hheld Hhd]. fields.
  constructor; fields; try done. intros _. right. lia.
Qed.

Lemma Publish_sound subject data c :
  sound c →
  ∃ c' err, Publish subject data c = Some (c', err) ∧ sound c'
    ∧ routines c' = routines c ∧ handled c' = handled c
    ∧ closed c' = closed c
    ∧ (∀ s, (in_chan s c' ≤ in_chan s c + if decide (subject = s) then 1 else 0)%nat)
    ∧ ∀ P : Msg → Prop,
        P {| msg_Subject := subject; msg_Data := data |} →
        carries P c → carries P c'.
Proof.
  intros Hs. destruct c as [cl dr sb mc rt cs hd].
  unfold Publish. fields. destruct cl.
  { eexists _, _. split_and!; try done. intros; lia. }
  destruct (mc !! subject) as [ch|] eqn:Hch.
  2:{ eexists _, _. split_and!; try done. intros; lia. }
  destruct Hs as [Hopen Hchan Hrt Hsubs Hclosed Hdr Hheld Hhd]. fields.
  pose proof (Hopen eq_refl _ _ Hch) as Hop.
  pose proof (Hchan _ _ Hch) as (Hcap & Hlen & Hsub).
  unfold try_send. rewrite Hop. cbv zeta.
  destruct (List.length (chan_buf ch) <? chan_cap ch)%nat eqn:Hroom.
  - apply Nat.ltb_lt in Hroom. eexists _, _. split; [done|].
    split_and!; fields; try done.
    + constructor; fields; try done.
      * intros _ s ch' [[<- <-]|[Hne Hl]]%lookup_insert_Some; [done|].
        by eapply Hopen.
      * intros s ch' [[<- <-]|[Hne Hl]]%lookup_insert_Some; [|by apply Hchan].
        cbn [chan_buf chan_cap]. split_and!; [done|rewrite length_app; cbn; lia|].
        apply Forall_app. split; [done|]. by constructor.
      * intros i sub Hi. apply lookup_insert_is_Some'. right. by eapply Hsubs.
    + intros s. unfold in_chan. fields.
      destruct (decide (subject = s)) as [<-|Hne].
      * rewrite lookup_insert_eq, Hch. cbn. rewrite length_app. cbn. lia.
      * rewrite lookup_insert_ne by done. lia.
    + intros P HP (Hbuf & Hrs & Hhs). unfold carries. fields.
      split_and!; [|done|done].
      intros s ch' [[<- <-]|[Hne Hl]]%lookup_insert_Some; [|by eapply Hbuf].
      cbn [chan_buf]. apply Forall_app. split; [by eapply Hbuf|by constructor].
  - eexists _, _. split; [done|]. rewrite insert_id by done.
    split_and!; fields; try done.
    intros s. destruct (decide (subject = s)); lia.
Qed.

Lemma Subscribe_sound subject handler c :
  sound c →
  sound (Subscribe subject handler c).1.1
  ∧ handled (Subscribe subject handler c).1.1 = handled c
  ∧ closed (Subscribe subject handler c).1.1 = closed c
  ∧ (∀ s, in_chan s (Subscribe subject handler c).1.1 = in_chan s c)
  ∧ (∀ s, in_flight s (Subscribe subject handler c).1.1 = in_flight s c)
  ∧ ∀ P : Msg → Prop,
      carries P c → carries P (Subscribe subject handler c).1.1.
Proof.
  intros Hs. destruct c as [cl dr sb mc rt cs hd].
  unfold Subscribe. fields. destruct cl; [done|]. cbv zeta.
  destruct Hs as [Hopen Hchan Hrt Hsubs Hclosed Hdr Hheld Hhd]. fields.
  set (chans := match mc !! subject with
                | Some _ => mc
                | None => <[subject := make_chan 100]> mc
                end).
  assert (Hold : ∀ s ch, mc !! s = Some ch → chans !! s = Some ch).
  { intros s ch Hch. unfold chans. destruct (mc !! subject) eqn:E; [done|].
    rewrite lookup_insert_ne; [done|]. intros <-. congruence. }
  assert (Hnew : ∀ s ch, chans !! s = Some ch →
                   mc !! s = Some ch
                   ∨ (mc !! s = None ∧ s = subject ∧ ch = make_chan 100)).
  { intros s ch. unfold chans. destruct (mc !! subject) eqn:E; [by left|].
    intros [[<- <-]|[Hne Hl]]%lookup_insert_Some; [by right|by left]. }
  assert (Hsubj : is_Some (chans !! subject)).
  { unfold chans. destruct (mc !! subject) eqn:E; [by rewrite E|].
    rewrite lookup_insert_eq. eauto. }
  split_and!; fields; try done.
  - constructor; fields.
    + intros _ s ch [Hch|(_ & _ & ->)]%Hnew; [by eapply Hopen|done].
    + intros s ch [Hch|(_ & -> & ->)]%Hnew; [by apply Hchan|].
      cbn. split_and!; [done|lia|constructor].
    + rewrite !length_app. cbn. lia.
    + intros i sub [Hi|[_ Hi]]%lookup_app_Some.
      * destruct (Hsubs i sub Hi) as [ch Hch]. rewrite (Hold _ _ Hch). eauto.
      * destruct (i - List.length sb)%nat; [|done].
        injection Hi as <-. done.
    + done.
    + done.
    + intros i sub r msg [Hi|[Hge Hi]]%lookup_app_Some.
      * intros [Hr|[Hge' Hr]]%lookup_app_Some; [by eapply Hheld|].
        apply lookup_lt_Some in Hi. lia.
      * intros [Hr|[_ Hr]]%lookup_app_Some.
        -- apply lookup_lt_Some in Hr. lia.
        -- destruct (i - List.length rt)%nat; [|done].
           by injection Hr as <-.
    + eapply Forall_impl; [exact Hhd|]. intros e (sub & Hi & Heq).
      exists sub. split; [|done]. by apply lookup_app_l_Some.
  - intros s. unfold in_chan. fields. unfold chans.
    destruct (mc !! subject) eqn:E; [done|].
    destruct (decide (s = subject)) as [->|Hne].
    + by rewrite lookup_insert_eq, E.
    + by rewrite lookup_insert_ne.
  - intros s. unfold in_flight. fields. rewrite sum_list_with_snoc. cbn. lia.
  - intros P (Hbuf & Hrs & Hhs). unfold carries. fields. split_and!; [| |done].
    + intros s ch [Hch|(_ & _ & ->)]%Hnew; [by eapply Hbuf|constructor].
    + apply Forall_app. split; [done|]. by constructor.
Qed.

Lemma Unsubscribe_sound i c :
  sound c →
  sound (Unsubscribe i c).1
  ∧ routines (Unsubscribe i c).1 = routines c
  ∧ handled (Unsubscribe i c).1 = handled c
  ∧ msgChan (Unsubscribe i c).1 = msgChan c
  ∧ closed (Unsubscribe i c).1 = closed c.
Proof.
  intros Hs. destruct c as [cl dr sb mc rt cs hd].
  unfold Unsubscribe. fields.
  destruct (sb !! i) as [sub0|] eqn:Hi0; [|done].
  destruct (sub_closed sub0) eqn:Hc0; [done|]. fields.
  split_and!; try done.
  destruct Hs as [Hopen Hchan Hrt Hsubs Hclosed Hdr Hheld Hhd]. fields.
  assert (Hlook : ∀ j sub, <[i := mark_closed sub0]> sb !! j = Some sub →
                    ∃ sub', sb !! j = Some sub'
                            ∧ sub_subject sub' = sub_subject sub).
  { intros j sub. destruct (decide (i = j)) as [<-|Hne].
    - rewrite list_lookup_insert_eq by (by eapply lookup_lt_Some).
      intros [= <-]. by exists sub0.
    - rewrite list_lookup_insert_ne by done. intros Hj. by exists sub. }
  constructor; fields; try done.
  - by rewrite length_insert.
  - intros j sub (sub' & Hj & <-)%Hlook. by eapply Hsubs.
  - intros Hcl. apply Forall_insert; [by apply Hclosed|done].
  - intros j sub r msg (sub' & Hj & <-)%Hlook. by apply Hheld.
  - eapply Forall_impl; [exact Hhd|]. intros e (sub & Hj & Heq).
    destruct (decide (i = e.1)) as [Hie|Hne].
    + exists (mark_closed sub0). rewrite <-Hie in Hj |- *.
      rewrite list_lookup_insert_eq by (by eapply lookup_lt_Some).
      split; [done|]. cbn. congruence.
    + exists sub. by rewrite list_lookup_insert_ne.
Qed.
End mock_facts.

Section mock_steps.
Import mock_nats.
Context {MsgHandler : Type}.
Local Abbreviation MockConn := (@MockConn MsgHandler).
Local Abbreviation MockSub := (@MockSub MsgHandler).
Local Abbreviation Op := (@Op MsgHandler).
Implicit Types (c : MockConn) (sub : MockSub) (ch : Chan) (msg : Msg).
Implicit Types (r : Routine) (ops : list Op) (s subject : string).

Local Ltac fields :=
  cbn [closed drained subs msgChan routines closers handled fst snd] in *.

Lemma set_routine_sound i r r' c :
  sound c → routines c !! i = Some r →
  (∀ msg, held r' = Some msg → held r = Some msg) →
  sound (set_routine i r' c)
  ∧ ∀ P : Msg → Prop, carries P c → carries P (set_routine i r' c).
Proof.
  intros Hs Hr Hheld'. destruct c as [cl dr sb mc rt cs hd].
  unfold set_routine. fields.
  destruct Hs as [Hopen Hchan Hrt Hsubs Hclosed Hdr Hheld Hhd]. fields. split.
  - constructor; fields; try done.
    + by rewrite length_insert.
    + intros j sub r0 msg Hj. destruct (decide (i = j)) as [<-|Hne].
      * rewrite list_lookup_insert_eq by (by eapply lookup_lt_Some).
        intros [= <-] Hm. apply (Hheld i sub r msg Hj Hr). by apply Hheld'.
      * rewrite list_lookup_insert_ne by done. by apply Hheld.
  - intros P (Hbuf & Hrs & Hhs). unfold carries. fields. split_and!; [done| |done].
    apply Forall_insert; [done|]. intros msg Hm.
    rewrite Forall_lookup in Hrs. apply (Hrs i r Hr). by apply Hheld'.
Qed.

Lemma routine_step_sound i c :
  sound c →
  sound (routine_step i c)
  ∧ closed (routine_step i c) = closed c
  ∧ (∀ s, (accounted s (routine_step i c) ≤ accounted s c)%nat)
  ∧ (closed c = true →
     (List.length (handled (routine_step i c)) + calling (routine_step i c)
      ≤ List.length (handled c) + calling c)%nat)
  ∧ ∀ P : Msg → Prop, carries P c → carries P (routine_step i c).
Proof.
  intros Hs.
  assert (Hsame : sound c ∧ closed c = closed c
            ∧ (∀ s, (accounted s c ≤ accounted s c)%nat)
            ∧ (closed c = true →
               (List.length (handled c) + calling c
                ≤ List.length (handled c) + calling c)%nat)
            ∧ ∀ P : Msg → Prop, carries P c → carries P c).
  { split_and!; try done; intros; lia. }
  unfold routine_step.
  destruct (subs c !! i) as [sub|] eqn:Hi; [|done].
  destruct (routines c !! i) as [[|msg|msg|]|] eqn:Hr; [| | |done|done].
  - (* at the receive *)
    destruct (msgChan c !! sub_subject sub) as [ch|] eqn:Hch; [|done].
    destruct (chan_buf ch) as [|msg rest] eqn:Hbuf.
    + destruct (chan_closed ch); [|done].
      destruct (set_routine_sound i Receiving Finished c Hs Hr) as [Hs' Hcar];
        [done|].
      split_and!; [done|done| | |done].
      * intros s. unfold accounted, handled_for, in_flight, in_chan, set_routine.
        fields.
        pose proof (sum_list_with_insert
                      (λ r, from_option (for_subject s) 0%nat (held r))
                      (routines c) i Receiving Finished Hr) as Hsum.
        cbn [held from_option] in Hsum. lia.
      * intros _. unfold calling, set_routine. fields.
        pose proof (sum_list_with_insert
                      (λ r, match r with Calling _ => 1 | _ => 0 end)%nat
                      (routines c) i Receiving Finished Hr) as Hsum.
        cbn beta iota in Hsum. lia.
    + destruct c as [cl dr sb mc rt cs hd]. fields.
      destruct Hs as [Hopen Hchan Hrt Hsubs Hclosed Hdr Hheld Hhd]. fields.
      destruct (Hchan _ _ Hch) as (Hcap & Hlen & Hsub).
      rewrite Hbuf in Hlen, Hsub. cbn [List.length] in Hlen.
      apply Forall_cons in Hsub as [Hmsg Hrest].
      split_and!; [|done| | |].
      * constructor; fields; try done.
        -- intros Hcl s ch' [[<- <-]|[Hne Hl]]%lookup_insert_Some;
             [exact (Hopen Hcl _ _ Hch)|exact (Hopen Hcl _ _ Hl)].
        -- intros s ch' [[<- <-]|[Hne Hl]]%lookup_insert_Some; [|by apply Hchan].
           cbn [chan_buf chan_cap]. split_and!; [done|lia|done].
        -- by rewrite length_insert.
        -- intros j sub' Hj. apply lookup_insert_is_Some'. right. by eapply Hsubs.
        -- intros j sub' r0 msg0 Hj. destruct (decide (i = j)) as [<-|Hne].
           ++ rewrite list_lookup_insert_eq by (by eapply lookup_lt_Some).
              intros [= <-] [= <-]. congruence.
           ++ rewrite list_lookup_insert_ne by done. by apply Hheld.
      * intros s. unfold accounted, handled_for, in_flight, in_chan. fields.
        pose proof (sum_list_with_insert
                      (λ r, from_option (for_subject s) 0%nat (held r))
                      rt i Receiving (Received msg) Hr) as Hsum.
        cbn [held from_option] in Hsum.
        destruct (decide (s = sub_subject sub)) as [->|Hne].
        -- rewrite lookup_insert_eq, Hch. cbn [from_option chan_buf].
           rewrite Hbuf. cbn [List.length].
           assert (Hw : for_subject (sub_subject sub) msg = 1%nat)
             by (unfold for_subject; by rewrite decide_True).
           lia.
        -- rewrite lookup_insert_ne by done.
           assert (Hw : for_subject s msg = 0%nat)
             by (unfold for_subject; rewrite decide_False; [done|congruence]).
           lia.
      * intros _. unfold calling. fields.
        pose proof (sum_list_with_insert
                      (λ r, match r with Calling _ => 1 | _ => 0 end)%nat
                      rt i Receiving (Received msg) Hr) as Hsum.
        cbn beta iota in Hsum. lia.
      * intros P (Hb & Hrs & Hhs). unfold carries. fields.
        pose proof (Hb _ _ Hch) as Hall. rewrite Hbuf in Hall.
        apply Forall_cons in Hall as [HPmsg HPrest].
        split_and!; [| |done].
        -- intros s ch' [[<- <-]|[Hne Hl]]%lookup_insert_Some; [done|by eapply Hb].
        -- apply Forall_insert; [done|]. by intros msg0 [= <-].
  - (* after the receive *)
    assert (Hcase : ∀ r', (∀ msg0, held r' = Some msg0 → msg0 = msg) →
              (closed c = true → r' = Finished) →
              sound (set_routine i r' c)
              ∧ closed (set_routine i r' c) = closed c
              ∧ (∀ s, (accounted s (set_routine i r' c) ≤ accounted s c)%nat)
              ∧ (closed c = true →
                 (List.length (handled (set_routine i r' c))
                  + calling (set_routine i r' c)
                  ≤ List.length (handled c) + calling c)%nat)
              ∧ ∀ P : Msg → Prop, carries P c → carries P (set_routine i r' c)).
    { intros r' Hr' Hfin.
      destruct (set_routine_sound i (Received msg) r' c Hs Hr) as [Hs' Hcar].
      { by intros msg0 ->%Hr'. }
      split_and!; [done|done| | |done].
      - intros s. unfold accounted, handled_for, in_flight, in_chan, set_routine.
        fields.
        pose proof (sum_list_with_insert
                      (λ r, from_option (for_subject s) 0%nat (held r))
                      (routines c) i (Received msg) r' Hr) as Hsum.
        cbn [held from_option] in Hsum.
        assert (from_option (for_subject s) 0 (held r') ≤ for_subject s msg)%nat.
        { destruct (held r') as [msg0|] eqn:E; cbn; [|lia].
          by rewrite (Hr' msg0 eq_refl). }
        lia.
      - intros ->%Hfin. unfold calling, set_routine. fields.
        pose proof (sum_list_with_insert
                      (λ r, match r with Calling _ => 1 | _ => 0 end)%nat
                      (routines c) i (Received msg) Finished Hr) as Hsum.
        cbn beta iota in Hsum. lia. }
    destruct (sub_closed sub) eqn:Hsc.
    + apply Hcase; done.
    + apply Hcase; [by intros msg0 [= <-]|].
      intros Hcl. pose proof (sound_closed c Hs Hcl) as Hall.
      rewrite Forall_lookup in Hall. specialize (Hall i sub Hi). congruence.
  - (* before the call of the handler *)
    destruct c as [cl dr sb mc rt cs hd]. fields.
    destruct Hs as [Hopen Hchan Hrt Hsubs Hclosed Hdr Hheld Hhd]. fields.
    split_and!; [|done| | |].
    + constructor; fields; try done.
      * by rewrite length_insert.
      * intros j sub' r0 msg0 Hj. destruct (decide (i = j)) as [<-|Hne].
        -- rewrite list_lookup_insert_eq by (by eapply lookup_lt_Some).
           by intros [= <-].
        -- rewrite list_lookup_insert_ne by done. by apply Hheld.
      * apply Forall_app. split; [done|]. constructor; [|done].
        exists sub. split; [done|]. symmetry. by apply (Hheld i sub (Calling msg) msg).
    + intros s. unfold accounted, handled_for, in_flight, in_chan. fields.
      rewrite sum_list_with_snoc. cbn [snd].
      pose proof (sum_list_with_insert
                    (λ r, from_option (for_subject s) 0%nat (held r))
                    rt i (Calling msg) Receiving Hr) as Hsum.
      cbn [held from_option] in Hsum. lia.
    + intros _. unfold calling. fields. rewrite length_app. cbn [List.length].
      pose proof (sum_list_with_insert
                    (λ r, match r with Calling _ => 1 | _ => 0 end)%nat
                    rt i (Calling msg) Receiving Hr) as Hsum.
      cbn beta iota in Hsum. lia.
    + intros P (Hb & Hrs & Hhs). unfold carries. fields.
      rewrite Forall_lookup in Hrs. pose proof (Hrs i _ Hr msg eq_refl) as HP.
      split_and!; [done| |].
      * apply Forall_insert; [by apply Forall_lookup|]. by intros msg0.
      * apply Forall_app. split; [done|]. by constructor.
Qed.

Lemma closer_step_sound c :
  sound c →
  ∃ c', closer_step c = Some c' ∧ sound c'
        ∧ (closed c = true → closed c' = true)
        ∧ ((0 < closers c)%nat → closed c' = true)
        ∧ routines c' = routines c ∧ handled c' = handled c
        ∧ (∀ s, in_chan s c' = in_chan s c)
        ∧ ∀ P : Msg → Prop, carries P c → carries P c'.
Proof.
  intros Hs. unfold closer_step. destruct (closers c) as [|n] eqn:Hn.
  { exists c. split_and!; try done. lia. }
  destruct (Close_sound c Hs)
    as (c' & -> & Hs' & Hcl & Hrt & Hhd & _ & _ & _ & Hin & Hcar).
  eexists. split; [done|]. split_and!; fields.
  - destruct Hs' as [Hopen Hchan Hrt' Hsubs Hclosed Hdr Hheld Hhd'].
    constructor; fields; try done. intros _. by left.
  - done.
  - done.
  - done.
  - done.
  - intros s. rewrite <-Hin. done.
  - intros P HP. destruct (Hcar P HP) as (? & ? & ?). by split_and!.
Qed.

Lemma accounted_le s c c' k :
  routines c' = routines c → handled c' = handled c →
  (in_chan s c' ≤ in_chan s c + k)%nat →
  (accounted s c' ≤ accounted s c + k)%nat.
Proof.
  intros Hrt Hhd Hin. unfold accounted, handled_for, in_flight.
  rewrite Hrt, Hhd. lia.
Qed.

Lemma late_calls_le c c' :
  routines c' = routines c → handled c' = handled c →
  (List.length (handled c') + calling c' ≤ List.length (handled c) + calling c)%nat.
Proof. intros Hrt Hhd. unfold calling. rewrite Hrt, Hhd. lia. Qed.

(** One operation on a connection in order: it does not panic, it
    leaves the connection in order, and it adds no message but the one
    of a [Publish]. *)
Lemma step_sound op c :
  sound c →
  ∃ c', step op c = Some c' ∧ sound c'
    ∧ (∀ s, (accounted s c' ≤ accounted s c + published s [op])%nat)
    ∧ (closed c = true →
       closed c' = true
       ∧ (List.length (handled c') + calling c'
          ≤ List.length (handled c) + calling c)%nat)
    ∧ ∀ P : Msg → Prop,
        (∀ subject data, op = CallPublish subject data →
           P {| msg_Subject := subject; msg_Data := data |}) →
        carries P c → carries P c'.
Proof.
  intros Hs. destruct op as [| |subject data|subject handler|subject queue handler
                             |i|i|]; cbn [step].
  - destruct (Close_sound c Hs)
      as (c' & -> & Hs' & Hcl & Hrt & Hhd & _ & _ & Hid & Hin & Hcar).
    exists c'. split_and!; [done|done| | |].
    + intros s. apply accounted_le; [done|done|]. rewrite Hin. lia.
    + intros _. split; [done|by apply late_calls_le].
    + intros P _. apply Hcar.
  - destruct (Drain_sound c Hs) as (Hs' & Hrt & Hhd & Hmc & Hcl).
    eexists. split_and!; [done|done| | |].
    + intros s. apply accounted_le; [done|done|]. unfold in_chan. rewrite Hmc. lia.
    + intros Hc. split; [by rewrite Hcl|by apply late_calls_le].
    + intros P _. by apply carries_same.
  - destruct (Publish_sound subject data c Hs)
      as (c' & err & -> & Hs' & Hrt & Hhd & Hcl & Hin & Hcar).
    exists c'. split_and!; [done|done| | |].
    + intros s. apply accounted_le; [done|done|].
      unfold published. cbn [sum_list_with]. specialize (Hin s).
      destruct (decide (subject = s)); lia.
    + intros Hc. split; [by rewrite Hcl|by apply late_calls_le].
    + intros P HP. apply Hcar. by apply HP.
  - destruct (Subscribe_sound subject handler c Hs)
      as (Hs' & Hhd & Hcl & Hin & Hfl & Hcar).
    eexists. split_and!; [done|done| | |].
    + intros s. unfold accounted, handled_for. rewrite Hhd, Hin, Hfl.
      unfold published. cbn. lia.
    + intros Hc. split; [by rewrite Hcl|].
      unfold Subscribe. rewrite Hc. cbn [fst]. lia.
    + intros P _. apply Hcar.
  - destruct (Subscribe_sound subject handler c Hs)
      as (Hs' & Hhd & Hcl & Hin & Hfl & Hcar).
    unfold QueueSubscribe. eexists. split_and!; [done|done| | |].
    + intros s. unfold accounted, handled_for. rewrite Hhd, Hin, Hfl.
      unfold published. cbn. lia.
    + intros Hc. split; [by rewrite Hcl|].
      unfold Subscribe. rewrite Hc. cbn [fst]. lia.
    + intros P _. apply Hcar.
  - destruct (Unsubscribe_sound i c Hs) as (Hs' & Hrt & Hhd & Hmc & Hcl).
    eexists. split_and!; [done|done| | |].
    + intros s. apply accounted_le; [done|done|]. unfold in_chan. rewrite Hmc. lia.
    + intros Hc. split; [by rewrite Hcl|by apply late_calls_le].
    + intros P _. by apply carries_same.
  - destruct (routine_step_sound i c Hs) as (Hs' & Hcl & Hacc & Hlate & Hcar).
    eexists. split_and!; [done|done| | |].
    + intros s. specialize (Hacc s). unfold published. cbn. lia.
    + intros Hc. split; [by rewrite Hcl|by apply Hlate].
    + intros P _. apply Hcar.
  - destruct (closer_step_sound c Hs)
      as (c' & -> & Hs' & Hcl & _ & Hrt & Hhd & Hin & Hcar).
    exists c'. split_and!; [done|done| | |].
    + intros s. apply accounted_le; [done|done|]. rewrite Hin. lia.
    + intros Hc. split; [by apply Hcl|by apply late_calls_le].
    + intros P _. apply Hcar.
Qed.

Lemma published_cons s op ops :
  published s (op :: ops) = (published s [op] + published s ops)%nat.
Proof. unfold published. cbn [sum_list_with]. lia. Qed.

(** Any run of operations on a connection in order. *)
Lemma run_sound ops c :
  sound c →
  ∃ c', run ops c = Some c' ∧ sound c'
    ∧ (∀ s, (accounted s c' ≤ accounted s c + published s ops)%nat)
    ∧ (closed c = true →
       closed c' = true
       ∧ (List.length (handled c') + calling c'
          ≤ List.length (handled c) + calling c)%nat)
    ∧ ∀ P : Msg → Prop,
        (∀ subject data, CallPublish subject data ∈ ops →
           P {| msg_Subject := subject; msg_Data := data |}) →
        carries P c → carries P c'.
Proof.
  revert c. induction ops as [|op ops IH]; intros c Hs.
  - exists c. split_and!; [done|done| | |done].
    + intros s. unfold published. cbn. lia.
    + intros Hc. split; [done|lia].
  - destruct (step_sound op c Hs) as (c1 & Hstep & Hs1 & Hacc1 & Hcl1 & Hcar1).
    destruct (IH c1 Hs1) as (c' & Hrun & Hs' & Hacc & Hcl & Hcar).
    exists c'. unfold run. cbn [for_each]. rewrite Hstep.
    split_and!; [done|done| | |].
    + intros s. rewrite published_cons. specialize (Hacc1 s). specialize (Hacc s).
      lia.
    + intros Hc. destruct (Hcl1 Hc) as [Hc1 Hle1].
      destruct (Hcl Hc1) as [Hc' Hle]. split; [done|lia].
    + intros P HP Hc. apply Hcar.
      * intros subject data Hin. apply HP. by right.
      * apply Hcar1; [|done]. intros subject data ->. apply HP. by left.
Qed.
End mock_steps.

Section mock_theorems.
Import mock_nats.
Context {MsgHandler : Type}.
Local Abbreviation MockConn := (@MockConn MsgHandler).
Local Abbreviation MockSub := (@MockSub MsgHandler).
Local Abbreviation Op := (@Op MsgHandler).
Implicit Types (c : MockConn) (sub : MockSub) (ch : Chan) (msg : Msg).
Implicit Types (r : Routine) (ops : list Op) (s subject : string).

(** X14. Whatever is called on a connection made by [NewMockConn], and
    however its goroutines are scheduled, the connection does not
    panic: no channel is closed twice and nothing is sent on a closed
    channel.  No buffer ever holds more than its 100 messages, no
    channel is closed while the connection is open, and every
    subscription has its goroutine. *)
Theorem MockConn_never_panics ops :
  ∃ c, run ops (@NewMockConn MsgHandler) = Some c
    ∧ (∀ s ch, msgChan c !! s = Some ch →
         chan_cap ch = 100%nat ∧ (List.length (chan_buf ch) ≤ 100)%nat)
    ∧ (closed c = false → ∀ s ch, msgChan c !! s = Some ch → chan_closed ch = false)
    ∧ List.length (routines c) = List.length (subs c).
Proof.
  destruct (run_sound ops NewMockConn sound_new) as (c & Hrun & Hs & _).
  exists c. destruct Hs as [Hopen Hchan Hrt Hsubs Hclosed Hdr Hheld Hhd].
  split_and!; [done| |done|done].
  intros s ch Hch. destruct (Hchan s ch Hch) as (? & ? & _). done.
Qed.

(** X15. A handler is called with nothing but messages that were published,
    and published to the subject of its own subscription. *)
Theorem handlers_get_published_messages ops :
  ∃ c, run ops (@NewMockConn MsgHandler) = Some c
    ∧ ∀ i msg, (i, msg) ∈ handled c →
        (∃ sub, subs c !! i = Some sub ∧ sub_subject sub = msg_Subject msg)
        ∧ CallPublish (msg_Subject msg) (msg_Data msg) ∈ ops.
Proof.
  destruct (run_sound ops NewMockConn sound_new) as (c & Hrun & Hs & _ & _ & Hcar).
  exists c. split; [done|]. intros i msg Hin. split.
  - pose proof (sound_handled c Hs) as Hall. rewrite Forall_forall in Hall.
    exact (Hall (i, msg) Hin).
  - destruct (Hcar (λ msg, CallPublish (msg_Subject msg) (msg_Data msg) ∈ ops))
      as (_ & _ & Hall); [done|apply carries_new|].
    rewrite Forall_forall in Hall. exact (Hall (i, msg) Hin).
Qed.

(** X16. The subscribers of a subject share its channel: the messages of a
    subject handed to handlers, held by goroutines and waiting in the
    buffer are together no more than the calls of [Publish] to that
    subject.  A message is handled at most once, however many
    subscriptions the subject has. *)
Theorem handled_at_most_once ops s :
  ∃ c, run ops (@NewMockConn MsgHandler) = Some c
    ∧ (handled_for s c + in_flight s c + in_chan s c ≤ published s ops)%nat.
Proof.
  destruct (run_sound ops NewMockConn sound_new) as (c & Hrun & _ & Hacc & _).
  exists c. split; [done|]. specialize (Hacc s).
  unfold accounted in Hacc at 1. by rewrite Nat.add_0_l in Hacc.
Qed.

(** X17. [Drain] marks the connection as drained and leaves the closing to
    a goroutine: a drained connection is closed, or has such a
    goroutine waiting, and the step of that goroutine closes it. *)
Theorem Drain_closes_later ops :
  ∃ c, run ops (@NewMockConn MsgHandler) = Some c
    ∧ (drained c = true → closed c = true ∨ (0 < closers c)%nat)
    ∧ (closed c = false →
       (Drain c).2 = None
       ∧ drained (Drain c).1 = true ∧ closed (Drain c).1 = false
       ∧ ∃ c', closer_step (Drain c).1 = Some c' ∧ closed c' = true
               ∧ drained c' = true).
Proof.
  destruct (run_sound ops NewMockConn sound_new) as (c & Hrun & Hs & _).
  exists c. split_and!; [done|by apply sound_drained|]. intros Hcl.
  destruct (Drain_sound c Hs) as (Hs' & _).
  destruct (closer_step_sound _ Hs') as (c' & Hstep & _ & _ & Hc' & _).
  revert Hs' Hstep Hc'. unfold Drain. rewrite Hcl. cbn [fst snd closed drained closers].
  intros Hs' Hstep Hc'. split_and!; [done|done|done|].
  exists c'. split_and!; [done|apply Hc'; lia|].
  revert Hstep. unfold closer_step, Close. cbn [closed drained closers msgChan].
  destruct (close_all (msgChan c)); [|done]. by intros [= <-].
Qed.

(** X18. A closed connection stays closed.  From then on [Publish],
    [Subscribe] and [Drain] fail with [ErrConnectionClosed] and change
    nothing, [Close] does nothing, and what is left in the buffers is
    never handled: only a goroutine that had passed its test of
    [sub.closed] before the connection was closed still calls its
    handler, once. *)
Theorem closed_for_good ops1 c ops2 :
  run ops1 (@NewMockConn MsgHandler) = Some c → closed c = true →
  ∃ c', run ops2 c = Some c' ∧ closed c' = true
    ∧ (List.length (handled c') ≤ List.length (handled c) + calling c)%nat
    ∧ (∀ subject data, Publish subject data c' = Some (c', ErrConnectionClosed))
    ∧ (∀ subject handler,
         Subscribe subject handler c' = (c', None, ErrConnectionClosed))
    ∧ Drain c' = (c', ErrConnectionClosed)
    ∧ Close c' = Some c'.
Proof.
  intros Hrun1 Hcl.
  destruct (run_sound ops1 NewMockConn sound_new) as (c0 & Hrun0 & Hs & _).
  rewrite Hrun1 in Hrun0. injection Hrun0 as <-.
  destruct (run_sound ops2 c Hs) as (c' & Hrun & _ & _ & Hlate & _).
  destruct (Hlate Hcl) as [Hcl' Hle].
  exists c'. split_and!; [done|done|lia| | | |].
  - intros subject data. unfold Publish. by rewrite Hcl'.
  - intros subject handler. unfold Subscribe. by rewrite Hcl'.
  - unfold Drain. by rewrite Hcl'.
  - unfold Close. by rewrite Hcl'.
Qed.
End mock_theorems.

Section mock_bus_theorems.
Import mock_nats mock_nats.MockNATSBus.
Context {MsgHandler Ctx Event Handler : Type}.
Local Abbreviation MockNATSBus := (@MockNATSBus MsgHandler).
Local Abbreviation BusOp := (@BusOp Ctx Event Handler).
Implicit Types (b : MockNATSBus) (ops : list BusOp).

Lemma bus_run_empty ops b :
  subs (conn b) = [] → msgChan (conn b) = ∅ →
  routines (conn b) = [] → handled (conn b) = [] →
  ∃ b', bus_run ops b = Some b'
    ∧ subs (conn b') = [] ∧ msgChan (conn b') = ∅
    ∧ routines (conn b') = [] ∧ handled (conn b') = [].
Proof.
  revert b. induction ops as [|op ops IH]; intros b Hsb Hmc Hrt Hhd.
  - by exists b.
  - assert (Hclose : ∃ c, mock_nats.Close (conn b) = Some c
              ∧ subs c = [] ∧ msgChan c = ∅ ∧ routines c = [] ∧ handled c = []
              ∧ closers c = closers (conn b)).
    { unfold mock_nats.Close. destruct (closed (conn b)); [by eexists|].
      rewrite Hmc. unfold close_all. rewrite map_to_list_empty. cbn [for_each].
      eexists. split; [done|]. cbn. by rewrite Hsb. }
    unfold bus_run. cbn [for_each].
    destruct op as [ctx subject event|ctx subject handler|ctx subject group handler
                   |ctx|ctx|]; cbn [bus_step].
    + by apply IH.
    + by apply IH.
    + by apply IH.
    + unfold Close. destruct Hclose as (c & -> & ? & ? & ? & ? & _).
      cbn [fmap option_fmap option_map fst]. by apply IH.
    + unfold Drain, mock_nats.Drain. destruct (closed (conn b)) eqn:Hcl.
      * cbn [fst]. by apply IH.
      * cbn [fst]. by apply IH.
    + unfold closer_step. destruct (closers (conn b)) as [|n].
      * cbn [fmap option_fmap option_map]. destruct b as [c]. by apply IH.
      * destruct Hclose as (c & -> & ? & ? & ? & ? & _).
        cbn [fmap option_fmap option_map]. by apply IH.
Qed.

(** X19. The methods [Publish], [Subscribe] and [SubscribeWithHandlerGroup]
    of [MockNATSBus] do not reach its connection: whatever is called on
    the bus, the connection has no subscription and no channel, and no
    handler is ever called; and nothing panics. *)
Theorem MockNATSBus_delivers_nothing ops :
  ∃ b, bus_run ops (@NewMockNATSBus MsgHandler) = Some b
    ∧ subs (conn b) = [] ∧ msgChan (conn b) = ∅ ∧ handled (conn b) = [].
Proof.
  destruct (bus_run_empty ops NewMockNATSBus) as (b & Hrun & ? & ? & _ & ?);
    [done..|].
  by exists b.
Qed.
End mock_bus_theorems.

(** * The further properties on the examples *)

Lemma reachable_bus_example : reachable 0 bus_example.
Proof.
  unfold bus_example. cbv zeta.
  repeat (apply reach_Subscribe || apply reach_SubscribeWithHandlerGroup).
  apply reach_new.
Qed.

Lemma reachable_part002_bus_older : reachable_part002 0 bus_older.
Proof.
  unfold bus_older. cbv zeta.
  repeat (apply reach002_Subscribe || apply reach002_SubscribeWithHandlerGroup).
  apply reach002_new.
Qed.

Lemma Publish_never_panics_witness :
  reachable 0 bus_example ∧ 0 < max_int
  ∧ ∃ b' w' calls err,
      Publish any_order bus_example () "app.user.created" (Some "e") []
      = Returned b' w' calls err
      ∧ handlers b' = handlers bus_example ∧ groups b' = groups bus_example.
Proof.
  assert (Hlt : 0 < max_int) by (vm_compute; reflexivity).
  split_and!; [exact reachable_bus_example | exact Hlt |].
  exact (Publish_never_panics 0 bus_example any_order () "app.user.created"
           (Some "e") [] reachable_bus_example Hlt).
Defined.

Lemma reachable_registries_sound_witness :
  reachable 0 bus_example ∧ registries_sound bus_example.
Proof.
  split; [exact reachable_bus_example|].
  exact (reachable_registries_sound 0 bus_example reachable_bus_example).
Defined.

Lemma SubscribeWithHandlerGroup_appends_witness :
  "app.*.created" ≠ "" ∧ "workers" ≠ ""
  ∧ group_handlers
      (SubscribeWithHandlerGroup bus_example "app.*.created" "workers"
         (Some (log_handler 6 false))).1 "app.*.created" "workers"
    = group_handlers bus_example "app.*.created" "workers" ++ [log_handler 6 false].
Proof.
  assert (Hs : "app.*.created" ≠ "") by discriminate.
  assert (Hg : "workers" ≠ "") by discriminate.
  split_and!; [exact Hs | exact Hg |].
  exact (proj1 (proj2 (SubscribeWithHandlerGroup_appends bus_example
                         "app.*.created" "workers" (log_handler 6 false) Hs Hg))).
Defined.

Lemma broadcast_before_groups_witness :
  bus_within 0 bus_example = true ∧ 0 < max_int ∧ "app.user.created" ≠ ""
  ∧ ∃ b' w' calls1 calls2,
      Publish any_order bus_example () "app.user.created" (Some "e") []
      = Returned b' w' (calls1 ++ calls2) None
      ∧ Forall is_broadcast_call calls1
      ∧ Forall is_group_call calls2.
Proof.
  assert (Hok : bus_within 0 bus_example = true) by (vm_compute; reflexivity).
  assert (Hlt : 0 < max_int) by (vm_compute; reflexivity).
  assert (Hs : "app.user.created" ≠ "") by discriminate.
  split_and!; [exact Hok | exact Hlt | exact Hs |].
  exact (broadcast_before_groups 0 any_order bus_example () "app.user.created"
           "e" [] Hok Hlt Hs).
Defined.

Lemma Publish_order_independent_witness :
  bus_within 0 bus_example = true ∧ 0 < max_int ∧ "app.user.created" ≠ ""
  ∧ ∃ b1 w1 calls1 b2 w2 calls2,
      Publish any_order bus_example () "app.user.created" (Some "e") []
      = Returned b1 w1 calls1 None
      ∧ Publish workers_first bus_example () "app.user.created" (Some "e") []
        = Returned b2 w2 calls2 None
      ∧ calls1 ≡ₚ calls2
      ∧ handlers b1 = handlers b2 ∧ groups b1 = groups b2
      ∧ ∀ p g, cursor (groupIndex b1) p g = cursor (groupIndex b2) p g.
Proof.
  assert (Hok : bus_within 0 bus_example = true) by (vm_compute; reflexivity).
  assert (Hlt : 0 < max_int) by (vm_compute; reflexivity).
  assert (Hs : "app.user.created" ≠ "") by discriminate.
  split_and!; [exact Hok | exact Hlt | exact Hs |].
  exact (Publish_order_independent 0 any_order workers_first bus_example ()
           "app.user.created" "e" [] Hok Hlt Hs).
Defined.

Lemma round_robin_window_witness :
  bus_within 0 bus_example = true
  ∧ 0 + Z.of_nat (List.length requests_example) ≤ max_int
  ∧ group_handlers bus_example "app.*.created" "workers" ≠ []
  ∧ Forall (matching_request "app.*.created") requests_example
  ∧ ∃ b' w' logs,
      PublishSeq bus_example () requests_example [] = Some (b', w', logs)
      ∧ cursor (groupIndex b') "app.*.created" "workers"
        = cursor (groupIndex bus_example) "app.*.created" "workers"
          + Z.of_nat (List.length requests_example).
Proof.
  assert (Hok : bus_within 0 bus_example = true) by (vm_compute; reflexivity).
  assert (Hlen : 0 + Z.of_nat (List.length requests_example) ≤ max_int)
    by (vm_compute; discriminate).
  assert (Hhs : group_handlers bus_example "app.*.created" "workers" ≠ [])
    by (vm_compute; discriminate).
  assert (Hreqs : Forall (matching_request "app.*.created") requests_example).
  { repeat constructor; vm_compute; eauto; discriminate. }
  split_and!; [exact Hok | exact Hlen | exact Hhs | exact Hreqs |].
  destruct (round_robin_window 0 bus_example () requests_example []
              "app.*.created" "workers" Hok Hlen Hhs Hreqs)
    as (b' & w' & logs & Hrun & _ & Hcur & _).
  exists b', w', logs. split; [exact Hrun | exact Hcur].
Defined.

Lemma matchSubject_one_star_witness :
  literal "app." = true ∧ literal ".created" = true
  ∧ (matchSubject ("app." ++ String "*" ".created")%string "app.user.created" = true
     ↔ ∃ m, "app.user.created" = ("app." ++ (m ++ ".created"))%string
            ∧ strings.Contains m "/" = false).
Proof.
  assert (Hx : literal "app." = true) by (vm_compute; reflexivity).
  assert (Hy : literal ".created" = true) by (vm_compute; reflexivity).
  split_and!; [exact Hx | exact Hy |].
  exact (matchSubject_one_star "app." ".created" "app.user.created" Hx Hy).
Defined.

Lemma Publish_part002_fail_fast_witness :
  bus_within 0 bus_failing = true ∧ 0 < max_int
  ∧ ∃ idx' calls err,
      Publish_part002 any_order bus_failing () "test.error" (Some "e") []
      = Returned {| handlers := handlers bus_failing; groups := groups bus_failing;
                    groupIndex := idx' |}
                 (run_calls calls () (Some "e") []) calls err
      ∧ calls `prefix_of` plan_part002 any_order bus_failing "test.error".
Proof.
  assert (Hok : bus_within 0 bus_failing = true) by (vm_compute; reflexivity).
  assert (Hlt : 0 < max_int) by (vm_compute; reflexivity).
  split_and!; [exact Hok | exact Hlt |].
  destruct (Publish_part002_fail_fast 0 any_order bus_failing () "test.error"
              (Some "e") [] Hok Hlt)
    as (idx' & calls & err & Hrun & Hpre & _).
  exists idx', calls, err. split; [exact Hrun | exact Hpre].
Defined.

Lemma Publish_part002_never_panics_witness :
  reachable_part002 0 bus_older ∧ 0 < max_int
  ∧ ∃ idx' w' calls err,
      Publish_part002 any_order bus_older () "" None []
      = Returned {| handlers := handlers bus_older; groups := groups bus_older;
                    groupIndex := idx' |} w' calls err
      ∧ (∀ p, is_Some (idx' !! p) ↔ is_Some (groupIndex bus_older !! p)).
Proof.
  assert (Hlt : 0 < max_int) by (vm_compute; reflexivity).
  split_and!; [exact reachable_part002_bus_older | exact Hlt |].
  exact (Publish_part002_never_panics 0 bus_older any_order () "" None []
           reachable_part002_bus_older Hlt).
Defined.

Lemma Publish_agrees_with_part002_witness :
  "orders.created" ≠ "" ∧ exact_only bus_plain "orders.created" = true
  ∧ ∃ b' w' calls,
      Publish_part002 any_order bus_plain () "orders.created" (Some "e") []
      = Returned b' w' calls None
      ∧ Publish any_order bus_plain () "orders.created" (Some "e") []
        = Returned b' w' calls None.
Proof.
  assert (Hs : "orders.created" ≠ "") by discriminate.
  assert (Hexact : exact_only bus_plain "orders.created" = true)
    by (vm_compute; reflexivity).
  assert (Hold : ∃ b' w' calls,
             Publish_part002 any_order bus_plain () "orders.created" (Some "e") []
             = Returned b' w' calls None).
  { vm_compute. do 3 eexists. reflexivity. }
  split_and!; [exact Hs | exact Hexact |].
  destruct Hold as (b' & w' & calls & Hold).
  exists b', w', calls. split; [exact Hold|].
  exact (Publish_agrees_with_part002 any_order bus_plain () "orders.created"
           "e" [] b' w' calls Hs Hexact Hold).
Defined.

Lemma Publish_calls_sound_witness :
  bus_within 0 bus_example = true ∧ 0 < max_int ∧ "app.user.created" ≠ ""
  ∧ ∃ b' w' calls,
      Publish any_order bus_example () "app.user.created" (Some "e") []
      = Returned b' w' calls None
      ∧ Forall (λ c, matchSubject (call_pattern c) "app.user.created" = true
                     ∧ registered bus_example c) calls.
Proof.
  assert (Hok : bus_within 0 bus_example = true) by (vm_compute; reflexivity).
  assert (Hlt : 0 < max_int) by (vm_compute; reflexivity).
  assert (Hs : "app.user.created" ≠ "") by discriminate.
  split_and!; [exact Hok | exact Hlt | exact Hs |].
  exact (Publish_calls_sound 0 any_order bus_example () "app.user.created"
           "e" [] Hok Hlt Hs).
Defined.

Lemma malformed_pattern_never_called_witness :
  bus_within 0 bus_example = true ∧ 0 < max_int ∧ "*.[" ≠ "" ∧ "a.[" ≠ ""
  ∧ strings.Contains "*.[" "*" = true ∧ well_formed "*.[" = false
  ∧ (Subscribe bus_example "*.[" (Some (log_handler 7 false))).2 = None
  ∧ ∃ b' w' calls,
      Publish any_order (Subscribe bus_example "*.[" (Some (log_handler 7 false))).1
              () "a.[" (Some "e") []
      = Returned b' w' calls None
      ∧ ∀ c, c ∈ calls → call_pattern c ≠ "*.[".
Proof.
  assert (Hok : bus_within 0 bus_example = true) by (vm_compute; reflexivity).
  assert (Hlt : 0 < max_int) by (vm_compute; reflexivity).
  assert (Hp : "*.[" ≠ "") by discriminate.
  assert (Hs : "a.[" ≠ "") by discriminate.
  assert (Hstar : strings.Contains "*.[" "*" = true) by (vm_compute; reflexivity).
  assert (Hbad : well_formed "*.[" = false) by (vm_compute; reflexivity).
  split_and!; [exact Hok | exact Hlt | exact Hp | exact Hs | exact Hstar | exact Hbad | |].
  - exact (proj1 (malformed_pattern_never_called 0 any_order bus_example ()
                    "*.[" (log_handler 7 false) "a.[" "e" [] Hok Hlt Hp Hs Hstar Hbad)).
  - exact (proj2 (proj2 (malformed_pattern_never_called 0 any_order bus_example ()
                    "*.[" (log_handler 7 false) "a.[" "e" [] Hok Hlt Hp Hs Hstar Hbad))).
Defined.


Lemma closed_for_good_witness :
  ∃ c, mock_nats.run ops_example mock_nats.NewMockConn = Some c
       ∧ mock_nats.closed c = true
       ∧ ∃ c', mock_nats.run [mock_nats.StepRoutine 0] c = Some c'
               ∧ mock_nats.closed c' = true
               ∧ (List.length (mock_nats.handled c')
                  ≤ List.length (mock_nats.handled c) + mock_nats.calling c)%nat.
Proof.
  assert (Hrun : ∃ c, mock_nats.run ops_example mock_nats.NewMockConn = Some c
                      ∧ mock_nats.closed c = true).
  { vm_compute. eexists. split; reflexivity. }
  destruct Hrun as (c & Hrun & Hcl). exists c.
  split_and!; [exact Hrun | exact Hcl |].
  destruct (closed_for_good ops_example c [mock_nats.StepRoutine 0] Hrun Hcl)
    as (c' & Hrun' & Hcl' & Hle & _).
  exists c'. split_and!; [exact Hrun' | exact Hcl' | exact Hle].
Defined.
